(** * GoSTL: the ring-buffer deque and the slice stack, sequentially

    A shallow embedding of package [Deque] and of [Stack/stack.go].  Every
    operation is modelled as it runs when no other goroutine touches the
    container: each compare-and-swap succeeds at its first attempt and the
    mutex is free.  The backing slice is a [list T] whose length is the
    slice header's [cap] (the code only ever installs slices made by
    [make([]T, n)], whose [len] and [cap] are both [n]).

    Integers: the [int32] fields are [Z] values and every [int32]
    conversion or [int32] arithmetic step is wrapped by [int32]; [int] is
    the 64-bit type, and its arithmetic on slice lengths and on the
    [int32] fields cannot leave its range.  [%] and [/] are Go's truncated
    operators ([Z.rem], [Z.quot]) and fail on a zero divisor. *)

From stdpp Require Import base numbers list.

Local Open Scope Z_scope.

(** ** The fragment of Go the two files rely on *)

Module Go.

(** Ways a call can end without returning. *)
Inductive fault : Set :=
  | IndexOutOfRange    (* runtime panic: index out of range *)
  | SliceBounds        (* runtime panic: slice bounds out of range *)
  | DivideByZero       (* runtime panic: integer divide by zero *)
  | MakeSliceLen       (* runtime panic: makeslice: len out of range *)
  | OutsideAllocation  (* access through the unsafe array view past the
                          end of the allocated backing array *)
  | Spin.              (* a retry loop that re-enters the same state *)

Inductive result (A : Type) : Type :=
  | Ok (a : A)
  | Err (f : fault).
Arguments Ok {A} a.
Arguments Err {A} f.

#[global] Instance result_ret : MRet result := fun A a => Ok a.
#[global] Instance result_bind : MBind result := fun A B k m =>
  match m with
  | Ok a => k a
  | Err f => Err f
  end.

(** Conversion to [int32]: two's complement wrap-around. *)
Definition int32 (z : Z) : Z := (z + 2147483648) `mod` 4294967296 - 2147483648.

(** [x % y] *)
Definition rem (x y : Z) : result Z :=
  if y =? 0 then Err DivideByZero else Ok (Z.rem x y).

(** Number of elements of the array type [[1 << 30]T] through which both
    files reinterpret the backing array. *)
Definition view_len : Z := 1073741824.

Section Slices.
Context {T : Type} (zero : T).

(** [make([]T, n)]; the allocator's upper limit is not modelled. *)
Definition make (n : Z) : result (list T) :=
  if n <? 0 then Err MakeSliceLen else Ok (replicate (Z.to_nat n) zero).

(** [s[i]] on a slice [s], bounds-checked against [len(s)]. *)
Definition index (s : list T) (i : Z) : result T :=
  if (i <? 0) || (Z.of_nat (length s) <=? i) then Err IndexOutOfRange
  else match s !! Z.to_nat i with
       | Some x => Ok x
       | None => Err IndexOutOfRange
       end.

(** [s[i] = v] on a slice [s]. *)
Definition store (s : list T) (i : Z) (v : T) : result (list T) :=
  if (i <? 0) || (Z.of_nat (length s) <=? i) then Err IndexOutOfRange
  else Ok (<[Z.to_nat i := v]> s).

(** [s[a], s[b] = s[b], s[a]] on a slice: both right-hand sides are read
    before either element is written. *)
Definition slice_swap (s : list T) (a b : Z) : result (list T) :=
  vb ← index s b;
  va ← index s a;
  s1 ← store s a vb;
  store s1 b va.

(** [header.data] viewed as a pointer to [[1 << 30]T], at index [i]:
    the bounds check is against the array type's length; an index that
    passes it but lies past the allocation [mem] touches foreign
    memory. *)
Definition view_index (mem : list T) (i : Z) : result T :=
  if (i <? 0) || (view_len <=? i) then Err IndexOutOfRange
  else match mem !! Z.to_nat i with
       | Some x => Ok x
       | None => Err OutsideAllocation
       end.

(** Assignment of [v] to index [i] of the same view. *)
Definition view_store (mem : list T) (i : Z) (v : T) : result (list T) :=
  if (i <? 0) || (view_len <=? i) then Err IndexOutOfRange
  else if Z.of_nat (length mem) <=? i then Err OutsideAllocation
  else Ok (<[Z.to_nat i := v]> mem).

(** The view sliced as [[lo:hi]], used as the source of a [copy]; a
    window that extends past the allocation is reported where it is
    formed. *)
Definition view_slice (mem : list T) (lo hi : Z) : result (list T) :=
  if (lo <? 0) || (hi <? lo) || (view_len <? hi) then Err SliceBounds
  else if Z.of_nat (length mem) <? hi then Err OutsideAllocation
  else Ok (take (Z.to_nat (hi - lo)) (drop (Z.to_nat lo) mem)).

(** [n := copy(dst[off:], src)] for [off <= len(dst)]: the updated
    [dst] and the number of elements copied. *)
Definition copy (dst : list T) (off : Z) (src : list T) : list T * Z :=
  let room := drop (Z.to_nat off) dst in
  let n := Nat.min (length room) (length src) in
  (take (Z.to_nat off) dst ++ take n src ++ drop n room, Z.of_nat n).

(** The view sliced as [[:n]] and kept as a slice value: its elements
    and its [cap].  Slicing an array leaves the capacity at the
    array's length minus the low bound, here [1 << 30]. *)
Definition view_prefix (mem : list T) (n : Z) : result (list T * Z) :=
  if (n <? 0) || (view_len <? n) then Err SliceBounds
  else if Z.of_nat (length mem) <? n then Err OutsideAllocation
  else Ok (take (Z.to_nat n) mem, view_len).

(** Writes made through a prefix slice land in the backing array. *)
Definition write_back (mem : list T) (n : Z) (s : list T) : list T :=
  s ++ drop (Z.to_nat n) mem.
End Slices.

#[global] Arguments int32 : simpl never.
#[global] Arguments rem : simpl never.
#[global] Arguments make : simpl never.
#[global] Arguments index : simpl never.
#[global] Arguments store : simpl never.
#[global] Arguments slice_swap : simpl never.
#[global] Arguments view_index : simpl never.
#[global] Arguments view_store : simpl never.
#[global] Arguments view_slice : simpl never.
#[global] Arguments view_prefix : simpl never.
#[global] Arguments copy : simpl never.

End Go.

Import Go.

(** ** Package Deque *)

Module Deque.
Section WithElem.
Context {T : Type} (zero : T).

Record Deque : Type := mk {
  data : list T;   (* the slice behind the header pointer *)
  front : Z;       (* int32 *)
  back : Z;        (* int32 *)
  length : Z;      (* int32 *)
  initCap : Z      (* int *)
}.

(** [header.cap] *)
Definition Capacity (q : Deque) : Z := Z.of_nat (List.length (data q)).

Definition Init (q : Deque) (n : Z) : result Deque :=
  let capacity := if 8 <? n then n else 8 in
  d ← make zero capacity;
  Ok {| data := d; front := 0; back := 0; length := 0; initCap := capacity |}.

(** [initCap ...int] is the list of the optional arguments. *)
Definition NewDeque (args : list Z) : result Deque :=
  let capacity :=
    match args with
    | c :: _ => if 0 <? c then c else 8
    | [] => 8
    end in
  Init {| data := []; front := 0; back := 0; length := 0; initCap := capacity |}
       capacity.

Definition Empty (q : Deque) : bool := length q =? 0.

Definition Len (q : Deque) : Z := length q.

(** The two-branch copy of the live window shared by [internalResize]
    and [Copy]. *)
Definition copy_window (q : Deque) (newData : list T) : result (list T) :=
  if front q <? back q then
    src ← view_slice (data q) (front q) (back q);
    Ok (fst (copy newData 0 src))
  else
    src1 ← view_slice (data q) (front q) (Capacity q);
    let '(d1, n) := copy newData 0 src1 in
    src2 ← view_slice (data q) 0 (back q);
    Ok (fst (copy d1 n src2)).

Definition internalResize (q : Deque) (newCap : Z) : result Deque :=
  newData ← make zero newCap;
  newData' ← copy_window q newData;
  Ok {| data := newData'; front := 0; back := length q;
        length := length q; initCap := initCap q |}.

(** The block both pushes run under the lock: double the storage when
    it is full. *)
Definition growIfFull (q : Deque) : result Deque :=
  if length q =? int32 (Capacity q) then
    let newCap := Capacity q * 2 in
    let newCap := if newCap =? 0 then initCap q else newCap in
    internalResize q newCap
  else Ok q.

Definition PushBack (q : Deque) (val : T) : result Deque :=
  let capacity := int32 (Capacity q) in
  if length q <? capacity then
    newBack ← rem (int32 (back q + 1)) capacity;
    d ← view_store (data q) (back q) val;
    Ok {| data := d; front := front q; back := newBack;
          length := int32 (length q + 1); initCap := initCap q |}
  else
    q1 ← growIfFull q;
    let capacity := int32 (Capacity q1) in
    d ← view_store (data q1) (back q1) val;
    newBack ← rem (int32 (back q1 + 1)) capacity;
    Ok {| data := d; front := front q1; back := newBack;
          length := int32 (length q1 + 1); initCap := initCap q1 |}.

Definition PushFront (q : Deque) (val : T) : result Deque :=
  q1 ← growIfFull q;
  let capacity := int32 (Capacity q1) in
  newFront ← rem (int32 (int32 (front q1 - 1) + capacity)) capacity;
  d ← view_store (data q1) newFront val;
  Ok {| data := d; front := newFront; back := back q1;
        length := int32 (length q1 + 1); initCap := initCap q1 |}.

(** When the decremented length is negative the loop restores [back]
    and [length] and starts over from the state it began with. *)
Definition PopBack (q : Deque) : result (Deque * (T * bool)) :=
  if length q =? 0 then Ok (q, (zero, false))
  else
    let n := int32 (Capacity q) in
    newBack ← rem (int32 (int32 (back q - 1) + n)) n;
    let length' := int32 (length q - 1) in
    if 0 <=? length' then
      v ← index (data q) newBack;
      Ok ({| data := data q; front := front q; back := newBack;
             length := length'; initCap := initCap q |}, (v, true))
    else Err Spin.

Definition PopFront (q : Deque) : result (Deque * (T * bool)) :=
  if length q =? 0 then Ok (q, (zero, false))
  else
    newFront ← rem (int32 (front q + 1)) (int32 (Capacity q));
    let length' := int32 (length q - 1) in
    if 0 <=? length' then
      v ← index (data q) (front q);
      Ok ({| data := data q; front := newFront; back := back q;
             length := length'; initCap := initCap q |}, (v, true))
    else Err Spin.

Definition Front (q : Deque) : result (T * bool) :=
  if length q =? 0 then Ok (zero, false)
  else v ← index (data q) (front q); Ok (v, true).

Definition Back (q : Deque) : result (T * bool) :=
  if length q =? 0 then Ok (zero, false)
  else
    let n := int32 (Capacity q) in
    i ← rem (int32 (int32 (back q - 1) + n)) n;
    v ← index (data q) i;
    Ok (v, true).

Definition Clear (q : Deque) : Deque :=
  {| data := data q; front := 0; back := 0; length := 0; initCap := initCap q |}.

(** Negative indices count from the back. *)
Definition resolve (index count : Z) : Z :=
  if index <? 0 then index + count else index.

Definition At (q : Deque) (index : Z) : result (T * bool) :=
  let index := resolve index (length q) in
  if (index <? 0) || (length q <=? index) then Ok (zero, false)
  else
    i ← rem (int32 (front q + int32 index)) (int32 (Capacity q));
    v ← Go.index (data q) i;
    Ok (v, true).

Definition ShrinkToFit (q : Deque) : result Deque :=
  if length q =? 0 then Init q (initCap q)
  else if length q =? Capacity q then Ok q
  else
    let newCap := length q in
    let newCap := if newCap <? initCap q then initCap q else newCap in
    internalResize q newCap.

Definition Copy (q : Deque) : result Deque :=
  newDeque ← NewDeque [Capacity q];
  if length q =? 0 then Ok newDeque
  else
    data0 ← make zero (length q);
    data' ← copy_window q data0;
    Ok {| data := data'; front := 0; back := length q;
          length := length q; initCap := initCap newDeque |}.

(** [Set] is a reserved word here. *)
Definition Set_ (q : Deque) (index : Z) (value : T) : result (Deque * bool) :=
  let index := resolve index (length q) in
  if (index <? 0) || (length q <=? index) then Ok (q, false)
  else
    pos ← rem (int32 (front q + int32 index)) (int32 (Capacity q));
    d ← view_store (data q) pos value;
    Ok ({| data := d; front := front q; back := back q;
           length := length q; initCap := initCap q |}, true).

(** [data[a], data[b] = data[b], data[a]] on the unsafe view. *)
Definition view_swap (mem : list T) (a b : Z) : result (list T) :=
  vb ← view_index mem b;
  va ← view_index mem a;
  m1 ← view_store mem a vb;
  view_store m1 b va.

Definition Swap (q : Deque) (i j : Z) : result (Deque * bool) :=
  if i =? j then Ok (q, false)
  else
    let i := resolve i (length q) in
    let j := resolve j (length q) in
    if (i <? 0) || (length q <=? i) || (j <? 0) || (length q <=? j)
    then Ok (q, false)
    else
      let capacity := int32 (Capacity q) in
      posI ← rem (int32 (front q + int32 i)) capacity;
      posJ ← rem (int32 (front q + int32 j)) capacity;
      d ← view_swap (data q) posI posJ;
      Ok ({| data := d; front := front q; back := back q;
             length := length q; initCap := initCap q |}, true).

(** [k] further iterations of the loop of [reverseCircular], entered
    with loop variable [i]; [capacity] is [cap(data)]. *)
Fixpoint reverseCircular_loop (capacity start end_ : Z) (k : nat) (i : Z)
    (data : list T) : result (list T) :=
  match k with
  | O => Ok data
  | S k' =>
      left ← rem (start + i) capacity;
      right ← rem (end_ - 1 - i) capacity;
      data' ← slice_swap data left right;
      reverseCircular_loop capacity start end_ k' (i + 1) data'
  end.

(** [data] is the slice's elements and [capacity] its [cap]. *)
Definition reverseCircular (data : list T) (capacity start end_ count : Z)
    : result (list T) :=
  reverseCircular_loop capacity start end_ (Z.to_nat (Z.quot count 2)) 0 data.

Definition Rotate (q : Deque) (n : Z) : result Deque :=
  if length q <=? 1 then Ok q
  else
    let n := Z.rem n (length q) in
    let n := if n <? 0 then n + length q else n in
    if n =? 0 then Ok q
    else
      '(s, capacity) ← view_prefix (data q) (Capacity q);
      s1 ← reverseCircular s capacity (front q) (front q + length q) (length q);
      s2 ← reverseCircular s1 capacity (front q) (front q + n) n;
      s3 ← reverseCircular s2 capacity (front q + n) (front q + length q)
             (length q - n);
      Ok {| data := write_back (data q) (Capacity q) s3;
            front := front q; back := back q;
            length := length q; initCap := initCap q |}.

(** [k] further iterations of the loop of [Reverse]. *)
Fixpoint Reverse_loop (front length capacity : Z) (k : nat) (i : Z)
    (mem : list T) : result (list T) :=
  match k with
  | O => Ok mem
  | S k' =>
      left ← rem (int32 (front + int32 i)) capacity;
      right ← rem (int32 (int32 (int32 (front + length) - 1) - int32 i)) capacity;
      mem' ← view_swap mem left right;
      Reverse_loop front length capacity k' (i + 1) mem'
  end.

Definition Reverse (q : Deque) : result Deque :=
  if length q <=? 1 then Ok q
  else
    d ← Reverse_loop (front q) (length q) (int32 (Capacity q))
          (Z.to_nat (Z.quot (length q) 2)) 0 (data q);
    Ok {| data := d; front := front q; back := back q;
          length := length q; initCap := initCap q |}.

(** *** Specification vocabulary *)

(** The states the operations are written for: a non-empty backing
    array that fits the unsafe view, [front] inside it, a live window
    no longer than it, and [back] one past the window's last slot,
    circularly.  [back] may equal the capacity: [internalResize] and
    [Copy] store [length] there, also when the window fills the new
    array.  [initCap] is only ever written by [Init], hence at least
    8. *)
Definition wf (q : Deque) : Prop :=
  0 < Capacity q ≤ view_len ∧
  0 ≤ front q < Capacity q ∧
  0 ≤ length q ≤ Capacity q ∧
  0 ≤ back q ≤ Capacity q ∧
  back q `mod` Capacity q = (front q + length q) `mod` Capacity q ∧
  8 ≤ initCap q.

(** [back] is a valid slot, as the lock-free branch of [PushBack]
    needs. *)
Definition tight (q : Deque) : Prop := wf q ∧ back q < Capacity q.

(** The live window did not wrap past the end of the backing array. *)
Definition unwrapped (q : Deque) : Prop := front q + length q ≤ Capacity q.

(** The live elements, front to back. *)
Definition elems (q : Deque) : list T :=
  take (Z.to_nat (length q)) (rotate (Z.to_nat (front q)) (data q)).

(** The window [l] stored densely from offset 0, followed by [m]
    untouched slots: the state [internalResize] and [Copy] build. *)
Definition packed (l : list T) (m : nat) (ic : Z) : Deque :=
  {| data := l ++ replicate m zero; front := 0;
     back := Z.of_nat (List.length l); length := Z.of_nat (List.length l);
     initCap := ic |}.

(** The state after the back-push of [val] when there is room: the code
    after the compare-and-swap in the lock-free branch, and after the
    growth step in the locked one. *)
Definition pushed (q : Deque) (val : T) : Deque :=
  {| data := <[Z.to_nat (back q) := val]> (data q); front := front q;
     back := (back q + 1) `mod` Capacity q;
     length := length q + 1; initCap := initCap q |}.

(** [PushBack] of each value in turn. *)
Fixpoint PushBack_all (q : Deque) (vs : list T) : result Deque :=
  match vs with
  | [] => Ok q
  | v :: vs' => q' ← PushBack q v; PushBack_all q' vs'
  end.

End WithElem.
End Deque.

(** ** Package Stack (Stack/stack.go) *)

Module Stack.
Section WithElem.
Context {T : Type} (zero : T).

Record Stack : Type := mk {
  data : list T;   (* the slice behind the header pointer *)
  top : Z;         (* int32 *)
  initCap : Z      (* int *)
}.

(** [header.cap] *)
Definition Capacity (s : Stack) : Z := Z.of_nat (List.length (data s)).

Definition Init (s : Stack) (n : Z) : result Stack :=
  let capacity := if 8 <? n then n else 8 in
  d ← make zero capacity;
  Ok {| data := d; top := 0; initCap := capacity |}.

Definition NewStack (args : list Z) : result Stack :=
  let capacity :=
    match args with
    | c :: _ => if 0 <? c then c else 8
    | [] => 8
    end in
  Init {| data := []; top := 0; initCap := capacity |} capacity.

Definition Empty (s : Stack) : bool := top s =? 0.

Definition internalResize (s : Stack) (newCap : Z) : result Stack :=
  newData ← make zero newCap;
  src ← view_slice (data s) 0 (top s);
  Ok {| data := fst (copy newData 0 src); top := top s; initCap := initCap s |}.

Definition Push (s : Stack) (val : T) : result Stack :=
  if top s <? Capacity s then
    d ← view_store (data s) (top s) val;
    Ok {| data := d; top := int32 (top s + 1); initCap := initCap s |}
  else
    s1 ← (if top s =? Capacity s then
            let newCap := Capacity s * 2 in
            let newCap := if newCap =? 0 then initCap s else newCap in
            internalResize s newCap
          else Ok s);
    d ← view_store (data s1) (top s1) val;
    Ok {| data := d; top := int32 (top s1 + 1); initCap := initCap s1 |}.

Definition Pop (s : Stack) : result (Stack * (T * bool)) :=
  if top s <=? 0 then Ok (s, (zero, false))
  else
    let top' := int32 (top s - 1) in
    v ← view_index (data s) (int32 (top s - 1));
    Ok ({| data := data s; top := top'; initCap := initCap s |}, (v, true)).

Definition Top (s : Stack) : result (T * bool) :=
  if top s <=? 0 then Ok (zero, false)
  else v ← view_index (data s) (int32 (top s - 1)); Ok (v, true).

Definition Length (s : Stack) : Z := top s.

Definition Clear (s : Stack) : Stack :=
  {| data := data s; top := 0; initCap := initCap s |}.

Definition Resize (s : Stack) (newCap : Z) : result Stack :=
  let s1 := if newCap <? top s
            then {| data := data s; top := int32 newCap; initCap := initCap s |}
            else s in
  internalResize s1 newCap.

Definition TrimToSize (s : Stack) : result Stack :=
  if top s =? 0 then internalResize s (initCap s)
  else if top s <? int32 (Capacity s) then internalResize s (top s)
  else Ok s.

(** [k] further iterations of the loop of [Reverse]. *)
Fixpoint Reverse_loop (top : Z) (k : nat) (i : Z) (d : list T) : result (list T) :=
  match k with
  | O => Ok d
  | S k' =>
      d' ← slice_swap d i (top - 1 - i);
      Reverse_loop top k' (i + 1) d'
  end.

Definition Reverse (s : Stack) : result Stack :=
  '(d, _) ← view_prefix (data s) (Capacity s);
  d' ← Reverse_loop (top s) (Z.to_nat (Z.quot (top s) 2)) 0 d;
  Ok {| data := write_back (data s) (Capacity s) d'; top := top s;
        initCap := initCap s |}.

(** The loop of the closure [reverse] inside [Rotate]: [i] and [j]
    approach each other, so [j - i] iterations always suffice; the
    loop test is kept, and fuel that ends with the test still true is
    reported as [Spin]. *)
Fixpoint reverse_loop (fuel : nat) (i j : Z) (d : list T) : result (list T) :=
  if i <? j then
    match fuel with
    | O => Err Spin
    | S fuel' =>
        d' ← slice_swap d i j;
        reverse_loop fuel' (i + 1) (j - 1) d'
    end
  else Ok d.

Definition reverse (d : list T) (start end_ : Z) : result (list T) :=
  reverse_loop (Z.to_nat (end_ - 1 - start)) start (end_ - 1) d.

Definition Rotate (s : Stack) (n : Z) : result Stack :=
  if top s <=? 1 then Ok s
  else
    let n := Z.rem n (top s) in
    let n := if n <? 0 then n + top s else n in
    if n =? 0 then Ok s
    else
      '(d, _) ← view_prefix (data s) (top s);
      d1 ← reverse d 0 (top s);
      d2 ← reverse d1 0 n;
      d3 ← reverse d2 n (top s);
      Ok {| data := write_back (data s) (top s) d3; top := top s;
            initCap := initCap s |}.

(** The new stack is built from the literal [&Stack[T]{initCap:
    s.initCap}]. *)
Definition Copy (s : Stack) : result Stack :=
  '(d, _) ← view_prefix (data s) (Capacity s);
  newData ← make zero (top s);
  src ← view_slice (data s) 0 (top s);
  Ok {| data := fst (copy newData 0 src); top := int32 (top s);
        initCap := initCap s |}.

Definition resolve (index count : Z) : Z :=
  if index <? 0 then index + count else index.

Definition At (s : Stack) (index : Z) : result (T * bool) :=
  let index := resolve index (top s) in
  if (index <? 0) || (top s <=? index) then Ok (zero, false)
  else
    '(d, _) ← view_prefix (data s) (Capacity s);
    v ← Go.index d (top s - 1 - index);
    Ok (v, true).

(** [Set] is a reserved word here. *)
Definition Set_ (s : Stack) (index : Z) (val : T) : result (Stack * bool) :=
  let index := resolve index (top s) in
  if (index <? 0) || (top s <=? index) then Ok (s, false)
  else
    '(d, _) ← view_prefix (data s) (Capacity s);
    d' ← store d (top s - 1 - index) val;
    Ok ({| data := write_back (data s) (Capacity s) d'; top := top s;
           initCap := initCap s |}, true).

(** *** Specification vocabulary *)

(** The states the operations are written for. *)
Definition wf (s : Stack) : Prop :=
  0 ≤ top s ≤ Capacity s ∧ Capacity s ≤ view_len ∧ 8 ≤ initCap s.

(** The live elements, bottom (least recently pushed) to top. *)
Definition elems (s : Stack) : list T := take (Z.to_nat (top s)) (data s).

(** The state after the push of [val] when there is room. *)
Definition pushed (s : Stack) (val : T) : Stack :=
  {| data := <[Z.to_nat (top s) := val]> (data s); top := top s + 1;
     initCap := initCap s |}.

(** [Push] of each value in turn. *)
Fixpoint Push_all (s : Stack) (vs : list T) : result Stack :=
  match vs with
  | [] => Ok s
  | v :: vs' => s' ← Push s v; Push_all s' vs'
  end.

End WithElem.
End Stack.

(** ** Concrete runs over [int] elements *)

Module Samples.

(** [n] calls of [PopFront], results dropped. *)
Fixpoint PopFront_times (n : nat) (q : Deque.Deque) : result (Deque.Deque (T:=Z)) :=
  match n with
  | O => Ok q
  | S n' => '(q', _) ← Deque.PopFront 0 q; PopFront_times n' q'
  end.

(** [NewDeque()], then [PushBack] of 1, 2, 3, 4, 5. *)
Definition deque5 : result (Deque.Deque (T:=Z)) :=
  q ← Deque.NewDeque 0 []; Deque.PushBack_all 0 q [1; 2; 3; 4; 5].

(** The same five pushes onto a deque emptied after six pushes: [front]
    stands at slot 6 of 8 and the window wraps. *)
Definition wrapped5 : result (Deque.Deque (T:=Z)) :=
  q ← Deque.NewDeque 0 [];
  q ← Deque.PushBack_all 0 q [0; 0; 0; 0; 0; 0];
  q ← PopFront_times 6 q;
  Deque.PushBack_all 0 q [1; 2; 3; 4; 5].

(** The state [wrapped5] ends in. *)
Definition wrapped5_state : Deque.Deque (T:=Z) :=
  {| Deque.data := [3; 4; 5; 0; 0; 0; 1; 2]; Deque.front := 6;
     Deque.back := 3; Deque.length := 5; Deque.initCap := 8 |}.

(** The state [deque5] ends in. *)
Definition deque5_state : Deque.Deque (T:=Z) :=
  {| Deque.data := [1; 2; 3; 4; 5; 0; 0; 0]; Deque.front := 0;
     Deque.back := 5; Deque.length := 5; Deque.initCap := 8 |}.

(** [NewDeque()], then [PushBack(7)]. *)
Definition deque1 : result (Deque.Deque (T:=Z)) :=
  q ← Deque.NewDeque 0 []; Deque.PushBack 0 q 7.

Definition deque1_state : Deque.Deque (T:=Z) :=
  {| Deque.data := [7; 0; 0; 0; 0; 0; 0; 0]; Deque.front := 0;
     Deque.back := 1; Deque.length := 1; Deque.initCap := 8 |}.

(** An empty deque as [NewDeque()] returns it. *)
Definition deque0_state : Deque.Deque (T:=Z) :=
  {| Deque.data := [0; 0; 0; 0; 0; 0; 0; 0]; Deque.front := 0;
     Deque.back := 0; Deque.length := 0; Deque.initCap := 8 |}.

(** [NewStack()], then [Push(7)]. *)
Definition stack1 : result (Stack.Stack (T:=Z)) :=
  s ← Stack.NewStack 0 []; Stack.Push 0 s 7.

Definition stack1_state : Stack.Stack (T:=Z) :=
  {| Stack.data := [7; 0; 0; 0; 0; 0; 0; 0]; Stack.top := 1; Stack.initCap := 8 |}.

(** [NewStack()], then [Push] of 0, 1, 2, 3, 4. *)
Definition stack5_state : Stack.Stack (T:=Z) :=
  {| Stack.data := [0; 1; 2; 3; 4; 0; 0; 0]; Stack.top := 5; Stack.initCap := 8 |}.

(** An empty stack as [NewStack()] returns it. *)
Definition stack0_state : Stack.Stack (T:=Z) :=
  {| Stack.data := [0; 0; 0; 0; 0; 0; 0; 0]; Stack.top := 0; Stack.initCap := 8 |}.

End Samples.

(** ** Package queue *)

Module Queue.
Section WithElem.
Context {T : Type} (zero : T).

Record Queue : Type := mk {
  d : Deque.Deque (T:=T)   (* the deque behind the pointer *)
}.

Definition NewQueue : result Queue :=
  q ← Deque.NewDeque zero []; Ok {| d := q |}.

Definition Init (q : Queue) (n : Z) : result Queue :=
  d' ← Deque.Init zero (d q) n; Ok {| d := d' |}.

Definition Pop (q : Queue) : result (Queue * (T * bool)) :=
  '(d', r) ← Deque.PopFront zero (d q); Ok ({| d := d' |}, r).

Definition Front (q : Queue) : result (T * bool) := Deque.Front zero (d q).

Definition Push (q : Queue) (value : T) : result Queue :=
  d' ← Deque.PushBack zero (d q) value; Ok {| d := d' |}.

Definition Len (q : Queue) : Z := Deque.Len (d q).

Definition Empty (q : Queue) : bool := Deque.Empty (d q).

Definition Capacity (q : Queue) : Z := Deque.Capacity (d q).

Definition At (q : Queue) (index : Z) : result (T * bool) :=
  Deque.At zero (d q) index.

(** [Set] is a reserved word here. *)
Definition Set_ (q : Queue) (index : Z) (value : T) : result (Queue * bool) :=
  '(d', ok) ← Deque.Set_ (d q) index value; Ok ({| d := d' |}, ok).

Definition Swap (q : Queue) (i j : Z) : result (Queue * bool) :=
  '(d', ok) ← Deque.Swap (d q) i j; Ok ({| d := d' |}, ok).

Definition Rotate (q : Queue) (n : Z) : result Queue :=
  d' ← Deque.Rotate (d q) n; Ok {| d := d' |}.

Definition ShrinkToFit (q : Queue) : result Queue :=
  d' ← Deque.ShrinkToFit zero (d q); Ok {| d := d' |}.

Definition Copy (q : Queue) : result Queue :=
  newDeque ← Deque.Copy zero (d q); Ok {| d := newDeque |}.

Definition Reverse (q : Queue) : result Queue :=
  d' ← Deque.Reverse (d q); Ok {| d := d' |}.

Definition Clear (q : Queue) : Queue := {| d := Deque.Clear (d q) |}.

(** [Push] of each value in turn. *)
Fixpoint Push_all (q : Queue) (vs : list T) : result Queue :=
  match vs with
  | [] => Ok q
  | v :: vs' => q' ← Push q v; Push_all q' vs'
  end.

(** [n] calls of [Pop], with what each returned. *)
Fixpoint Pop_collect (n : nat) (q : Queue) : result (Queue * list (T * bool)) :=
  match n with
  | O => Ok (q, [])
  | S n' =>
      '(q1, r) ← Pop q;
      '(q2, rs) ← Pop_collect n' q1;
      Ok (q2, r :: rs)
  end.

End WithElem.
End Queue.

(** ** Repeated calls *)

Module Runs.
Section WithElem.
Context {T : Type} (zero : T).

(** [n] calls of [Deque.PopFront], with what each returned. *)
Fixpoint PopFront_collect (n : nat) (q : Deque.Deque)
    : result (Deque.Deque (T:=T) * list (T * bool)) :=
  match n with
  | O => Ok (q, [])
  | S n' =>
      '(q1, r) ← Deque.PopFront zero q;
      '(q2, rs) ← PopFront_collect n' q1;
      Ok (q2, r :: rs)
  end.

(** [n] calls of [Deque.PopBack], with what each returned. *)
Fixpoint PopBack_collect (n : nat) (q : Deque.Deque)
    : result (Deque.Deque (T:=T) * list (T * bool)) :=
  match n with
  | O => Ok (q, [])
  | S n' =>
      '(q1, r) ← Deque.PopBack zero q;
      '(q2, rs) ← PopBack_collect n' q1;
      Ok (q2, r :: rs)
  end.

(** [Deque.PushFront] of each value in turn. *)
Fixpoint PushFront_all (q : Deque.Deque) (vs : list T)
    : result (Deque.Deque (T:=T)) :=
  match vs with
  | [] => Ok q
  | v :: vs' => q' ← Deque.PushFront zero q v; PushFront_all q' vs'
  end.

(** [n] calls of [Stack.Pop], with what each returned. *)
Fixpoint Pop_collect (n : nat) (s : Stack.Stack)
    : result (Stack.Stack (T:=T) * list (T * bool)) :=
  match n with
  | O => Ok (s, [])
  | S n' =>
      '(s1, r) ← Stack.Pop zero s;
      '(s2, rs) ← Pop_collect n' s1;
      Ok (s2, r :: rs)
  end.

(** The pair a successful pop or peek returns. *)
Definition found (x : T) : T * bool := (x, true).

End WithElem.
End Runs.

(** ** Further concrete states *)

Module MoreSamples.

(** A full deque whose window wraps: eight pushes onto a deque emptied
    after six. *)
Definition full8_state : Deque.Deque (T:=Z) :=
  {| Deque.data := [3; 4; 5; 6; 7; 8; 1; 2]; Deque.front := 6;
     Deque.back := 6; Deque.length := 8; Deque.initCap := 8 |}.

(** [NewDeque()], then [PushBack] of 1 to 9: the storage has doubled
    once. *)
Definition long9_state : Deque.Deque (T:=Z) :=
  {| Deque.data := [1; 2; 3; 4; 5; 6; 7; 8; 9; 0; 0; 0; 0; 0; 0; 0];
     Deque.front := 0; Deque.back := 9; Deque.length := 9;
     Deque.initCap := 8 |}.

(** A queue over the wrapped deque of [Samples]. *)
Definition queue5_state : Queue.Queue (T:=Z) :=
  {| Queue.d := Samples.wrapped5_state |}.

(** [NewStack()], then [Resize(0)]. *)
Definition unallocated_state : Stack.Stack (T:=Z) :=
  {| Stack.data := []; Stack.top := 0; Stack.initCap := 8 |}.

End MoreSamples.

(** ** Facts about the Go fragment *)

Section GoFacts.
Context {T : Type} (zero : T).
Implicit Types (mem s : list T) (i n : Z).

Lemma int32_small z : -2147483648 ≤ z < 2147483648 → int32 z = z.
Proof. intros H. unfold int32. rewrite Z.mod_small; lia. Qed.

Lemma rem_nonneg x y : 0 ≤ x → 0 < y → rem x y = Ok (x `mod` y).
Proof.
  intros Hx Hy. unfold rem.
  destruct (Z.eqb_spec y 0) as [->|_]; [lia|].
  by rewrite Z.rem_mod_nonneg by lia.
Qed.

Lemma make_ok n : 0 ≤ n → make zero n = Ok (replicate (Z.to_nat n) zero).
Proof. intros H. unfold make. destruct (Z.ltb_spec n 0); [lia|done]. Qed.

Lemma index_ok s i x :
  0 ≤ i → s !! Z.to_nat i = Some x → index s i = Ok x.
Proof.
  intros Hi Hx. unfold index.
  pose proof (lookup_lt_Some _ _ _ Hx) as Hlt.
  destruct (Z.ltb_spec i 0); [lia|].
  destruct (Z.leb_spec (Z.of_nat (length s)) i); [lia|].
  cbn. by rewrite Hx.
Qed.

Lemma store_ok s i v :
  0 ≤ i < Z.of_nat (length s) → store s i v = Ok (<[Z.to_nat i := v]> s).
Proof.
  intros Hi. unfold store.
  destruct (Z.ltb_spec i 0); [lia|].
  destruct (Z.leb_spec (Z.of_nat (length s)) i); [lia|done].
Qed.

Lemma view_index_ok mem i x :
  0 ≤ i < view_len → mem !! Z.to_nat i = Some x → view_index mem i = Ok x.
Proof.
  intros Hi Hx. unfold view_index.
  destruct (Z.ltb_spec i 0); [lia|].
  destruct (Z.leb_spec view_len i); [lia|].
  cbn. by rewrite Hx.
Qed.

Lemma view_store_ok mem i v :
  0 ≤ i < Z.of_nat (length mem) → Z.of_nat (length mem) ≤ view_len →
  view_store mem i v = Ok (<[Z.to_nat i := v]> mem).
Proof.
  intros Hi Hm. unfold view_store.
  destruct (Z.ltb_spec i 0); [lia|].
  destruct (Z.leb_spec view_len i); [lia|].
  destruct (Z.leb_spec (Z.of_nat (length mem)) i); [lia|done].
Qed.

Lemma view_slice_ok mem lo hi :
  0 ≤ lo ≤ hi → hi ≤ Z.of_nat (length mem) → Z.of_nat (length mem) ≤ view_len →
  view_slice mem lo hi = Ok (take (Z.to_nat (hi - lo)) (drop (Z.to_nat lo) mem)).
Proof.
  intros Hlo Hhi Hm. unfold view_slice.
  destruct (Z.ltb_spec lo 0); [lia|].
  destruct (Z.ltb_spec hi lo); [lia|].
  destruct (Z.ltb_spec view_len hi); [lia|].
  destruct (Z.ltb_spec (Z.of_nat (length mem)) hi); [lia|done].
Qed.

Lemma view_prefix_ok mem n :
  0 ≤ n ≤ Z.of_nat (length mem) → Z.of_nat (length mem) ≤ view_len →
  view_prefix mem n = Ok (take (Z.to_nat n) mem, view_len).
Proof.
  intros Hn Hm. unfold view_prefix.
  destruct (Z.ltb_spec n 0); [lia|].
  destruct (Z.ltb_spec view_len n); [lia|].
  destruct (Z.ltb_spec (Z.of_nat (length mem)) n); [lia|done].
Qed.

(** [copy] into the untouched tail of a fresh slice that has room for
    the whole source. *)
Lemma copy_fresh (m : nat) (pre src : list T) :
  (length src ≤ m)%nat →
  copy (pre ++ replicate m zero) (Z.of_nat (length pre)) src
  = (pre ++ src ++ replicate (m - length src) zero, Z.of_nat (length src)).
Proof.
  intros Hm. unfold copy. rewrite Nat2Z.id.
  rewrite drop_app_length, take_app_length, length_replicate.
  rewrite Nat.min_r by lia.
  by rewrite firstn_all, drop_replicate.
Qed.

Lemma copy_fresh0 (m : nat) (src : list T) :
  (length src ≤ m)%nat →
  copy (replicate m zero) 0 src
  = (src ++ replicate (m - length src) zero, Z.of_nat (length src)).
Proof. intros Hm. apply (copy_fresh m [] src Hm). Qed.

(** Induction on a list from both ends, as the reversal loops consume
    it. *)
Lemma list_ends_ind (P : list T → Prop) :
  P [] → (∀ x, P [x]) → (∀ x y l, P l → P (x :: l ++ [y])) → ∀ l, P l.
Proof.
  intros Hnil Hone Hends l.
  remember (length l) as k eqn:Hk. revert l Hk.
  induction k as [k IH] using lt_wf_ind. intros l Hk.
  destruct l as [|x l]; [done|].
  destruct l as [|y l _] using rev_ind; [apply Hone|].
  apply Hends. apply (IH (length l)); [|done].
  rewrite Hk. cbn. rewrite length_app. cbn. lia.
Qed.

(** Exchanging the two ends of a segment. *)
Lemma slice_swap_ends (pre l post : list T) (x y : T) :
  slice_swap (pre ++ x :: l ++ y :: post)
    (Z.of_nat (length pre)) (Z.of_nat (length pre + S (length l)))
  = Ok (pre ++ y :: l ++ x :: post).
Proof.
  unfold slice_swap.
  assert ((pre ++ x :: l ++ y :: post) !! (length pre + S (length l))%nat = Some y)
    as Hy.
  { rewrite lookup_app_r by lia.
    replace (length pre + S (length l) - length pre)%nat with (S (length l)) by lia.
    cbn. apply list_lookup_middle. done. }
  assert ((pre ++ x :: l ++ y :: post) !! length pre = Some x) as Hx
    by (by apply list_lookup_middle).
  rewrite (index_ok _ (Z.of_nat (length pre + S (length l))) y);
    [|lia|by rewrite Nat2Z.id].
  rewrite (index_ok _ (Z.of_nat (length pre)) x); [|lia|by rewrite Nat2Z.id].
  cbn.
  rewrite store_ok by (rewrite length_app; cbn; lia). cbn.
  rewrite store_ok
    by (rewrite length_insert, !length_app; cbn; rewrite length_app; cbn; lia).
  rewrite !Nat2Z.id. f_equal.
  rewrite insert_app_r_alt, Nat.sub_diag by lia. cbn.
  rewrite insert_app_r_alt by lia.
  replace (length pre + S (length l) - length pre)%nat with (S (length l)) by lia.
  change (y :: l ++ y :: post) with ((y :: l) ++ y :: post).
  rewrite insert_app_r_alt by (cbn; lia).
  cbn [length]. by rewrite Nat.sub_diag.
Qed.

(** Go's [n % m] followed by [if n < 0 { n += m }] is the mathematical
    residue. *)
Lemma rem_normalized (n m : Z) :
  0 < m → (if Z.rem n m <? 0 then Z.rem n m + m else Z.rem n m) = n `mod` m.
Proof.
  intros Hm. pose proof (Z.quot_rem' n m) as Hqr.
  pose proof (Z.rem_bound_abs n m) as Habs.
  destruct (Z.ltb_spec (Z.rem n m) 0).
  - apply (Z.mod_unique_pos n m (Z.quot n m - 1)); lia.
  - apply (Z.mod_unique_pos n m (Z.quot n m)); lia.
Qed.

(** Left rotations compose, and a rotation by a multiple of the length
    does nothing. *)
Lemma rotate_nil (k : nat) : rotate k (@nil T) = [].
Proof. unfold rotate. by rewrite drop_nil, take_nil. Qed.

Lemma rotate_rotate (a b : nat) (l : list T) :
  rotate a (rotate b l) = rotate (a + b) l.
Proof.
  destruct (decide (length l = 0%nat)) as [H0|Hne].
  { destruct l; [by rewrite !rotate_nil|done]. }
  apply list_eq_same_length with (length l);
    [by rewrite length_rotate|by rewrite !length_rotate|].
  intros i x y Hi Hx Hy.
  rewrite lookup_rotate_r in Hx by (by rewrite length_rotate).
  rewrite length_rotate in Hx.
  rewrite lookup_rotate_r in Hx by (apply rotate_nat_add_lt; lia).
  rewrite lookup_rotate_r in Hy by done.
  assert (rotate_nat_add b (rotate_nat_add a i (length l)) (length l)
          = rotate_nat_add (a + b) i (length l)) as Heq.
  { unfold rotate_nat_add. f_equal.
    rewrite Z2Nat.id by (apply Z.mod_pos_bound; lia).
    rewrite Zplus_mod_idemp_r. f_equal. lia. }
  congruence.
Qed.

(** The residues of [n] and [-n] add up to a multiple of the modulus. *)
Lemma residues_cancel (n m : Z) :
  0 < m →
  ((Z.to_nat (n `mod` m) + Z.to_nat ((- n) `mod` m)) `mod` Z.to_nat m = 0)%nat.
Proof.
  intros Hm. pose proof (Z.mod_pos_bound n m Hm) as Hr.
  destruct (decide (n `mod` m = 0)) as [H0|Hne].
  - rewrite Z.mod_opp_l_z, H0 by lia. apply Nat.Div0.mod_0_l.
  - rewrite Z.mod_opp_l_nz by lia.
    replace (Z.to_nat (n `mod` m) + Z.to_nat (m - n `mod` m))%nat
      with (Z.to_nat m) by lia.
    apply Nat.Div0.mod_same.
Qed.

Lemma rem_residue (n m : Z) : 0 < m → Z.rem n m `mod` m = n `mod` m.
Proof.
  intros Hm. rewrite (Z.quot_rem' n m) at 2.
  rewrite Z.add_comm, Z.mul_comm. by rewrite Z.mod_add by lia.
Qed.

Lemma rotate_multiple (k : nat) (l : list T) :
  (k `mod` length l = 0)%nat → rotate k l = l.
Proof. intros H. unfold rotate. rewrite H. cbn. by rewrite app_nil_r. Qed.

(** What three reversals leave: the last [length B] elements in
    front. *)
Lemma rotate_split (A B : list T) :
  rotate (length A) (A ++ B) = B ++ A.
Proof.
  destruct B as [|b B].
  - rewrite app_nil_r. cbn. apply rotate_multiple. apply Nat.Div0.mod_same.
  - unfold rotate. rewrite Nat.mod_small by (rewrite length_app; cbn; lia).
    by rewrite drop_app_length, take_app_length.
Qed.


Lemma view_prefix_beyond (mem : list T) n :
  view_len < n → view_prefix mem n = Err SliceBounds.
Proof.
  intros H. unfold view_prefix.
  destruct (Z.ltb_spec n 0); [done|].
  by destruct (Z.ltb_spec view_len n); [|lia].
Qed.
End GoFacts.

(** Rewrites every [int32] conversion whose argument is provably in
  range. *)
Ltac int32_simpl :=
repeat match goal with
       | |- context [int32 ?z] => rewrite (int32_small z) by (unfold view_len in *; lia)
       end.

(** ** Facts about the deque *)

Lemma mod_once (x c : Z) : c ≤ x < 2 * c → x `mod` c = x - c.
Proof. intros H. symmetry. apply (Z.mod_unique_pos x c 1); lia. Qed.

Module DequeFacts.
Import Deque.
Section WithElem.
Context {T : Type} (zero : T).
Implicit Types (q : Deque (T:=T)) (i n : Z) (v x : T).

(** The two shapes of a non-empty live window. *)
Lemma window_shape q :
  wf q → 0 < length q →
  (front q < back q ∧ back q - front q = length q) ∨
  (back q ≤ front q ∧ length q = Capacity q - front q + back q).
Proof.
  intros (Hc & Hf & Hl & Hb & Hm & _) Hpos.
  destruct (decide (back q < Capacity q)) as [Hb'|Hb'].
  - rewrite (Z.mod_small (back q)) in Hm by lia.
    destruct (decide (front q + length q < Capacity q)).
    + rewrite Z.mod_small in Hm by lia. lia.
    + rewrite mod_once in Hm by lia. lia.
  - assert (back q = Capacity q) as Hbc by lia.
    rewrite Hbc, Z_mod_same_full in Hm.
    destruct (decide (front q + length q < Capacity q)).
    + rewrite Z.mod_small in Hm by lia. lia.
    + rewrite mod_once in Hm by lia. lia.
Qed.

Lemma elems_length q : wf q → List.length (elems q) = Z.to_nat (length q).
Proof.
  intros (Hc & Hf & Hl & _). unfold elems.
  rewrite length_take, length_rotate. unfold Capacity in *. lia.
Qed.

Lemma elems_lookup q i :
  wf q → 0 ≤ i < length q →
  elems q !! Z.to_nat i = data q !! Z.to_nat ((front q + i) `mod` Capacity q).
Proof.
  intros (Hc & Hf & Hl & _) Hi. unfold elems.
  rewrite lookup_take_lt by lia.
  rewrite lookup_rotate_r by (unfold Capacity in *; lia).
  unfold rotate_nat_add, Capacity. by rewrite !Z2Nat.id by lia.
Qed.

Lemma slot_lt q i : wf q → (Z.to_nat ((front q + i) `mod` Capacity q) < List.length (data q))%nat.
Proof.
  intros (Hc & _). pose proof (Z.mod_pos_bound (front q + i) (Capacity q)).
  unfold Capacity in *. lia.
Qed.

Lemma resolve_nonneg i c : 0 ≤ i → resolve i c = i.
Proof. intros H. unfold resolve. destruct (Z.ltb_spec i 0); [lia|done]. Qed.

Lemma resolve_neg i c : i < 0 → resolve i c = i + c.
Proof. intros H. unfold resolve. destruct (Z.ltb_spec i 0); [done|lia]. Qed.

(** [At] at a resolved index inside the window reads [elems]. *)
Lemma At_inrange q i :
  wf q → 0 ≤ i < length q →
  ∃ x, elems q !! Z.to_nat i = Some x ∧ At zero q i = Ok (x, true).
Proof.
  intros Hwf Hi.
  destruct (lookup_lt_is_Some_2 _ _ (slot_lt q i Hwf)) as [x Hx].
  exists x. rewrite elems_lookup by done. split; [done|].
  destruct Hwf as (Hc & Hf & Hl & _).
  unfold At. rewrite resolve_nonneg by lia.
  destruct (Z.ltb_spec i 0); [lia|].
  destruct (Z.leb_spec (length q) i); [lia|]. cbn.
  int32_simpl. rewrite rem_nonneg by lia. cbn.
  pose proof (Z.mod_pos_bound (front q + i) (Capacity q)).
  rewrite (index_ok _ _ x) by (done || lia). done.
Qed.

(** The window copied into a fresh slice with room for it. *)
Lemma copy_window_fresh q (k : nat) :
  wf q → 0 < length q → (Z.to_nat (length q) ≤ k)%nat →
  copy_window q (replicate k zero)
  = Ok (elems q ++ replicate (k - Z.to_nat (length q)) zero).
Proof.
  intros Hwf Hpos Hk.
  destruct (window_shape q Hwf Hpos) as [[Hlt Hlen]|[Hge Hlen]];
    destruct Hwf as (Hc & Hf & Hl & Hb & _ & _);
    unfold copy_window, elems, rotate;
    rewrite Nat.mod_small by (unfold Capacity in *; lia).
  - destruct (Z.ltb_spec (front q) (back q)); [|lia].
    rewrite view_slice_ok by (unfold Capacity in *; lia). cbn.
    rewrite copy_fresh0 by (rewrite length_take, length_drop; lia). cbn.
    rewrite Hlen, take_app_le by (rewrite length_drop; unfold Capacity in *; lia).
    rewrite length_take, length_drop.
    do 3 f_equal. unfold Capacity in *. lia.
  - destruct (Z.ltb_spec (front q) (back q)); [lia|].
    rewrite !view_slice_ok by (unfold Capacity in *; lia). cbn.
    rewrite copy_fresh0 by (rewrite length_take, length_drop; lia).
    rewrite copy_fresh by (rewrite !length_take, !length_drop; unfold Capacity in *; lia).
    cbn. rewrite (take_ge (drop _ _)) by (rewrite length_drop; unfold Capacity; lia).
    rewrite take_app_ge by (rewrite length_drop; unfold Capacity in *; lia).
    rewrite take_take, length_drop, length_take.
    rewrite Z.sub_0_r, <-app_assoc. f_equal.
    change (Z.to_nat 0) with 0%nat. rewrite drop_0.
    unfold Capacity in *.
    rewrite !Nat.min_l by lia.
    do 2 f_equal; f_equal; lia.
Qed.

Lemma elems_packed l m ic : elems (packed zero l m ic) = l.
Proof.
  unfold elems, packed, rotate. cbn.
  rewrite Nat2Z.id, Nat.Div0.mod_0_l, drop_0. cbn.
  by rewrite app_nil_r, take_app_length.
Qed.

Lemma Capacity_packed l m ic :
  Capacity (packed zero l m ic) = Z.of_nat (List.length l) + Z.of_nat m.
Proof. unfold Capacity, packed. cbn. rewrite length_app, length_replicate. lia. Qed.

Lemma wf_packed l m ic :
  0 < Z.of_nat (List.length l) + Z.of_nat m ≤ view_len → 8 ≤ ic →
  wf (packed zero l m ic).
Proof.
  intros Hc Hic. unfold wf. rewrite Capacity_packed. cbn.
  repeat split; try lia.
Qed.

Lemma internalResize_ok q newCap :
  wf q → 0 < length q ≤ newCap →
  internalResize zero q newCap
  = Ok (packed zero (elems q) (Z.to_nat newCap - Z.to_nat (length q)) (initCap q)).
Proof.
  intros Hwf Hn. unfold internalResize.
  rewrite make_ok by lia. cbn.
  rewrite copy_window_fresh by (done || lia). cbn.
  unfold packed. rewrite elems_length by done.
  by rewrite Z2Nat.id by lia.
Qed.

Lemma Init_ok q n :
  Init zero q n
  = Ok {| data := replicate (Z.to_nat (Z.max 8 n)) zero; front := 0; back := 0;
          length := 0; initCap := Z.max 8 n |}.
Proof.
  unfold Init.
  destruct (Z.ltb_spec 8 n).
  - rewrite Z.max_r by lia. by rewrite make_ok by lia.
  - rewrite Z.max_l by lia. by rewrite make_ok by lia.
Qed.



Lemma NewDeque_ok (args : list Z) :
  NewDeque zero args
  = Ok (packed zero [] (Z.to_nat (Z.max 8 (hd 0 args))) (Z.max 8 (hd 0 args))).
Proof.
  unfold NewDeque. rewrite Init_ok. unfold packed. cbn.
  destruct args as [|c args]; cbn; [done|].
  destruct (Z.ltb_spec 0 c).
  - done.
  - by rewrite !Z.max_l by lia.
Qed.

Lemma Copy_empty q :
  wf q → length q = 0 →
  Copy zero q = Ok (packed zero [] (Z.to_nat (Z.max 8 (Capacity q))) (Z.max 8 (Capacity q))).
Proof.
  intros Hwf H0. unfold Copy. rewrite NewDeque_ok. cbn. by rewrite H0.
Qed.

Lemma Copy_nonempty q :
  wf q → 0 < length q →
  Copy zero q = Ok (packed zero (elems q) 0 (Z.max 8 (Capacity q))).
Proof.
  intros Hwf Hpos. unfold Copy. rewrite NewDeque_ok. cbn.
  destruct (Z.eqb_spec (length q) 0); [lia|].
  rewrite make_ok by lia. cbn.
  rewrite copy_window_fresh by (done || lia). cbn.
  unfold packed. rewrite Nat.sub_diag, elems_length by done.
  by rewrite Z2Nat.id by lia.
Qed.

Lemma tight_back q : tight q → back q = (front q + length q) `mod` Capacity q.
Proof.
  intros [(Hc & Hf & Hl & Hb & Hm & _) Hlt].
  rewrite <-Hm. symmetry. apply Z.mod_small. lia.
Qed.

Lemma Capacity_pushed q v : Capacity (pushed q v) = Capacity q.
Proof. unfold Capacity, pushed. cbn. by rewrite length_insert. Qed.

Lemma tight_pushed q v : tight q → length q < Capacity q → tight (pushed q v).
Proof.
  intros Ht Hroom. pose proof (tight_back q Ht) as Hback.
  destruct Ht as [(Hc & Hf & Hl & Hb & Hm & Hic) Hlt].
  pose proof (Z.mod_pos_bound (back q + 1) (Capacity q)).
  unfold tight, wf. rewrite Capacity_pushed. cbn.
  repeat split; try lia.
  rewrite Z.mod_mod by lia. rewrite Hback.
  rewrite Zplus_mod_idemp_l. f_equal. lia.
Qed.

Lemma elems_pushed q v :
  tight q → length q < Capacity q → elems (pushed q v) = elems q ++ [v].
Proof.
  intros Ht Hroom. pose proof (tight_back q Ht) as Hback.
  destruct Ht as [(Hc & Hf & Hl & Hb & Hm & Hic) Hlt].
  unfold elems, pushed. cbn.
  assert (Z.to_nat (back q)
          = rotate_nat_add (Z.to_nat (front q)) (Z.to_nat (length q))
              (List.length (data q))) as ->.
  { rewrite Hback. unfold rotate_nat_add, Capacity. by rewrite !Z2Nat.id by lia. }
  rewrite rotate_insert_l by (unfold Capacity in *; lia).
  rewrite Z2Nat.inj_add by lia. change (Z.to_nat 1) with 1%nat.
  rewrite Nat.add_1_r.
  rewrite (take_S_r _ _ v).
  - by rewrite take_insert_ge by lia.
  - apply list_lookup_insert_eq. rewrite length_rotate. unfold Capacity in *. lia.
Qed.

Lemma PushBack_room q v :
  tight q → length q < Capacity q → PushBack zero q v = Ok (pushed q v).
Proof.
  intros [(Hc & Hf & Hl & Hb & Hm & Hic) Hlt] Hroom. unfold PushBack.
  int32_simpl.
  destruct (Z.ltb_spec (length q) (Capacity q)); [|lia].
  rewrite rem_nonneg by lia. cbn.
  by rewrite view_store_ok by (unfold Capacity in *; lia).
Qed.

Lemma PushBack_full q v :
  wf q → length q = Capacity q → 2 * Capacity q ≤ view_len →
  PushBack zero q v
  = Ok (pushed (packed zero (elems q) (Z.to_nat (Capacity q)) (initCap q)) v).
Proof.
  intros Hwf Hfull Hbound. pose proof Hwf as (Hc & Hf & Hl & Hb & Hm & Hic).
  unfold PushBack, growIfFull. int32_simpl.
  destruct (Z.ltb_spec (length q) (Capacity q)); [lia|].
  destruct (Z.eqb_spec (length q) (Capacity q)); [|lia].
  destruct (Z.eqb_spec (Capacity q * 2) 0); [lia|].
  rewrite internalResize_ok by (done || lia). cbn.
  replace (Z.to_nat (Capacity q * 2) - Z.to_nat (length q))%nat
    with (Z.to_nat (Capacity q)) by lia.
  unfold pushed. rewrite !Capacity_packed. cbn.
  rewrite !elems_length by done. rewrite !Z2Nat.id by lia.
  rewrite Hfull. int32_simpl.
  rewrite view_store_ok
    by (rewrite length_app, length_replicate, elems_length by done;
        unfold Capacity in *; lia).
  cbn. by rewrite rem_nonneg by lia.
Qed.

Lemma tight_packed l m ic :
  (0 < m)%nat → Z.of_nat (List.length l) + Z.of_nat m ≤ view_len → 8 ≤ ic →
  tight (packed zero l m ic).
Proof.
  intros Hm Hc Hic. split; [apply wf_packed; lia|].
  rewrite Capacity_packed. cbn. lia.
Qed.




Lemma eta q :
  {| data := data q; front := front q; back := back q; length := length q;
     initCap := initCap q |} = q.
Proof. by destruct q. Qed.

(** Exchanging a slot with itself leaves the storage as it is. *)
Lemma view_swap_same (mem : list T) p :
  0 ≤ p < Z.of_nat (List.length mem) → Z.of_nat (List.length mem) ≤ view_len →
  view_swap mem p p = Ok mem.
Proof.
  intros Hp Hm. unfold view_swap.
  destruct (lookup_lt_is_Some_2 mem (Z.to_nat p)) as [x Hx]; [lia|].
  rewrite (view_index_ok _ _ x) by (done || lia). cbn.
  rewrite view_store_ok by lia. cbn.
  rewrite list_insert_id by done.
  rewrite view_store_ok by lia. by rewrite list_insert_id.
Qed.

Lemma Swap_equal q i : Swap q i i = Ok (q, false).
Proof. unfold Swap. by rewrite Z.eqb_refl. Qed.

Lemma Swap_same_slot q i j :
  wf q → i ≠ j → resolve i (length q) = resolve j (length q) →
  0 ≤ resolve i (length q) < length q →
  Swap q i j = Ok (q, true).
Proof.
  intros (Hc & Hf & Hl & _) Hne Hres Hin. unfold Swap.
  destruct (Z.eqb_spec i j); [done|].
  rewrite <-Hres. set (r := resolve i (length q)) in *.
  destruct (Z.ltb_spec r 0); [lia|].
  destruct (Z.leb_spec (length q) r); [lia|]. cbn.
  int32_simpl. rewrite rem_nonneg by lia. cbn.
  pose proof (Z.mod_pos_bound (front q + r) (Capacity q)).
  rewrite view_swap_same by (unfold Capacity in *; lia). cbn.
  by rewrite eta.
Qed.

Lemma At_outside q i :
  ¬ (0 ≤ resolve i (length q) < length q) → At zero q i = Ok (zero, false).
Proof.
  intros Hout. unfold At.
  destruct (Z.ltb_spec (resolve i (length q)) 0); [done|].
  destruct (Z.leb_spec (length q) (resolve i (length q))); [done|lia].
Qed.

Lemma Set_outside q i v :
  ¬ (0 ≤ resolve i (length q) < length q) → Set_ q i v = Ok (q, false).
Proof.
  intros Hout. unfold Set_.
  destruct (Z.ltb_spec (resolve i (length q)) 0); [done|].
  destruct (Z.leb_spec (length q) (resolve i (length q))); [done|lia].
Qed.

Lemma Swap_outside_l q i j :
  ¬ (0 ≤ resolve i (length q) < length q) → Swap q i j = Ok (q, false).
Proof.
  intros Hout. unfold Swap. destruct (i =? j); [done|].
  destruct (Z.ltb_spec (resolve i (length q)) 0); [done|].
  destruct (Z.leb_spec (length q) (resolve i (length q))); [done|lia].
Qed.

Lemma Swap_outside_r q i j :
  ¬ (0 ≤ resolve j (length q) < length q) → Swap q i j = Ok (q, false).
Proof.
  intros Hout. unfold Swap. destruct (i =? j); [done|].
  destruct (Z.ltb_spec (resolve j (length q)) 0);
    [by rewrite !orb_true_r|].
  destruct (Z.leb_spec (length q) (resolve j (length q)));
    [by rewrite !orb_true_r|lia].
Qed.

Lemma pops_on_empty q :
  length q = 0 →
  PopFront zero q = Ok (q, (zero, false)) ∧ PopBack zero q = Ok (q, (zero, false)) ∧
  Front zero q = Ok (zero, false) ∧ Back zero q = Ok (zero, false).
Proof. intros H0. unfold PopFront, PopBack, Front, Back. by rewrite H0. Qed.

(** [At] depends on the index only through its resolution. *)
Lemma At_resolve q i j :
  resolve i (length q) = resolve j (length q) → At zero q i = At zero q j.
Proof. intros H. unfold At. by rewrite H. Qed.

(** Two deques with the same window answer [At] alike. *)
Lemma At_ext q c :
  wf q → wf c → length c = length q → elems c = elems q →
  ∀ i, At zero c i = At zero q i.
Proof.
  intros Hq Hc Hlen Hel i.
  destruct (decide (0 ≤ resolve i (length q) < length q)) as [Hin|Hout].
  - rewrite (At_resolve c i (resolve i (length q)))
      by (rewrite Hlen; symmetry; apply resolve_nonneg; lia).
    rewrite (At_resolve q i (resolve i (length q)))
      by (symmetry; apply resolve_nonneg; lia).
    destruct (At_inrange q _ Hq Hin) as (x & Hx & ->).
    destruct (At_inrange c (resolve i (length q)) Hc) as (y & Hy & ->); [lia|].
    rewrite Hel in Hy. congruence.
  - rewrite (At_outside q) by done. apply At_outside. by rewrite Hlen.
Qed.

(** [reverseCircular] takes its modulus from [cap(data)], the length of
    the array type behind the view, so on a wrapped window its first
    [right] index is past the slice's length. *)
Lemma Rotate_wrapped q n :
  wf q → Capacity q < front q + length q → front q + length q ≤ view_len →
  1 < length q → Z.rem n (length q) ≠ 0 →
  Rotate q n = Err IndexOutOfRange.
Proof.
  intros (Hc & Hf & Hl & _) Hwrap Hview Hlen Hn. unfold Rotate.
  destruct (Z.leb_spec (length q) 1); [lia|].
  pose proof (Z.rem_bound_abs n (length q)) as Habs.
  set (r := Z.rem n (length q)) in *.
  assert ((if r <? 0 then r + length q else r) ≠ 0) as Hn'.
  { destruct (Z.ltb_spec r 0); lia. }
  destruct (Z.eqb_spec (if r <? 0 then r + length q else r) 0); [done|].
  rewrite view_prefix_ok by (unfold Capacity in *; lia). cbn.
  unfold reverseCircular at 3.
  assert (1 ≤ Z.quot (length q) 2) as Hq.
  { rewrite Z.quot_div_nonneg by lia. apply Z.div_le_lower_bound; lia. }
  destruct (Z.to_nat (Z.quot (length q) 2)) as [|k] eqn:Hk; [lia|]. cbn.
  rewrite rem_nonneg by (unfold view_len in *; lia). cbn.
  rewrite rem_nonneg by (unfold view_len in *; lia). cbn.
  rewrite !Z.mod_small by lia.
  unfold slice_swap, index.
  destruct (Z.ltb_spec (front q + length q - 1 - 0) 0); [lia|].
  destruct (Z.leb_spec
              (Z.of_nat (List.length (take (Z.to_nat (Capacity q)) (data q))))
              (front q + length q - 1 - 0)) as [|Hlt]; [done|].
  rewrite length_take in Hlt. unfold Capacity in *. lia.
Qed.


(** On indices below [1 << 30] the modulus [reverseCircular] applies
    changes nothing, and its loop reverses the segment between them. *)
Lemma reverseCircular_loop_seg (mid : list T) :
  ∀ (pre post : list T) (start end_ i : Z),
    Z.of_nat (List.length pre) = start + i →
    Z.of_nat (List.length pre) + Z.of_nat (List.length mid) = end_ - i →
    end_ - i ≤ view_len →
    reverseCircular_loop view_len start end_
      (Z.to_nat (Z.quot (Z.of_nat (List.length mid)) 2)) i (pre ++ mid ++ post)
    = Ok (pre ++ list.reverse mid ++ post).
Proof.
  induction mid as [|x|x y l IH] using list_ends_ind;
    intros pre post start end_ i Hs He Hv.
  - done.
  - done.
  - rewrite reverse_cons, reverse_snoc.
    assert (List.length (x :: l ++ [y]) = S (S (List.length l))) as Hlen
      by (cbn; rewrite length_app; cbn; lia).
    rewrite Hlen in *.
    assert (Z.to_nat (Z.quot (Z.of_nat (S (S (List.length l)))) 2)
            = S (Z.to_nat (Z.quot (Z.of_nat (List.length l)) 2))) as ->.
    { rewrite !Z.quot_div_nonneg by lia.
      replace (Z.of_nat (S (S (List.length l))))
        with (Z.of_nat (List.length l) + 1 * 2) by lia.
      rewrite Z.div_add by lia.
      pose proof (Z.div_pos (Z.of_nat (List.length l)) 2). lia. }
    cbn [reverseCircular_loop].
    rewrite !rem_nonneg by (unfold view_len in *; lia). cbn.
    rewrite !Z.mod_small by lia.
    replace (start + i) with (Z.of_nat (List.length pre)) by lia.
    replace (end_ - 1 - i)
      with (Z.of_nat (List.length pre + S (List.length l))) by lia.
    rewrite <-(app_assoc l [y] post). change ([y] ++ post) with (y :: post).
    rewrite slice_swap_ends. cbn.
    replace (pre ++ y :: l ++ x :: post) with ((pre ++ [y]) ++ l ++ x :: post)
      by (by rewrite <-app_assoc).
    rewrite (IH (pre ++ [y]) (x :: post) start end_ (i + 1))
      by (rewrite ?length_app; cbn; lia).
    cbn. by rewrite <-!app_assoc.
Qed.

Lemma reverseCircular_seg (pre mid post : list T) :
  Z.of_nat (List.length pre) + Z.of_nat (List.length mid) ≤ view_len →
  reverseCircular (pre ++ mid ++ post) view_len (Z.of_nat (List.length pre))
    (Z.of_nat (List.length pre) + Z.of_nat (List.length mid))
    (Z.of_nat (List.length mid))
  = Ok (pre ++ list.reverse mid ++ post).
Proof. intros Hv. unfold reverseCircular. apply reverseCircular_loop_seg; lia. Qed.

Lemma reverseCircular_at (d pre mid post : list T) (start end_ count : Z) :
  d = pre ++ mid ++ post →
  start = Z.of_nat (List.length pre) →
  end_ = start + Z.of_nat (List.length mid) →
  count = Z.of_nat (List.length mid) →
  end_ ≤ view_len →
  reverseCircular d view_len start end_ count
  = Ok (pre ++ list.reverse mid ++ post).
Proof. intros -> -> -> -> Hv. by apply reverseCircular_seg. Qed.

(** An unwrapped window is a contiguous piece of the storage. *)
Lemma data_unwrapped q :
  wf q → unwrapped q →
  data q = take (Z.to_nat (front q)) (data q) ++ elems q
           ++ drop (Z.to_nat (front q + length q)) (data q).
Proof.
  intros (Hc & Hf & Hl & _) Hu. unfold unwrapped in Hu.
  unfold elems, rotate.
  rewrite Nat.mod_small by (unfold Capacity in *; lia).
  rewrite take_app_le by (rewrite length_drop; unfold Capacity in *; lia).
  rewrite <-(take_drop (Z.to_nat (front q)) (data q)) at 1. f_equal.
  rewrite <-(take_drop (Z.to_nat (length q)) (drop _ (data q))) at 1. f_equal.
  rewrite drop_drop. f_equal. lia.
Qed.

Lemma elems_segment (pre mid post : list T) fr bk ic :
  fr = Z.of_nat (List.length pre) →
  (0 < List.length mid + List.length post)%nat →
  elems {| data := pre ++ mid ++ post; front := fr; back := bk;
           length := Z.of_nat (List.length mid); initCap := ic |} = mid.
Proof.
  intros -> Hpos. unfold elems, rotate. cbn.
  rewrite !Nat2Z.id.
  rewrite Nat.mod_small by (rewrite !length_app; lia).
  rewrite drop_app_length, <-app_assoc. by rewrite take_app_length.
Qed.

(** On an unwrapped window [Rotate(n)] moves the last [n mod count]
    elements to the front: a left rotation by [(-n) mod count]. *)
Lemma Rotate_unwrapped_elems q n :
  wf q → unwrapped q →
  ∃ q', Rotate q n = Ok q' ∧
        elems q' = rotate (Z.to_nat ((- n) `mod` length q)) (elems q) ∧
        length q' = length q ∧ front q' = front q ∧ back q' = back q ∧
        Capacity q' = Capacity q ∧ initCap q' = initCap q.
Proof.
  intros Hwf Hu. pose proof Hwf as (Hc & Hf & Hl & Hb & Hm & Hic).
  pose proof (data_unwrapped q Hwf Hu) as Hdata. unfold unwrapped in Hu.
  unfold Rotate.
  destruct (Z.leb_spec (length q) 1) as [Hle|Hgt].
  { exists q. split_and!; try done. symmetry.
    destruct (elems q) as [|x [|y l]] eqn:He; [apply rotate_nil| |].
    - apply rotate_multiple. cbn [List.length]. apply Nat.mod_1_r.
    - pose proof (elems_length q Hwf) as Hlen. rewrite He in Hlen.
      cbn in Hlen. lia. }
  rewrite rem_normalized by lia.
  pose proof (Z.mod_pos_bound n (length q)) as Hr.
  destruct (Z.eqb_spec (n `mod` length q) 0) as [H0|Hne].
  { exists q. split_and!; try done.
    rewrite Z.mod_opp_l_z by lia. symmetry. apply rotate_multiple.
    apply Nat.Div0.mod_0_l. }
  rewrite view_prefix_ok by (unfold Capacity in *; lia). cbn.
  rewrite (take_ge (data q)) by (unfold Capacity; lia).
  set (r := n `mod` length q) in *.
  set (pre := take (Z.to_nat (front q)) (data q)) in *.
  set (post := drop (Z.to_nat (front q + length q)) (data q)) in *.
  set (A := take (Z.to_nat (length q - r)) (elems q)).
  set (B := drop (Z.to_nat (length q - r)) (elems q)).
  assert (elems q = A ++ B) as HW by (symmetry; apply take_drop).
  assert (List.length pre = Z.to_nat (front q)) as Hpre.
  { unfold pre. rewrite length_take. unfold Capacity in *. lia. }
  assert (List.length A = Z.to_nat (length q - r)) as HA.
  { unfold A. rewrite length_take, elems_length by done. lia. }
  assert (List.length B = Z.to_nat r) as HB.
  { unfold B. rewrite length_drop, elems_length by done. lia. }
  (* reverse the whole window, then its first r elements, then the rest *)
  rewrite (reverseCircular_at (data q) pre (A ++ B) post)
    by (rewrite ?length_app; (congruence || lia)).
  cbn.
  rewrite (reverseCircular_at _ pre (list.reverse B) (list.reverse A ++ post))
    by (rewrite ?length_reverse, ?reverse_app, <-?app_assoc; (done || lia)).
  cbn. rewrite reverse_involutive.
  rewrite (reverseCircular_at _ (pre ++ B) (list.reverse A) post)
    by (rewrite ?length_reverse, ?length_app, <-?app_assoc; (done || lia)).
  cbn. rewrite reverse_involutive.
  assert (∀ X, write_back (data q) (Capacity q) X = X) as Hwb.
  { intros X. unfold write_back, Capacity. by rewrite Nat2Z.id, drop_all, app_nil_r. }
  rewrite Hwb.
  eexists. split; [done|].
  assert (List.length ((pre ++ B) ++ A ++ post) = List.length (data q)) as Hsame.
  { rewrite Hdata, HW, !length_app. lia. }
  unfold Capacity at 1. cbn. rewrite Hsame.
  split_and!; try done.
  replace ((pre ++ B) ++ A ++ post) with (pre ++ (B ++ A) ++ post)
    by (by rewrite <-!app_assoc).
  replace (length q) with (Z.of_nat (List.length (B ++ A))) at 1
    by (rewrite length_app; lia).
  rewrite elems_segment by (rewrite ?length_app; lia).
  rewrite Z.mod_opp_l_nz by lia. fold r.
  rewrite HW, <-HA. symmetry. apply rotate_split.
Qed.

(** The copy of a non-empty deque has room for exactly its elements,
    under a floor taken from the source's capacity. *)
Lemma Copy_capacity_is_length q :
  wf q → 0 < length q →
  ∃ c, Copy zero q = Ok c ∧ Capacity c = length q ∧
       initCap c = Z.max 8 (Capacity q) ∧ back c = Capacity c.
Proof.
  intros Hwf Hpos. rewrite Copy_nonempty by done.
  eexists. split; [done|]. rewrite Capacity_packed. cbn.
  rewrite elems_length by done. split_and!; (done || lia).
Qed.

(** [Rotate(n)] then [Rotate(-n)] restores the order of an unwrapped
    window. *)
Lemma Rotate_there_and_back q n :
  wf q → unwrapped q →
  ∃ q1 q2, Rotate q n = Ok q1 ∧ Rotate q1 (- n) = Ok q2 ∧ elems q2 = elems q.
Proof.
  intros Hwf Hu.
  destruct (Rotate_unwrapped_elems q n Hwf Hu)
    as (q1 & Hq1 & He1 & Hl1 & Hf1 & Hb1 & Hc1 & Hi1).
  assert (wf q1) as Hwf1 by (unfold wf; rewrite Hl1, Hf1, Hb1, Hc1, Hi1; apply Hwf).
  assert (unwrapped q1) as Hu1 by (unfold unwrapped; by rewrite Hl1, Hf1, Hc1).
  destruct (Rotate_unwrapped_elems q1 (- n) Hwf1 Hu1) as (q2 & Hq2 & He2 & _).
  exists q1, q2. split_and!; try done.
  rewrite He2, He1, Hl1, Z.opp_involutive, rotate_rotate.
  destruct (decide (length q = 0)) as [H0|Hne].
  - pose proof (elems_length q Hwf) as Hlen. rewrite H0 in Hlen.
    destruct (elems q); [apply rotate_nil|done].
  - apply rotate_multiple. rewrite elems_length by done.
    apply residues_cancel. destruct Hwf as (_ & _ & ? & _). lia.
Qed.

(** [Rotate(count)] changes nothing, in any state. *)
Lemma Rotate_count q : Rotate q (length q) = Ok q.
Proof.
  unfold Rotate. destruct (Z.leb_spec (length q) 1); [done|].
  rewrite Z.rem_same by lia. done.
Qed.

(** [Rotate(n)] and [Rotate] of the residue of [n] (Go's [n % count] or
    the mathematical one) are the same computation, in any state. *)
Lemma Rotate_residue q n :
  Rotate q (n `mod` length q) = Rotate q n ∧
  Rotate q (Z.rem n (length q)) = Rotate q n.
Proof.
  unfold Rotate. destruct (Z.leb_spec (length q) 1); [done|].
  rewrite !rem_normalized by lia.
  by rewrite Z.mod_mod, rem_residue by lia.
Qed.


End WithElem.
End DequeFacts.

(** ** Facts about the stack *)

Module StackFacts.
Import Stack.
Section WithElem.
Context {T : Type} (zero : T).
Implicit Types (s : Stack (T:=T)) (i n : Z) (v x : T).

Lemma stack_eta s : {| data := data s; top := top s; initCap := initCap s |} = s.
Proof. by destruct s. Qed.

Lemma stack_elems_length s : wf s → List.length (elems s) = Z.to_nat (top s).
Proof.
  intros (Ht & _). unfold elems. rewrite length_take. unfold Capacity in *. lia.
Qed.

Lemma stack_resolve_nonneg i c : 0 ≤ i → resolve i c = i.
Proof. intros H. unfold resolve. destruct (Z.ltb_spec i 0); [lia|done]. Qed.

Lemma stack_resolve_neg i c : i < 0 → resolve i c = i + c.
Proof. intros H. unfold resolve. destruct (Z.ltb_spec i 0); [done|lia]. Qed.

(** [At] counts from the top: index [i] is the element [i] places below
    the most recent push. *)
Lemma stack_At_inrange s i :
  wf s → 0 ≤ i < top s →
  ∃ x, elems s !! Z.to_nat (top s - 1 - i) = Some x ∧ At zero s i = Ok (x, true).
Proof.
  intros (Ht & Hc & _) Hi.
  destruct (lookup_lt_is_Some_2 (data s) (Z.to_nat (top s - 1 - i))) as [x Hx].
  { unfold Capacity in *. lia. }
  exists x. unfold elems. rewrite lookup_take_lt by lia. split; [done|].
  unfold At. rewrite stack_resolve_nonneg by lia.
  destruct (Z.ltb_spec i 0); [lia|].
  destruct (Z.leb_spec (top s) i); [lia|]. cbn.
  rewrite view_prefix_ok by (unfold Capacity in *; lia). cbn.
  unfold Capacity. rewrite Nat2Z.id, firstn_all.
  by rewrite (index_ok _ _ x) by (done || lia).
Qed.

Lemma stack_At_outside s i :
  ¬ (0 ≤ resolve i (top s) < top s) → At zero s i = Ok (zero, false).
Proof.
  intros Hout. unfold At.
  destruct (Z.ltb_spec (resolve i (top s)) 0); [done|].
  destruct (Z.leb_spec (top s) (resolve i (top s))); [done|lia].
Qed.

Lemma stack_Set_outside s i v :
  ¬ (0 ≤ resolve i (top s) < top s) → Set_ s i v = Ok (s, false).
Proof.
  intros Hout. unfold Set_.
  destruct (Z.ltb_spec (resolve i (top s)) 0); [done|].
  destruct (Z.leb_spec (top s) (resolve i (top s))); [done|lia].
Qed.

Lemma stack_At_resolve s i j :
  resolve i (top s) = resolve j (top s) → At zero s i = At zero s j.
Proof. intros H. unfold At. by rewrite H. Qed.

Lemma pop_on_empty s :
  top s = 0 → Pop zero s = Ok (s, (zero, false)) ∧ Top zero s = Ok (zero, false).
Proof. intros H0. unfold Pop, Top. by rewrite H0. Qed.

(** Reallocation keeps the live prefix and pads it with zero values. *)
Lemma stack_internalResize_ok s newCap :
  wf s → top s ≤ newCap →
  internalResize zero s newCap
  = Ok {| data := elems s ++ replicate (Z.to_nat newCap - Z.to_nat (top s)) zero;
          top := top s; initCap := initCap s |}.
Proof.
  intros (Ht & Hc & _) Hn. unfold internalResize.
  rewrite make_ok by lia. cbn.
  rewrite view_slice_ok by (unfold Capacity in *; lia). cbn.
  change (Z.to_nat 0) with 0%nat. rewrite drop_0, Z.sub_0_r.
  rewrite copy_fresh0 by (rewrite length_take; lia). cbn.
  unfold elems. rewrite length_take.
  by rewrite Nat.min_l by (unfold Capacity in *; lia).
Qed.


Lemma TrimToSize_nonempty s :
  wf s → 0 < top s →
  ∃ s', TrimToSize zero s = Ok s' ∧ Capacity s' = top s ∧ top s' = top s ∧
        elems s' = elems s ∧ initCap s' = initCap s.
Proof.
  intros Hwf Hpos. pose proof Hwf as (Ht & Hc & Hic).
  unfold TrimToSize. int32_simpl.
  destruct (Z.eqb_spec (top s) 0); [lia|].
  destruct (Z.ltb_spec (top s) (Capacity s)).
  - rewrite stack_internalResize_ok by (done || lia).
    eexists. split; [done|]. rewrite Nat.sub_diag. split_and!; [|done| |done].
    + unfold Capacity. cbn [data].
      rewrite length_app, length_replicate, stack_elems_length by done. lia.
    + unfold elems at 1. cbn [data top replicate]. rewrite app_nil_r.
      apply take_ge. rewrite stack_elems_length by done. lia.
  - exists s. split_and!; (done || lia).
Qed.

Lemma stack_Copy_ok s :
  wf s →
  Copy zero s = Ok {| data := elems s; top := top s; initCap := initCap s |}.
Proof.
  intros (Ht & Hc & _). unfold Copy.
  rewrite view_prefix_ok by (unfold Capacity in *; lia). cbn.
  rewrite make_ok by lia. cbn.
  rewrite view_slice_ok by (unfold Capacity in *; lia). cbn.
  change (Z.to_nat 0) with 0%nat. rewrite drop_0, Z.sub_0_r.
  rewrite copy_fresh0 by (rewrite length_take; lia). cbn.
  int32_simpl.
  rewrite length_take, Nat.min_l by (unfold Capacity in *; lia).
  by rewrite Nat.sub_diag, app_nil_r.
Qed.

Lemma stack_Init_ok s n :
  Init zero s n
  = Ok {| data := replicate (Z.to_nat (Z.max 8 n)) zero; top := 0;
          initCap := Z.max 8 n |}.
Proof.
  unfold Init.
  destruct (Z.ltb_spec 8 n).
  - rewrite Z.max_r by lia. by rewrite make_ok by lia.
  - rewrite Z.max_l by lia. by rewrite make_ok by lia.
Qed.

Lemma NewStack_ok (args : list Z) :
  NewStack zero args
  = Ok {| data := replicate (Z.to_nat (Z.max 8 (hd 0 args))) zero; top := 0;
          initCap := Z.max 8 (hd 0 args) |}.
Proof.
  unfold NewStack. rewrite stack_Init_ok. cbn.
  destruct args as [|c args]; cbn; [done|].
  destruct (Z.ltb_spec 0 c).
  - done.
  - by rewrite !Z.max_l by lia.
Qed.

Lemma stack_Capacity_pushed s v : Capacity (pushed s v) = Capacity s.
Proof. unfold Capacity, pushed. cbn. by rewrite length_insert. Qed.

Lemma stack_wf_pushed s v : wf s → top s < Capacity s → wf (pushed s v).
Proof.
  intros (Ht & Hc & Hic) Hroom. unfold wf.
  rewrite stack_Capacity_pushed. cbn. lia.
Qed.

Lemma stack_elems_pushed s v :
  wf s → top s < Capacity s → elems (pushed s v) = elems s ++ [v].
Proof.
  intros (Ht & Hc & Hic) Hroom. unfold elems, pushed. cbn.
  rewrite Z2Nat.inj_add by lia. change (Z.to_nat 1) with 1%nat.
  rewrite Nat.add_1_r. rewrite (take_S_r _ _ v).
  - by rewrite take_insert_ge by lia.
  - apply list_lookup_insert_eq. unfold Capacity in *. lia.
Qed.

Lemma Push_room s v :
  wf s → top s < Capacity s → Push zero s v = Ok (pushed s v).
Proof.
  intros (Ht & Hc & Hic) Hroom. unfold Push.
  destruct (Z.ltb_spec (top s) (Capacity s)); [|lia].
  rewrite view_store_ok by (unfold Capacity in *; lia). cbn.
  by int32_simpl.
Qed.

(** A push onto full storage doubles it. *)
Lemma Push_grow s v :
  wf s → top s = Capacity s → 0 < Capacity s → 2 * Capacity s ≤ view_len →
  ∃ s', Push zero s v = Ok s' ∧ wf s' ∧ elems s' = elems s ++ [v] ∧
        top s' = top s + 1 ∧ Capacity s' = 2 * Capacity s ∧
        initCap s' = initCap s.
Proof.
  intros Hwf Hfull Hpos Hbound. pose proof Hwf as (Ht & Hc & Hic).
  set (s1 := {| data := elems s ++ replicate (Z.to_nat (Capacity s)) zero;
                top := top s; initCap := initCap s |}).
  assert (Capacity s1 = 2 * Capacity s) as Hc1.
  { unfold Capacity at 1, s1. cbn.
    rewrite length_app, length_replicate, stack_elems_length by done. lia. }
  assert (wf s1) as Hwf1 by (unfold wf; rewrite Hc1; cbn; lia).
  assert (elems s1 = elems s) as He1.
  { unfold elems at 1, s1. cbn. rewrite take_app_le.
    - apply take_ge. rewrite stack_elems_length by done. lia.
    - rewrite stack_elems_length by done. lia. }
  exists (pushed s1 v).
  rewrite stack_Capacity_pushed, Hc1.
  rewrite stack_elems_pushed, He1 by (done || rewrite Hc1; cbn; lia).
  split_and!; try done.
  - unfold Push.
    destruct (Z.ltb_spec (top s) (Capacity s)); [lia|].
    destruct (Z.eqb_spec (top s) (Capacity s)); [|lia].
    destruct (Z.eqb_spec (Capacity s * 2) 0); [lia|].
    rewrite stack_internalResize_ok by (done || lia). cbn.
    replace (Z.to_nat (Capacity s * 2) - Z.to_nat (top s))%nat
      with (Z.to_nat (Capacity s)) by lia.
    rewrite view_store_ok
      by (rewrite length_app, length_replicate, stack_elems_length by done;
          lia).
    cbn. by int32_simpl.
  - apply stack_wf_pushed; [done|]. rewrite Hc1. cbn. lia.
Qed.



(** [Resize] below the current length truncates to the oldest
    elements and leaves no spare room. *)
Lemma Resize_truncate s c :
  wf s → 0 ≤ c < top s →
  Resize zero s c
  = Ok {| data := take (Z.to_nat c) (elems s); top := c; initCap := initCap s |}.
Proof.
  intros Hwf Hc. pose proof Hwf as (Ht & Hcap & Hic). unfold Resize.
  destruct (Z.ltb_spec c (top s)); [|lia].
  rewrite (int32_small c) by (unfold view_len in *; lia).
  rewrite stack_internalResize_ok by (unfold wf, Capacity in *; cbn; lia).
  cbn. rewrite Nat.sub_diag. cbn. rewrite app_nil_r.
  unfold elems. cbn. by rewrite take_take, Nat.min_l by lia.
Qed.

(** Two stacks with the same live elements answer [At] alike. *)
Lemma stack_At_ext s c :
  wf s → wf c → top c = top s → elems c = elems s →
  ∀ i, At zero c i = At zero s i.
Proof.
  intros Hs Hc Hlen Hel i.
  destruct (decide (0 ≤ resolve i (top s) < top s)) as [Hin|Hout].
  - rewrite (stack_At_resolve c i (resolve i (top s)))
      by (rewrite Hlen; symmetry; apply stack_resolve_nonneg; lia).
    rewrite (stack_At_resolve s i (resolve i (top s)))
      by (symmetry; apply stack_resolve_nonneg; lia).
    destruct (stack_At_inrange s _ Hs Hin) as (x & Hx & ->).
    destruct (stack_At_inrange c (resolve i (top s)) Hc) as (y & Hy & ->); [lia|].
    rewrite Hel, Hlen in Hy. congruence.
  - rewrite (stack_At_outside s) by done. apply stack_At_outside. by rewrite Hlen.
Qed.


Lemma reverse_loop_unfold fuel i j (d : list T) :
  reverse_loop fuel i j d
  = if i <? j then
      match fuel with
      | O => Err Spin
      | S fuel' => d' ← slice_swap d i j; reverse_loop fuel' (i + 1) (j - 1) d'
      end
    else Ok d.
Proof. by destruct fuel. Qed.

(** The loop of the closure reverses the segment between its two
    indices, given fuel for half the segment. *)
Lemma reverse_loop_seg (mid : list T) :
  ∀ (pre post : list T) (fuel : nat),
    (List.length mid ≤ 2 * fuel + 1)%nat →
    reverse_loop fuel (Z.of_nat (List.length pre))
      (Z.of_nat (List.length pre) + Z.of_nat (List.length mid) - 1)
      (pre ++ mid ++ post)
    = Ok (pre ++ list.reverse mid ++ post).
Proof.
  induction mid as [|x|x y l IH] using list_ends_ind; intros pre post fuel Hf.
  - rewrite reverse_loop_unfold. cbn [List.length].
    destruct (Z.ltb_spec (Z.of_nat (List.length pre))
                (Z.of_nat (List.length pre) + Z.of_nat 0 - 1)); [lia|done].
  - rewrite reverse_loop_unfold. cbn [List.length].
    destruct (Z.ltb_spec (Z.of_nat (List.length pre))
                (Z.of_nat (List.length pre) + Z.of_nat 1 - 1)); [lia|done].
  - rewrite reverse_loop_unfold, reverse_cons, reverse_snoc.
    assert (List.length (x :: l ++ [y]) = S (S (List.length l))) as Hlen
      by (cbn; rewrite length_app; cbn; lia).
    rewrite Hlen in *.
    destruct (Z.ltb_spec (Z.of_nat (List.length pre))
                (Z.of_nat (List.length pre) + Z.of_nat (S (S (List.length l))) - 1));
      [|lia].
    destruct fuel as [|fuel]; [lia|].
    replace (Z.of_nat (List.length pre) + Z.of_nat (S (S (List.length l))) - 1)
      with (Z.of_nat (List.length pre + S (List.length l))) by lia.
    replace (pre ++ (x :: l ++ [y]) ++ post) with (pre ++ x :: l ++ y :: post)
      by (cbn; by rewrite <-app_assoc).
    rewrite slice_swap_ends. cbn.
    replace (pre ++ y :: l ++ x :: post) with ((pre ++ [y]) ++ l ++ x :: post)
      by (by rewrite <-app_assoc).
    replace (Z.of_nat (List.length pre) + 1)
      with (Z.of_nat (List.length (pre ++ [y])))
      by (rewrite length_app; cbn; lia).
    replace (Z.of_nat (List.length pre + S (List.length l)) - 1)
      with (Z.of_nat (List.length (pre ++ [y])) + Z.of_nat (List.length l) - 1)
      by (rewrite length_app; cbn; lia).
    rewrite IH by lia. cbn.
    by rewrite <-!app_assoc.
Qed.

Lemma reverse_seg (pre mid post : list T) :
  reverse (pre ++ mid ++ post) (Z.of_nat (List.length pre))
    (Z.of_nat (List.length pre) + Z.of_nat (List.length mid))
  = Ok (pre ++ list.reverse mid ++ post).
Proof. unfold reverse. apply reverse_loop_seg. lia. Qed.

Lemma rotate_short (k : nat) (l : list T) :
  (List.length l ≤ 1)%nat → rotate k l = l.
Proof.
  intros Hl. destruct l as [|x [|y l]]; [apply rotate_nil| |cbn in Hl; lia].
  apply rotate_multiple. cbn [List.length]. apply Nat.mod_1_r.
Qed.

(** [Rotate(n)] moves the last [n mod count] elements of the
    bottom-to-top sequence to its front: a left rotation by
    [(-n) mod count]. *)
Lemma stack_Rotate_elems s n :
  wf s →
  ∃ s', Rotate s n = Ok s' ∧
        elems s' = rotate (Z.to_nat ((- n) `mod` top s)) (elems s) ∧
        top s' = top s ∧ Capacity s' = Capacity s ∧ initCap s' = initCap s.
Proof.
  intros Hwf. pose proof Hwf as (Ht & Hc & Hic). unfold Rotate.
  destruct (Z.leb_spec (top s) 1) as [Hle|Hgt].
  { exists s. split_and!; try done. symmetry. apply rotate_short.
    rewrite stack_elems_length by done. lia. }
  rewrite rem_normalized by lia.
  pose proof (Z.mod_pos_bound n (top s)) as Hr.
  destruct (Z.eqb_spec (n `mod` top s) 0) as [H0|Hne].
  { exists s. split_and!; try done.
    rewrite Z.mod_opp_l_z by lia. symmetry. apply rotate_multiple.
    apply Nat.Div0.mod_0_l. }
  rewrite view_prefix_ok by (unfold Capacity in *; lia). cbn.
  fold (elems s).
  set (r := n `mod` top s) in *.
  set (A := take (Z.to_nat (top s - r)) (elems s)).
  set (B := drop (Z.to_nat (top s - r)) (elems s)).
  assert (elems s = A ++ B) as HW by (symmetry; apply take_drop).
  assert (List.length A = Z.to_nat (top s - r)) as HA.
  { unfold A. rewrite length_take, stack_elems_length by done. lia. }
  assert (List.length B = Z.to_nat r) as HB.
  { unfold B. rewrite length_drop, stack_elems_length by done. lia. }
  rewrite HW.
  (* reverse the whole window *)
  replace (reverse (A ++ B) 0 (top s))
    with (reverse ([] ++ (A ++ B) ++ [])
            (Z.of_nat (List.length (@nil T)))
            (Z.of_nat (List.length (@nil T)) + Z.of_nat (List.length (A ++ B))))
    by (rewrite app_nil_r, length_app; cbn; f_equal; lia).
  rewrite reverse_seg. cbn. rewrite app_nil_r, reverse_app.
  (* reverse its first r elements *)
  replace (reverse (list.reverse B ++ list.reverse A) 0 r)
    with (reverse ([] ++ list.reverse B ++ list.reverse A)
            (Z.of_nat (List.length (@nil T)))
            (Z.of_nat (List.length (@nil T))
             + Z.of_nat (List.length (list.reverse B))))
    by (rewrite length_reverse; cbn; f_equal; lia).
  rewrite reverse_seg. cbn. rewrite reverse_involutive.
  (* reverse the rest *)
  replace (reverse (B ++ list.reverse A) r (top s))
    with (reverse (B ++ list.reverse A ++ [])
            (Z.of_nat (List.length B))
            (Z.of_nat (List.length B)
             + Z.of_nat (List.length (list.reverse A))))
    by (rewrite app_nil_r, length_reverse; f_equal; lia).
  rewrite reverse_seg. cbn. rewrite reverse_involutive, app_nil_r.
  eexists. split; [done|]. unfold elems at 1, Capacity at 1, write_back. cbn.
  split_and!; try done.
  - rewrite take_app_length' by (rewrite length_app; lia).
    rewrite Z.mod_opp_l_nz by lia. fold r.
    rewrite <-HA. symmetry. apply rotate_split.
  - rewrite !length_app, length_drop. unfold Capacity in *. lia.
Qed.

(** [Rotate(n)] then [Rotate(-n)] restores the order. *)
Lemma stack_Rotate_there_and_back s n :
  wf s →
  ∃ s1 s2, Rotate s n = Ok s1 ∧ Rotate s1 (- n) = Ok s2 ∧ elems s2 = elems s.
Proof.
  intros Hwf.
  destruct (stack_Rotate_elems s n Hwf) as (s1 & Hs1 & He1 & Ht1 & Hc1 & Hi1).
  assert (wf s1) as Hwf1 by (unfold wf; rewrite Ht1, Hc1, Hi1; apply Hwf).
  destruct (stack_Rotate_elems s1 (- n) Hwf1) as (s2 & Hs2 & He2 & _).
  exists s1, s2. split_and!; try done.
  rewrite He2, He1, Ht1, Z.opp_involutive, rotate_rotate.
  destruct (decide (top s = 0)) as [H0|Hne].
  - pose proof (stack_elems_length s Hwf) as Hlen. rewrite H0 in Hlen.
    destruct (elems s); [apply rotate_nil|done].
  - apply rotate_multiple. rewrite stack_elems_length by done.
    apply residues_cancel. destruct Hwf as (? & _). lia.
Qed.

(** [Rotate(count)] changes nothing, in any state. *)
Lemma stack_Rotate_count s : Rotate s (top s) = Ok s.
Proof.
  unfold Rotate. destruct (Z.leb_spec (top s) 1); [done|].
  rewrite Z.rem_same by lia. done.
Qed.

(** [Rotate(n)] and [Rotate] of the residue of [n] are the same
    computation, in any state. *)
Lemma stack_Rotate_residue s n :
  Rotate s (n `mod` top s) = Rotate s n ∧
  Rotate s (Z.rem n (top s)) = Rotate s n.
Proof.
  unfold Rotate. destruct (Z.leb_spec (top s) 1); [done|].
  rewrite !rem_normalized by lia.
  by rewrite Z.mod_mod, rem_residue by lia.
Qed.


(** A stack created with more slots than the array type has takes a
    push, since the store only indexes the view; [At] slices the view
    to the capacity and fails there. *)
Lemma At_beyond_view (c : Z) v i :
  view_len < c → 0 ≤ resolve i 1 < 1 →
  (s ← NewStack zero [c]; s ← Push zero s v; At zero s i) = Err SliceBounds.
Proof.
  intros Hc Hi. rewrite NewStack_ok. cbn [hd].
  assert (0 < c) as Hpos by (unfold view_len in Hc; lia).
  assert (Z.max 8 c = c) as -> by (unfold view_len in Hc; lia).
  set (s0 := {| data := replicate (Z.to_nat c) zero; top := 0; initCap := c |}).
  assert (Capacity s0 = c) as Hc0
    by (unfold Capacity, s0; cbn; rewrite length_replicate; lia).
  cbn [mbind result_bind].
  assert (Push zero s0 v
          = Ok {| data := <[0%nat := v]> (data s0); top := 1; initCap := c |})
    as ->.
  { unfold Push. rewrite Hc0. change (top s0) with 0.
    destruct (Z.ltb_spec 0 c); [|unfold view_len in *; lia].
    unfold view_store. cbn [orb Z.ltb Z.compare].
    fold (Capacity s0). rewrite Hc0.
    destruct (Z.leb_spec view_len 0); [unfold view_len in *; lia|].
    destruct (Z.leb_spec c 0); [lia|]. cbn. by int32_simpl. }
  cbn [mbind result_bind]. unfold At. cbn [top].
  destruct (Z.ltb_spec (resolve i 1) 0); [lia|].
  destruct (Z.leb_spec 1 (resolve i 1)); [lia|]. cbn [orb].
  rewrite view_prefix_beyond; [done|].
  unfold Capacity. cbn [data]. rewrite length_insert. fold (Capacity s0). lia.
Qed.

End WithElem.
End StackFacts.

(** ** The claims *)

Import Samples.

(** Closes well-formedness goals of concrete states. *)
Ltac wf_concrete :=
  vm_compute; repeat split; first [reflexivity | discriminate].




(** C2, as amended.  On a deque and a stack in a consistent state,
    whose capacity in particular does not exceed the [1 << 30] elements
    of the array type behind the unsafe view, [Copy] returns a new
    container of the same length whose elements, read through [At] at
    every index, equal the source's, stored densely from offset 0
    (deque: [front = 0] and [back = count]).  The stack copy's storage
    holds exactly the live elements, so its capacity is the count; an
    empty deque's copy has at least the source's capacity.  Nothing is
    said of the capacity of a non-empty deque's copy. *)
Theorem C2_copy_dense {T : Type} (zero : T)
    (q : Deque.Deque (T:=T)) (s : Stack.Stack (T:=T)) :
  Deque.wf q → Stack.wf s →
  (∃ c, Deque.Copy zero q = Ok c ∧
        Deque.length c = Deque.length q ∧
        Deque.elems c = Deque.elems q ∧
        (∀ i, Deque.At zero c i = Deque.At zero q i) ∧
        Deque.front c = 0 ∧ Deque.back c = Deque.length q ∧
        take (Z.to_nat (Deque.length q)) (Deque.data c) = Deque.elems q ∧
        (Deque.length q = 0 → Deque.Capacity q ≤ Deque.Capacity c)) ∧
  (∃ c, Stack.Copy zero s = Ok c ∧
        Stack.top c = Stack.top s ∧
        Stack.elems c = Stack.elems s ∧
        (∀ i, Stack.At zero c i = Stack.At zero s i) ∧
        Stack.data c = Stack.elems s ∧
        Stack.Capacity c = Stack.top s).
Proof.
  intros Hq Hs. split.
  - pose proof Hq as (Hc & _ & Hl & _ & _ & Hic).
    assert (∀ l m ic, Deque.wf (Deque.packed zero l m ic) →
              Z.of_nat (List.length l) = Deque.length q → l = Deque.elems q →
              Deque.Copy zero q = Ok (Deque.packed zero l m ic) →
              (Deque.length q = 0 →
               Deque.Capacity q ≤ Deque.Capacity (Deque.packed zero l m ic)) →
              ∃ c, Deque.Copy zero q = Ok c ∧
                   Deque.length c = Deque.length q ∧
                   Deque.elems c = Deque.elems q ∧
                   (∀ i, Deque.At zero c i = Deque.At zero q i) ∧
                   Deque.front c = 0 ∧ Deque.back c = Deque.length q ∧
                   take (Z.to_nat (Deque.length q)) (Deque.data c) = Deque.elems q ∧
                   (Deque.length q = 0 → Deque.Capacity q ≤ Deque.Capacity c))
      as Hpacked.
    { intros l m ic Hwf Hlen Hl' Hcopy Hcap.
      exists (Deque.packed zero l m ic).
      assert (Deque.elems (Deque.packed zero l m ic) = Deque.elems q) as He
        by (by rewrite DequeFacts.elems_packed).
      split_and!; try done.
      - apply DequeFacts.At_ext; done.
      - cbn. rewrite <-Hlen, Nat2Z.id, take_app_length. done. }
    destruct (decide (Deque.length q = 0)) as [H0|Hne].
    + assert (Deque.elems q = []) as He.
      { unfold Deque.elems. rewrite H0. apply take_0. }
      apply (Hpacked [] (Z.to_nat (Z.max 8 (Deque.Capacity q)))
               (Z.max 8 (Deque.Capacity q))).
      * apply DequeFacts.wf_packed; [cbn; unfold view_len in *; lia|lia].
      * cbn. lia.
      * by rewrite He.
      * by apply DequeFacts.Copy_empty.
      * intros _. rewrite DequeFacts.Capacity_packed. cbn. lia.
    + apply (Hpacked (Deque.elems q) 0%nat (Z.max 8 (Deque.Capacity q))).
      * apply DequeFacts.wf_packed; [|lia].
        rewrite DequeFacts.elems_length by done. lia.
      * rewrite DequeFacts.elems_length by done. lia.
      * done.
      * apply DequeFacts.Copy_nonempty; [done|lia].
      * intros; lia.
  - pose proof Hs as (Ht & Hc & Hic).
    set (c := {| Stack.data := Stack.elems s; Stack.top := Stack.top s;
                 Stack.initCap := Stack.initCap s |}).
    assert (Stack.Capacity c = Stack.top s) as Hcc.
    { unfold Stack.Capacity, c. cbn.
      rewrite StackFacts.stack_elems_length by done. lia. }
    assert (Stack.elems c = Stack.elems s) as Hec.
    { unfold Stack.elems at 1, c. cbn. apply take_ge.
      rewrite StackFacts.stack_elems_length by done. lia. }
    exists c. split_and!; try done.
    + by apply StackFacts.stack_Copy_ok.
    + apply StackFacts.stack_At_ext; try done.
      unfold Stack.wf. rewrite Hcc. cbn. lia.
Qed.

Lemma C2_copy_dense_witness :
  Deque.wf wrapped5_state ∧ Stack.wf stack5_state ∧
  (∃ c, Deque.Copy 0 wrapped5_state = Ok c ∧
        Deque.length c = 5 ∧
        Deque.elems c = Deque.elems wrapped5_state ∧
        (∀ i, Deque.At 0 c i = Deque.At 0 wrapped5_state i) ∧
        Deque.front c = 0 ∧ Deque.back c = 5 ∧
        take 5 (Deque.data c) = Deque.elems wrapped5_state ∧
        (Deque.length wrapped5_state = 0 →
         Deque.Capacity wrapped5_state ≤ Deque.Capacity c)) ∧
  (∃ c, Stack.Copy 0 stack5_state = Ok c ∧
        Stack.top c = 5 ∧
        Stack.elems c = Stack.elems stack5_state ∧
        (∀ i, Stack.At 0 c i = Stack.At 0 stack5_state i) ∧
        Stack.data c = Stack.elems stack5_state ∧
        Stack.Capacity c = 5).
Proof.
  assert (Deque.wf wrapped5_state) as Hq by wf_concrete.
  assert (Stack.wf stack5_state) as Hs by wf_concrete.
  split_and!; [done..| |];
    apply (C2_copy_dense 0 wrapped5_state stack5_state Hq Hs).
Defined.

(** C2 as stated fails on the stack: the copy of a stack holding one
    element in storage of capacity 8 has capacity 1. *)
Lemma C2_stack_copy_capacity :
  stack1 = Ok stack1_state ∧
  ∃ c, Stack.Copy 0 stack1_state = Ok c ∧
       Stack.Capacity c = 1 ∧ Stack.Capacity stack1_state = 8.
Proof. split; [done|]. eexists. split; [reflexivity|done]. Qed.

(** C3, as amended.  [Swap(i, i)] returns false and leaves the deque
    unchanged, for every deque and every [i], inside the deque or not.
    The equality test is made on the indices as passed, before negative
    indices are resolved: on a deque in a consistent state (capacity at
    most [1 << 30]), when [i] and [j] resolve to the same position
    inside the window, [Swap(i, j)] leaves the deque unchanged and
    returns false exactly when [i = j], and true when they differ. *)
Theorem C3_swap_equal_indices {T : Type}
    (q : Deque.Deque (T:=T)) (i j : Z) :
  Deque.Swap q i i = Ok (q, false) ∧
  (Deque.wf q →
   Deque.resolve i (Deque.length q) = Deque.resolve j (Deque.length q) →
   0 ≤ Deque.resolve i (Deque.length q) < Deque.length q →
   Deque.Swap q i j = Ok (q, negb (i =? j))).
Proof.
  split; [apply DequeFacts.Swap_equal|]. intros Hq Hres Hin.
  destruct (Z.eqb_spec i j) as [->|Hne]; cbn.
  - apply DequeFacts.Swap_equal.
  - by apply DequeFacts.Swap_same_slot.
Qed.

Lemma C3_swap_equal_indices_witness :
  Deque.wf deque5_state ∧
  Deque.resolve (-1) (Deque.length deque5_state)
  = Deque.resolve 4 (Deque.length deque5_state) ∧
  0 ≤ Deque.resolve (-1) (Deque.length deque5_state) < Deque.length deque5_state ∧
  Deque.Swap deque5_state (-1) (-1) = Ok (deque5_state, false) ∧
  Deque.Swap deque5_state 7 7 = Ok (deque5_state, false) ∧
  Deque.Swap deque5_state (-1) 4 = Ok (deque5_state, true).
Proof.
  assert (Deque.wf deque5_state) as Hq by wf_concrete.
  assert (Deque.resolve (-1) (Deque.length deque5_state)
          = Deque.resolve 4 (Deque.length deque5_state)) as Hres by reflexivity.
  assert (0 ≤ Deque.resolve (-1) (Deque.length deque5_state)
          < Deque.length deque5_state) as Hin by (vm_compute; split; [discriminate|reflexivity]).
  split_and!; [done..| | |].
  - exact (proj1 (C3_swap_equal_indices deque5_state (-1) 4)).
  - exact (proj1 (C3_swap_equal_indices deque5_state 7 7)).
  - exact (proj2 (C3_swap_equal_indices deque5_state (-1) 4) Hq Hres Hin).
Defined.

(** C3 as stated fails: on the deque holding 1..5, the indices -1 and 4
    resolve to the same position, yet [Swap(-1, 4)] reports success. *)
Lemma C3_swap_minus_one :
  deque5 = Ok deque5_state ∧
  Deque.resolve (-1) (Deque.length deque5_state) = 4 ∧
  Deque.resolve 4 (Deque.length deque5_state) = 4 ∧
  Deque.Swap deque5_state (-1) 4 = Ok (deque5_state, true).
Proof. done. Qed.

(** C4.  After [PushBack] of 1..5 onto a new deque, [Rotate(2)] leaves
    4,5,1,2,3 and a further [Rotate(-3)] leaves 2,3,4,5,1.  When the
    same five pushes land in a window that wraps past the end of the
    backing array, [Rotate(2)] ends in an index-out-of-range panic at
    the first swap of [reverseCircular]. *)
Theorem C4_rotate_scenario :
  deque5 = Ok deque5_state ∧
  Deque.elems deque5_state = [1; 2; 3; 4; 5] ∧
  (q ← Deque.Rotate deque5_state 2; Ok (Deque.elems q)) = Ok [4; 5; 1; 2; 3] ∧
  (q ← Deque.Rotate deque5_state 2; q ← Deque.Rotate q (-3); Ok (Deque.elems q))
  = Ok [2; 3; 4; 5; 1] ∧
  wrapped5 = Ok wrapped5_state ∧
  Deque.elems wrapped5_state = [1; 2; 3; 4; 5] ∧
  Deque.Rotate wrapped5_state 2 = Err IndexOutOfRange.
Proof. split_and!; reflexivity. Qed.

(** C5 fails on every deque whose window wraps: with at least two
    elements and [n] not a multiple of the count, [Rotate(n)] panics
    instead of rotating, so no later [Rotate(-n)] can restore the
    order. *)
Theorem C5_rotate_wrapped_window {T : Type} (q : Deque.Deque (T:=T)) (n : Z) :
  Deque.wf q →
  Deque.Capacity q < Deque.front q + Deque.length q →
  Deque.front q + Deque.length q ≤ view_len →
  1 < Deque.length q →
  Z.rem n (Deque.length q) ≠ 0 →
  Deque.Rotate q n = Err IndexOutOfRange.
Proof. apply DequeFacts.Rotate_wrapped. Qed.

Lemma C5_rotate_wrapped_window_witness :
  Deque.wf wrapped5_state ∧
  Deque.Capacity wrapped5_state
  < Deque.front wrapped5_state + Deque.length wrapped5_state ∧
  Deque.front wrapped5_state + Deque.length wrapped5_state ≤ view_len ∧
  1 < Deque.length wrapped5_state ∧
  Z.rem 2 (Deque.length wrapped5_state) ≠ 0 ∧
  Deque.Rotate wrapped5_state 2 = Err IndexOutOfRange.
Proof.
  assert (Deque.wf wrapped5_state) as Hq by wf_concrete.
  assert (Deque.Capacity wrapped5_state
          < Deque.front wrapped5_state + Deque.length wrapped5_state) as Hw
    by reflexivity.
  assert (Deque.front wrapped5_state + Deque.length wrapped5_state ≤ view_len)
    as Hv by (vm_compute; discriminate).
  assert (1 < Deque.length wrapped5_state) as Hl by reflexivity.
  assert (Z.rem 2 (Deque.length wrapped5_state) ≠ 0) as Hn
    by (vm_compute; discriminate).
  split_and!; [done..|].
  apply (C5_rotate_wrapped_window wrapped5_state 2 Hq Hw Hv Hl Hn).
Defined.

(** C6, as amended.  On a non-empty deque or stack in a consistent
    state, whose capacity in particular does not exceed the [1 << 30]
    elements of the array type behind the unsafe view, [At(-1)] returns
    the element [At(count-1)] returns, [At(-count)] the element [At(0)]
    returns, and [At(-(count+1))] returns the zero value with
    [false]. *)
Theorem C6_negative_index {T : Type} (zero : T)
    (q : Deque.Deque (T:=T)) (s : Stack.Stack (T:=T)) :
  Deque.wf q → 0 < Deque.length q → Stack.wf s → 0 < Stack.top s →
  (∃ x y, Deque.At zero q (-1) = Ok (x, true) ∧
          Deque.At zero q (Deque.length q - 1) = Ok (x, true) ∧
          Deque.At zero q (- Deque.length q) = Ok (y, true) ∧
          Deque.At zero q 0 = Ok (y, true) ∧
          Deque.At zero q (- (Deque.length q + 1)) = Ok (zero, false)) ∧
  (∃ x y, Stack.At zero s (-1) = Ok (x, true) ∧
          Stack.At zero s (Stack.top s - 1) = Ok (x, true) ∧
          Stack.At zero s (- Stack.top s) = Ok (y, true) ∧
          Stack.At zero s 0 = Ok (y, true) ∧
          Stack.At zero s (- (Stack.top s + 1)) = Ok (zero, false)).
Proof.
  intros Hq Hlen Hs Htop. split.
  - destruct (DequeFacts.At_inrange zero q (Deque.length q - 1) Hq)
      as (x & _ & Hx); [lia|].
    destruct (DequeFacts.At_inrange zero q 0 Hq) as (y & _ & Hy); [lia|].
    exists x, y. split_and!; try done.
    + rewrite <-Hx. apply DequeFacts.At_resolve.
      rewrite DequeFacts.resolve_neg, DequeFacts.resolve_nonneg by lia. lia.
    + rewrite <-Hy. apply DequeFacts.At_resolve.
      rewrite DequeFacts.resolve_neg, DequeFacts.resolve_nonneg by lia. lia.
    + apply DequeFacts.At_outside.
      rewrite DequeFacts.resolve_neg by lia. lia.
  - destruct (StackFacts.stack_At_inrange zero s (Stack.top s - 1) Hs)
      as (x & _ & Hx); [lia|].
    destruct (StackFacts.stack_At_inrange zero s 0 Hs) as (y & _ & Hy); [lia|].
    exists x, y. split_and!; try done.
    + rewrite <-Hx. apply StackFacts.stack_At_resolve.
      rewrite StackFacts.stack_resolve_neg, StackFacts.stack_resolve_nonneg by lia.
      lia.
    + rewrite <-Hy. apply StackFacts.stack_At_resolve.
      rewrite StackFacts.stack_resolve_neg, StackFacts.stack_resolve_nonneg by lia.
      lia.
    + apply StackFacts.stack_At_outside.
      rewrite StackFacts.stack_resolve_neg by lia. lia.
Qed.

Lemma C6_negative_index_witness :
  Deque.wf wrapped5_state ∧ 0 < Deque.length wrapped5_state ∧
  Stack.wf stack5_state ∧ 0 < Stack.top stack5_state ∧
  (∃ x y, Deque.At 0 wrapped5_state (-1) = Ok (x, true) ∧
          Deque.At 0 wrapped5_state (5 - 1) = Ok (x, true) ∧
          Deque.At 0 wrapped5_state (- 5) = Ok (y, true) ∧
          Deque.At 0 wrapped5_state 0 = Ok (y, true) ∧
          Deque.At 0 wrapped5_state (- (5 + 1)) = Ok (0, false)) ∧
  (∃ x y, Stack.At 0 stack5_state (-1) = Ok (x, true) ∧
          Stack.At 0 stack5_state (5 - 1) = Ok (x, true) ∧
          Stack.At 0 stack5_state (- 5) = Ok (y, true) ∧
          Stack.At 0 stack5_state 0 = Ok (y, true) ∧
          Stack.At 0 stack5_state (- (5 + 1)) = Ok (0, false)).
Proof.
  assert (Deque.wf wrapped5_state) as Hq by wf_concrete.
  assert (0 < Deque.length wrapped5_state) as Hl by reflexivity.
  assert (Stack.wf stack5_state) as Hs by wf_concrete.
  assert (0 < Stack.top stack5_state) as Ht by reflexivity.
  split_and!; [done..| |];
    apply (C6_negative_index 0 wrapped5_state stack5_state Hq Hl Hs Ht).
Defined.

(** C6 as stated fails on a stack with more slots than the array type
    behind the unsafe view has: after [NewStack((1 << 30) + 1)] and one
    [Push], [At(-1)] and [At(count-1)], which is [At(0)], end in a
    slice-bounds panic where [At] slices the view to the capacity; no
    element is returned. *)
Lemma C6_at_beyond_view :
  (s ← Stack.NewStack 0 [view_len + 1]; s ← Stack.Push 0 s 7;
   Stack.At 0 s (-1)) = Err SliceBounds ∧
  (s ← Stack.NewStack 0 [view_len + 1]; s ← Stack.Push 0 s 7;
   Stack.At 0 s 0) = Err SliceBounds.
Proof.
  split; apply StackFacts.At_beyond_view;
    first [lia | vm_compute; split; [discriminate|reflexivity]].
Qed.

(** C7.  On an empty deque [PopFront], [PopBack], [Front] and [Back],
    and on an empty stack [Pop] and [Top], return the zero value with
    [false]; [At], [Set] and [Swap] with an index that resolves outside
    [0, count) return [false].  The operations that hand back a state
    hand back the one they were given, so length, capacity and elements
    are unchanged; [Front], [Back], [Top] and [At] write nothing. *)
Theorem C7_failures_leave_state {T : Type} (zero : T)
    (q0 q : Deque.Deque (T:=T)) (s0 s : Stack.Stack (T:=T))
    (i j k : Z) (v : T) :
  Deque.length q0 = 0 → Stack.top s0 = 0 →
  ¬ (0 ≤ Deque.resolve i (Deque.length q) < Deque.length q) →
  ¬ (0 ≤ Stack.resolve k (Stack.top s) < Stack.top s) →
  Deque.PopFront zero q0 = Ok (q0, (zero, false)) ∧
  Deque.PopBack zero q0 = Ok (q0, (zero, false)) ∧
  Deque.Front zero q0 = Ok (zero, false) ∧
  Deque.Back zero q0 = Ok (zero, false) ∧
  Stack.Pop zero s0 = Ok (s0, (zero, false)) ∧
  Stack.Top zero s0 = Ok (zero, false) ∧
  Deque.At zero q i = Ok (zero, false) ∧
  Deque.Set_ q i v = Ok (q, false) ∧
  Deque.Swap q i j = Ok (q, false) ∧
  Deque.Swap q j i = Ok (q, false) ∧
  Stack.At zero s k = Ok (zero, false) ∧
  Stack.Set_ s k v = Ok (s, false).
Proof.
  intros Hq0 Hs0 Hi Hk.
  destruct (DequeFacts.pops_on_empty zero q0 Hq0) as (? & ? & ? & ?).
  destruct (StackFacts.pop_on_empty zero s0 Hs0) as (? & ?).
  split_and!; try done.
  - by apply DequeFacts.At_outside.
  - by apply DequeFacts.Set_outside.
  - by apply DequeFacts.Swap_outside_l.
  - by apply DequeFacts.Swap_outside_r.
  - by apply StackFacts.stack_At_outside.
  - by apply StackFacts.stack_Set_outside.
Qed.

Lemma C7_failures_leave_state_witness :
  Deque.length deque0_state = 0 ∧ Stack.top stack0_state = 0 ∧
  ¬ (0 ≤ Deque.resolve (-6) (Deque.length wrapped5_state)
     < Deque.length wrapped5_state) ∧
  ¬ (0 ≤ Stack.resolve 5 (Stack.top stack5_state) < Stack.top stack5_state) ∧
  Deque.PopFront 0 deque0_state = Ok (deque0_state, (0, false)) ∧
  Deque.PopBack 0 deque0_state = Ok (deque0_state, (0, false)) ∧
  Deque.Front 0 deque0_state = Ok (0, false) ∧
  Deque.Back 0 deque0_state = Ok (0, false) ∧
  Stack.Pop 0 stack0_state = Ok (stack0_state, (0, false)) ∧
  Stack.Top 0 stack0_state = Ok (0, false) ∧
  Deque.At 0 wrapped5_state (-6) = Ok (0, false) ∧
  Deque.Set_ wrapped5_state (-6) 9 = Ok (wrapped5_state, false) ∧
  Deque.Swap wrapped5_state (-6) 2 = Ok (wrapped5_state, false) ∧
  Deque.Swap wrapped5_state 2 (-6) = Ok (wrapped5_state, false) ∧
  Stack.At 0 stack5_state 5 = Ok (0, false) ∧
  Stack.Set_ stack5_state 5 9 = Ok (stack5_state, false).
Proof.
  assert (Deque.length deque0_state = 0) as Hq0 by reflexivity.
  assert (Stack.top stack0_state = 0) as Hs0 by reflexivity.
  assert (¬ (0 ≤ Deque.resolve (-6) (Deque.length wrapped5_state)
             < Deque.length wrapped5_state)) as Hi
    by (vm_compute; intros [H _]; apply H; reflexivity).
  assert (¬ (0 ≤ Stack.resolve 5 (Stack.top stack5_state)
             < Stack.top stack5_state)) as Hk
    by (vm_compute; intros [_ H]; discriminate H).
  split; [done|]. split; [done|]. split; [done|]. split; [done|].
  apply (C7_failures_leave_state 0 deque0_state wrapped5_state stack0_state
           stack5_state (-6) 2 5 9 Hq0 Hs0 Hi Hk).
Defined.




(** C9 fails at [Copy].  The copy of a deque holding one element in
    storage of capacity 8 has [initCap] 8 and capacity 1; its [back]
    equals that capacity, so after one [PopFront] the next [PushBack]
    writes past the end of the backing array. *)
Theorem C9_copy_below_floor :
  deque1 = Ok deque1_state ∧
  Deque.wf deque1_state ∧
  Deque.initCap deque1_state ≤ Deque.Capacity deque1_state ∧
  ∃ c, Deque.Copy 0 deque1_state = Ok c ∧
       Deque.Len c = 1 ∧ Deque.Capacity c = 1 ∧ Deque.initCap c = 8 ∧
       Deque.back c = 1 ∧
       ('(c', _) ← Deque.PopFront 0 c; Deque.PushBack 0 c' 9)
       = Err OutsideAllocation.
Proof.
  split_and!; [reflexivity|wf_concrete|vm_compute; discriminate|].
  eexists. split; [reflexivity|]. split_and!; reflexivity.
Qed.

(** C10.  [Resize(c)] on a stack of more than [c >= 0] elements leaves
    length and capacity both exactly [c], below 8 too; the elements kept
    are the [c] oldest in their order, so [At(i)] of the result is
    [At(i + n - c)] of the original. *)
Theorem C10_resize_truncates {T : Type} (zero : T)
    (s : Stack.Stack (T:=T)) (c : Z) :
  Stack.wf s → 0 ≤ c < Stack.top s →
  ∃ s', Stack.Resize zero s c = Ok s' ∧
        Stack.Length s' = c ∧ Stack.Capacity s' = c ∧
        Stack.elems s' = take (Z.to_nat c) (Stack.elems s) ∧
        ∀ i, 0 ≤ i < c →
             Stack.At zero s' i = Stack.At zero s (i + (Stack.top s - c)).
Proof.
  intros Hs Hc. pose proof Hs as (Ht & Hcap & Hic).
  set (s' := {| Stack.data := take (Z.to_nat c) (Stack.elems s);
                Stack.top := c; Stack.initCap := Stack.initCap s |}).
  assert (List.length (take (Z.to_nat c) (Stack.elems s)) = Z.to_nat c) as Hlen.
  { rewrite length_take, StackFacts.stack_elems_length by done. lia. }
  assert (Stack.Capacity s' = c) as Hc'.
  { unfold Stack.Capacity, s'. cbn. rewrite Hlen. lia. }
  assert (Stack.elems s' = take (Z.to_nat c) (Stack.elems s)) as He'.
  { unfold Stack.elems at 1, s'. cbn. apply take_ge. lia. }
  assert (Stack.wf s') as Hs'.
  { unfold Stack.wf. rewrite Hc'. cbn. lia. }
  exists s'. split_and!; try done.
  - by apply StackFacts.Resize_truncate.
  - intros i Hi.
    destruct (StackFacts.stack_At_inrange zero s' i Hs') as (x & Hx & ->);
      [cbn; lia|].
    destruct (StackFacts.stack_At_inrange zero s (i + (Stack.top s - c)) Hs)
      as (y & Hy & ->); [lia|].
    rewrite He' in Hx. cbn in Hx. rewrite lookup_take_lt in Hx by lia.
    replace (Z.to_nat (Stack.top s - 1 - (i + (Stack.top s - c))))
      with (Z.to_nat (c - 1 - i)) in Hy by lia.
    congruence.
Qed.

Lemma C10_resize_truncates_witness :
  Stack.wf stack5_state ∧ 0 ≤ 3 < Stack.top stack5_state ∧
  ∃ s', Stack.Resize 0 stack5_state 3 = Ok s' ∧
        Stack.Length s' = 3 ∧ Stack.Capacity s' = 3 ∧
        Stack.elems s' = take 3 (Stack.elems stack5_state) ∧
        ∀ i, 0 ≤ i < 3 →
             Stack.At 0 s' i = Stack.At 0 stack5_state (i + (5 - 3)).
Proof.
  assert (Stack.wf stack5_state) as Hs by wf_concrete.
  assert (0 ≤ 3 < Stack.top stack5_state) as Hc
    by (vm_compute; split; [discriminate|reflexivity]).
  split_and!; [done..|].
  apply (C10_resize_truncates 0 stack5_state 3 Hs Hc).
Defined.

(** ** Further facts about the deque *)

Module DequeOps.
Import Deque DequeFacts.
Section WithElem.
Context {T : Type} (zero : T).
Implicit Types (q : Deque (T:=T)) (i n : Z) (v x : T).

Lemma rotate_residue_nat (k : nat) (l : list T) :
  rotate (k `mod` List.length l) l = rotate k l.
Proof. unfold rotate. by rewrite Nat.Div0.mod_mod. Qed.

Lemma rotate_1_cons x (l : list T) : rotate 1 (x :: l) = l ++ [x].
Proof. apply (rotate_split [x] l). Qed.

(** Moving [front] one slot on is one more left rotation of the
    storage. *)
Lemma rotate_front_succ q :
  wf q →
  rotate (Z.to_nat ((front q + 1) `mod` Capacity q)) (data q)
  = rotate 1 (rotate (Z.to_nat (front q)) (data q)).
Proof.
  intros (Hc & Hf & _). rewrite rotate_rotate.
  rewrite <-(rotate_residue_nat (1 + Z.to_nat (front q))). f_equal.
  unfold Capacity in *.
  rewrite <-(Nat2Z.id (_ `mod` _)%nat), Nat2Z.inj_mod. f_equal. f_equal. lia.
Qed.

(** The state [PopFront] leaves. *)
Lemma PopFront_head q x rest :
  wf q → elems q = x :: rest →
  ∃ q', PopFront zero q = Ok (q', (x, true)) ∧ wf q' ∧ elems q' = rest ∧
        length q' = length q - 1 ∧ Capacity q' = Capacity q ∧
        initCap q' = initCap q ∧ back q' = back q.
Proof.
  intros Hwf He. pose proof Hwf as (Hc & Hf & Hl & Hb & Hm & Hic).
  pose proof (elems_length q Hwf) as Hlen. rewrite He in Hlen. cbn in Hlen.
  assert (data q !! Z.to_nat (front q) = Some x) as Hx.
  { pose proof (elems_lookup q 0 Hwf) as H0. rewrite He in H0.
    rewrite Z.add_0_r, Z.mod_small in H0 by lia. symmetry. apply H0. lia. }
  pose proof (Z.mod_pos_bound (front q + 1) (Capacity q)) as Hnf.
  set (q' := {| data := data q; front := (front q + 1) `mod` Capacity q;
                back := back q; length := length q - 1;
                initCap := initCap q |}).
  assert (Capacity q' = Capacity q) as Hc' by reflexivity.
  exists q'. split.
  { unfold PopFront. destruct (Z.eqb_spec (length q) 0); [lia|].
    int32_simpl. rewrite rem_nonneg by lia. cbn.
    destruct (Z.leb_spec 0 (length q - 1)); [|lia].
    rewrite (index_ok _ _ x) by (done || lia). done. }
  unfold wf. rewrite Hc'. unfold q'. cbn.
  split_and!; try (done || lia).
  - rewrite Zplus_mod_idemp_l, Hm. f_equal. lia.
  - unfold elems. cbn. rewrite rotate_front_succ by done.
    unfold elems in He.
    destruct (rotate (Z.to_nat (front q)) (data q)) as [|y R] eqn:HR.
    { by rewrite take_nil in He. }
    replace (Z.to_nat (length q)) with (S (Z.to_nat (length q - 1))) in He by lia.
    assert (List.length (y :: R) = List.length (data q)) as HlR
      by (rewrite <-HR; apply length_rotate).
    cbn in He, HlR. injection He as _ Hrest.
    rewrite rotate_1_cons, take_app_le; [done|unfold Capacity in *; lia].
Qed.

(** [back] stepped back one slot is the slot of the last element. *)
Lemma back_pred q :
  wf q → 0 < length q →
  (back q - 1 + Capacity q) `mod` Capacity q
  = (front q + (length q - 1)) `mod` Capacity q.
Proof.
  intros (Hc & Hf & Hl & Hb & Hm & _) Hpos.
  replace (back q - 1 + Capacity q) with (back q + (Capacity q - 1)) by lia.
  rewrite <-Zplus_mod_idemp_l, Hm, Zplus_mod_idemp_l.
  replace (front q + length q + (Capacity q - 1))
    with (front q + (length q - 1) + 1 * Capacity q) by lia.
  by rewrite Z.mod_add by lia.
Qed.

(** The state [PopBack] leaves. *)
Lemma PopBack_last q x rest :
  wf q → elems q = rest ++ [x] →
  ∃ q', PopBack zero q = Ok (q', (x, true)) ∧ tight q' ∧ elems q' = rest ∧
        length q' = length q - 1 ∧ Capacity q' = Capacity q ∧
        initCap q' = initCap q ∧ front q' = front q.
Proof.
  intros Hwf He. pose proof Hwf as (Hc & Hf & Hl & Hb & Hm & Hic).
  pose proof (elems_length q Hwf) as Hlen. rewrite He, length_app in Hlen.
  cbn in Hlen.
  pose proof (back_pred q Hwf) as Hbp.
  assert (data q !! Z.to_nat ((back q - 1 + Capacity q) `mod` Capacity q) = Some x)
    as Hx.
  { rewrite Hbp by lia. rewrite <-elems_lookup by (done || lia).
    rewrite He. replace (Z.to_nat (length q - 1)) with (List.length rest) by lia.
    by apply list_lookup_middle. }
  pose proof (Z.mod_pos_bound (back q - 1 + Capacity q) (Capacity q)) as Hnb.
  set (q' := {| data := data q; front := front q;
                back := (back q - 1 + Capacity q) `mod` Capacity q;
                length := length q - 1; initCap := initCap q |}).
  assert (Capacity q' = Capacity q) as Hc' by reflexivity.
  exists q'. split.
  { unfold PopBack. destruct (Z.eqb_spec (length q) 0); [lia|].
    int32_simpl. rewrite rem_nonneg by lia. cbn.
    destruct (Z.leb_spec 0 (length q - 1)); [|lia].
    rewrite (index_ok _ _ x) by (done || lia). done. }
  unfold tight, wf. rewrite Hc'. unfold q'. cbn.
  split_and!; try (done || lia).
  - by rewrite Z.mod_mod, Hbp by lia.
  - unfold elems in *. cbn.
    replace (Z.to_nat (length q - 1)) with (List.length rest) by lia.
    transitivity (take (List.length rest)
                    (take (Z.to_nat (length q))
                       (rotate (Z.to_nat (front q)) (data q)))).
    + rewrite take_take. f_equal. lia.
    + rewrite He. apply take_app_length.
Qed.



(** The growth step both pushes share leaves room and keeps the
    window. *)
Lemma growIfFull_ok q :
  wf q → length q < Capacity q ∨ 2 * Capacity q ≤ view_len →
  ∃ q1, growIfFull zero q = Ok q1 ∧ wf q1 ∧ length q1 < Capacity q1 ∧
        elems q1 = elems q ∧ length q1 = length q ∧ initCap q1 = initCap q ∧
        Capacity q1 = (if length q <? Capacity q then Capacity q
                       else 2 * Capacity q) ∧
        (tight q → tight q1).
Proof.
  intros Hwf Hroom. pose proof Hwf as (Hc & Hf & Hl & Hb & Hm & Hic).
  unfold growIfFull. int32_simpl.
  destruct (Z.eqb_spec (length q) (Capacity q)) as [Hfull|Hne].
  - destruct (Z.ltb_spec (length q) (Capacity q)); [lia|].
    destruct (Z.eqb_spec (Capacity q * 2) 0); [lia|].
    rewrite internalResize_ok by (done || lia).
    replace (Z.to_nat (Capacity q * 2) - Z.to_nat (length q))%nat
      with (Z.to_nat (Capacity q)) by lia.
    eexists. split; [done|].
    assert (tight (packed zero (elems q) (Z.to_nat (Capacity q)) (initCap q))) as Ht.
    { apply tight_packed; [lia| |done]. rewrite elems_length by done. lia. }
    rewrite Capacity_packed, elems_packed. cbn.
    rewrite elems_length by done.
    split_and!; try (done || lia). apply Ht.
  - destruct (Z.ltb_spec (length q) (Capacity q)); [|lia].
    exists q. split_and!; (done || lia).
Qed.

(** One [PushBack], with or without growth. *)
Lemma PushBack_any q v :
  tight q → length q < Capacity q ∨ 2 * Capacity q ≤ view_len →
  ∃ q', PushBack zero q v = Ok q' ∧ tight q' ∧ elems q' = elems q ++ [v] ∧
        length q' = length q + 1 ∧ initCap q' = initCap q ∧
        Capacity q' = (if length q <? Capacity q then Capacity q
                       else 2 * Capacity q).
Proof.
  intros Ht Hroom. pose proof Ht as [Hwf Hlt].
  pose proof Hwf as (Hc & Hf & Hl & Hb & Hm & Hic).
  destruct (Z.ltb_spec (length q) (Capacity q)) as [Hr|Hfull].
  - exists (pushed q v). rewrite Capacity_pushed.
    split_and!; try done.
    + by apply PushBack_room.
    + by apply tight_pushed.
    + by apply elems_pushed.
  - assert (length q = Capacity q) as Heq by lia.
    set (q1 := packed zero (elems q) (Z.to_nat (Capacity q)) (initCap q)).
    assert (Capacity q1 = 2 * Capacity q) as Hc1.
    { unfold q1. rewrite Capacity_packed, elems_length by done. lia. }
    assert (length q1 = length q) as Hl1.
    { unfold q1. cbn. rewrite elems_length by done. lia. }
    assert (tight q1) as Ht1.
    { apply tight_packed; [lia| |done]. rewrite elems_length by done. lia. }
    exists (pushed q1 v). rewrite Capacity_pushed, Hc1.
    split_and!; try done.
    + apply PushBack_full; (done || lia).
    + apply tight_pushed; [done|lia].
    + rewrite elems_pushed by (done || lia). unfold q1.
      by rewrite elems_packed.
    + cbn. rewrite elems_length by done. lia.
Qed.

(** Any number of pushes, as long as twice the final length fits the
    unsafe view. *)
Lemma PushBack_all_any q vs :
  tight q → 2 * (length q + Z.of_nat (List.length vs)) ≤ view_len →
  ∃ q', PushBack_all zero q vs = Ok q' ∧ tight q' ∧
        elems q' = elems q ++ vs ∧
        length q' = length q + Z.of_nat (List.length vs) ∧
        initCap q' = initCap q ∧ Capacity q ≤ Capacity q'.
Proof.
  revert q. induction vs as [|v vs IH]; intros q Ht Hfit; cbn in *.
  - exists q. rewrite app_nil_r. split_and!; (done || lia).
  - destruct (PushBack_any q v Ht) as (q1 & Hq1 & Ht1 & He1 & Hl1 & Hi1 & Hc1).
    { destruct Ht as [(? & ? & ? & _) _]. lia. }
    destruct (IH q1 Ht1) as (q' & Hq' & Ht' & He' & Hl' & Hi' & Hc'); [lia|].
    exists q'. rewrite Hq1. cbn. rewrite Hq', He', He1, Hl', Hl1, Hi', Hi1.
    rewrite <-app_assoc. split_and!; try (done || lia).
    destruct Ht as [(? & _) _]. revert Hc1.
    destruct (length q <? Capacity q); lia.
Qed.

(** Stepping [front] back one slot and writing there puts the new
    value in front of the window. *)
Lemma PushFront_any q v :
  wf q → length q < Capacity q ∨ 2 * Capacity q ≤ view_len →
  ∃ q', PushFront zero q v = Ok q' ∧ wf q' ∧ elems q' = v :: elems q ∧
        length q' = length q + 1 ∧ initCap q' = initCap q ∧
        Capacity q' = (if length q <? Capacity q then Capacity q
                       else 2 * Capacity q) ∧
        (tight q → tight q').
Proof.
  intros Hwf Hroom.
  destruct (growIfFull_ok q Hwf Hroom)
    as (q1 & Hq1 & Hwf1 & Hr1 & He1 & Hl1 & Hi1 & Hc1 & Ht1).
  pose proof Hwf1 as (Hc & Hf & Hl & Hb & Hm & Hic).
  set (nf := (front q1 - 1 + Capacity q1) `mod` Capacity q1).
  pose proof (Z.mod_pos_bound (front q1 - 1 + Capacity q1) (Capacity q1)) as Hnf.
  fold nf in Hnf.
  set (q' := {| data := <[Z.to_nat nf := v]> (data q1); front := nf;
                back := back q1; length := length q1 + 1;
                initCap := initCap q1 |}).
  assert (Capacity q' = Capacity q1) as Hc'.
  { unfold Capacity, q'. cbn. by rewrite length_insert. }
  assert ((nf + 1) `mod` Capacity q1 = front q1) as Hnf1.
  { unfold nf. rewrite Zplus_mod_idemp_l.
    replace (front q1 - 1 + Capacity q1 + 1) with (front q1 + 1 * Capacity q1) by lia.
    rewrite Z.mod_add by lia. apply Z.mod_small. lia. }
  exists q'. rewrite Hc', Hc1. split_and!; try done.
  - unfold PushFront. rewrite Hq1. cbn. int32_simpl.
    rewrite rem_nonneg by lia. cbn. fold nf.
    by rewrite view_store_ok by (unfold Capacity in *; lia).
  - unfold wf. rewrite Hc'. unfold q'. cbn. split_and!; try lia.
    rewrite Hm. rewrite <-Hnf1 at 1. rewrite Zplus_mod_idemp_l. f_equal. lia.
  - rewrite <-He1. unfold elems, q'. cbn.
    assert (Z.to_nat nf
            = rotate_nat_add (Z.to_nat nf) 0 (List.length (data q1))) as Hslot.
    { symmetry. apply rotate_nat_add_0. unfold Capacity in *. lia. }
    rewrite Hslot at 2.
    rewrite rotate_insert_l by (unfold Capacity in *; lia).
    assert (rotate (Z.to_nat (front q1)) (data q1)
            = rotate 1 (rotate (Z.to_nat nf) (data q1))) as Hrot.
    { rewrite rotate_rotate, <-(rotate_residue_nat (1 + Z.to_nat nf)). f_equal.
      rewrite <-Hnf1. unfold Capacity.
      rewrite <-(Nat2Z.id (_ `mod` _)%nat), Nat2Z.inj_mod. f_equal. f_equal. lia. }
    rewrite Hrot.
    destruct (rotate (Z.to_nat nf) (data q1)) as [|y R] eqn:HR.
    { pose proof (length_rotate (data q1) (Z.to_nat nf)) as HlR.
      rewrite HR in HlR. cbn in HlR. unfold Capacity in *. lia. }
    assert (List.length (y :: R) = List.length (data q1)) as HlR
      by (rewrite <-HR; apply length_rotate).
    cbn in HlR.
    rewrite rotate_1_cons. cbn.
    replace (Z.to_nat (length q1 + 1)) with (S (Z.to_nat (length q1))) by lia.
    cbn. rewrite take_app_le by (unfold Capacity in *; lia). done.
  - cbn. lia.
  - intros Ht. destruct (Ht1 Ht) as [_ Hlt]. split.
    + unfold wf. rewrite Hc'. unfold q'. cbn. split_and!; try lia.
      rewrite Hm. rewrite <-Hnf1 at 1. rewrite Zplus_mod_idemp_l. f_equal. lia.
    + rewrite Hc'. cbn. lia.
Qed.

(** Front pushes pile up in front of the window, last pushed first. *)
Lemma PushFront_all_any q vs :
  wf q → 2 * (length q + Z.of_nat (List.length vs)) ≤ view_len →
  ∃ q', Runs.PushFront_all zero q vs = Ok q' ∧ wf q' ∧
        elems q' = list.reverse vs ++ elems q ∧
        length q' = length q + Z.of_nat (List.length vs) ∧
        initCap q' = initCap q ∧ Capacity q ≤ Capacity q'.
Proof.
  revert q. induction vs as [|v vs IH]; intros q Hwf Hfit.
  - exists q. cbn in *. split_and!; (done || lia).
  - rewrite reverse_cons. cbn in *.
    destruct (PushFront_any q v Hwf)
      as (q1 & Hq1 & Hwf1 & He1 & Hl1 & Hi1 & Hc1 & _).
    { destruct Hwf as (? & ? & ? & _). lia. }
    destruct (IH q1 Hwf1) as (q' & Hq' & Hwf' & He' & Hl' & Hi' & Hc'); [lia|].
    exists q'. rewrite Hq1. cbn. rewrite Hq', He', He1, Hl', Hl1, Hi', Hi1.
    rewrite <-app_assoc. split_and!; try (done || lia).
    destruct Hwf as (? & _). revert Hc1.
    destruct (length q <? Capacity q); lia.
Qed.

(** [k] front pops return the first [k] elements in order and leave the
    rest. *)
Lemma PopFront_collect_take (k : nat) :
  ∀ q, wf q → (k ≤ List.length (elems q))%nat →
  ∃ q', Runs.PopFront_collect zero k q
        = Ok (q', Runs.found <$> take k (elems q)) ∧
        wf q' ∧ elems q' = drop k (elems q) ∧
        Capacity q' = Capacity q ∧ initCap q' = initCap q ∧ back q' = back q.
Proof.
  induction k as [|k IH]; intros q Hwf Hk; cbn.
  - exists q. by rewrite take_0, drop_0.
  - destruct (elems q) as [|x rest] eqn:He; [cbn in Hk; lia|].
    destruct (PopFront_head q x rest Hwf He)
      as (q1 & Hq1 & Hwf1 & He1 & _ & Hc1 & Hi1 & Hb1).
    destruct (IH q1 Hwf1) as (q' & Hq' & Hwf' & He' & Hc' & Hi' & Hb').
    { rewrite He1. cbn in Hk. lia. }
    exists q'. rewrite Hq1. cbn. rewrite Hq'. cbn.
    rewrite He1 in *. split_and!; (done || congruence).
Qed.

(** Back pops return the last elements, most recently pushed first. *)
Lemma PopBack_collect_suffix (suf : list T) :
  ∀ q pre, wf q → elems q = pre ++ suf →
  ∃ q', Runs.PopBack_collect zero (List.length suf) q
        = Ok (q', Runs.found <$> list.reverse suf) ∧
        wf q' ∧ elems q' = pre ∧
        Capacity q' = Capacity q ∧ initCap q' = initCap q ∧ front q' = front q.
Proof.
  induction suf as [|x suf IH] using rev_ind; intros q pre Hwf He.
  - exists q. rewrite app_nil_r in He. by cbn.
  - rewrite app_assoc in He.
    destruct (PopBack_last q x (pre ++ suf) Hwf He)
      as (q1 & Hq1 & [Hwf1 _] & He1 & _ & Hc1 & Hi1 & Hf1).
    destruct (IH q1 pre Hwf1 He1) as (q' & Hq' & Hwf' & He' & Hc' & Hi' & Hf').
    exists q'. rewrite length_app, Nat.add_1_r. cbn.
    rewrite Hq1. cbn. rewrite Hq'. cbn.
    rewrite reverse_snoc. split_and!; (done || congruence).
Qed.

(** [Set] at an index inside the window replaces that element. *)
Lemma Set_inrange q i v :
  wf q → 0 ≤ resolve i (length q) < length q →
  ∃ q', Set_ q i v = Ok (q', true) ∧ wf q' ∧
        elems q' = <[Z.to_nat (resolve i (length q)) := v]> (elems q) ∧
        length q' = length q ∧ Capacity q' = Capacity q ∧
        initCap q' = initCap q ∧ front q' = front q ∧ back q' = back q.
Proof.
  intros Hwf Hin. pose proof Hwf as (Hc & Hf & Hl & Hb & Hm & Hic).
  set (r := resolve i (length q)) in *.
  pose proof (Z.mod_pos_bound (front q + r) (Capacity q)) as Hpos.
  set (q' := {| data := <[Z.to_nat ((front q + r) `mod` Capacity q) := v]> (data q);
                front := front q; back := back q; length := length q;
                initCap := initCap q |}).
  assert (Capacity q' = Capacity q) as Hc'.
  { unfold Capacity, q'. cbn. by rewrite length_insert. }
  exists q'. rewrite Hc'. split_and!; try done.
  - unfold Set_. fold r.
    destruct (Z.ltb_spec r 0); [lia|].
    destruct (Z.leb_spec (length q) r); [lia|]. cbn.
    int32_simpl. rewrite rem_nonneg by lia. cbn.
    by rewrite view_store_ok by (unfold Capacity in *; lia).
  - unfold wf. by rewrite Hc'.
  - unfold elems, q'. cbn.
    assert (Z.to_nat ((front q + r) `mod` Capacity q)
            = rotate_nat_add (Z.to_nat (front q)) (Z.to_nat r)
                (List.length (data q))) as ->.
    { unfold rotate_nat_add, Capacity. by rewrite !Z2Nat.id by lia. }
    rewrite rotate_insert_l by (unfold Capacity in *; lia).
    by rewrite take_insert_lt by lia.
Qed.

Lemma view_swap_ok (mem : list T) a b x y :
  0 ≤ a → 0 ≤ b → Z.of_nat (List.length mem) ≤ view_len →
  mem !! Z.to_nat a = Some x → mem !! Z.to_nat b = Some y →
  view_swap mem a b = Ok (<[Z.to_nat b := x]> (<[Z.to_nat a := y]> mem)).
Proof.
  intros Ha Hb Hm Hx Hy. unfold view_swap.
  pose proof (lookup_lt_Some _ _ _ Hx). pose proof (lookup_lt_Some _ _ _ Hy).
  rewrite (view_index_ok mem b y) by (done || lia). cbn.
  rewrite (view_index_ok mem a x) by (done || lia). cbn.
  rewrite view_store_ok by lia. cbn.
  by rewrite view_store_ok by (rewrite length_insert; lia).
Qed.

Lemma slot_rotate q r :
  wf q → 0 ≤ r →
  Z.to_nat ((front q + r) `mod` Capacity q)
  = rotate_nat_add (Z.to_nat (front q)) (Z.to_nat r) (List.length (data q)).
Proof.
  intros (Hc & Hf & _) Hr. unfold rotate_nat_add, Capacity.
  by rewrite !Z2Nat.id by lia.
Qed.

(** [Swap] of two indices inside the window exchanges the two
    elements. *)
Lemma Swap_inrange q i j x y :
  wf q → i ≠ j →
  0 ≤ resolve i (length q) < length q → 0 ≤ resolve j (length q) < length q →
  elems q !! Z.to_nat (resolve i (length q)) = Some x →
  elems q !! Z.to_nat (resolve j (length q)) = Some y →
  ∃ q', Swap q i j = Ok (q', true) ∧ wf q' ∧
        elems q' = <[Z.to_nat (resolve j (length q)) := x]>
                     (<[Z.to_nat (resolve i (length q)) := y]> (elems q)) ∧
        length q' = length q ∧ Capacity q' = Capacity q ∧
        initCap q' = initCap q ∧ front q' = front q ∧ back q' = back q.
Proof.
  intros Hwf Hne Hi Hj Hx Hy. pose proof Hwf as (Hc & Hf & Hl & Hb & Hm & Hic).
  set (ri := resolve i (length q)) in *. set (rj := resolve j (length q)) in *.
  rewrite elems_lookup in Hx, Hy by done.
  pose proof (Z.mod_pos_bound (front q + ri) (Capacity q)) as Hpi.
  pose proof (Z.mod_pos_bound (front q + rj) (Capacity q)) as Hpj.
  set (q' := {| data := <[Z.to_nat ((front q + rj) `mod` Capacity q) := x]>
                          (<[Z.to_nat ((front q + ri) `mod` Capacity q) := y]>
                             (data q));
                front := front q; back := back q; length := length q;
                initCap := initCap q |}).
  assert (Capacity q' = Capacity q) as Hc'.
  { unfold Capacity, q'. cbn. by rewrite !length_insert. }
  exists q'. rewrite Hc'. split_and!; try done.
  - unfold Swap. destruct (Z.eqb_spec i j); [done|]. fold ri rj.
    destruct (Z.ltb_spec ri 0); [lia|].
    destruct (Z.leb_spec (length q) ri); [lia|].
    destruct (Z.ltb_spec rj 0); [lia|].
    destruct (Z.leb_spec (length q) rj); [lia|]. cbn.
    int32_simpl. rewrite !rem_nonneg by lia. cbn.
    by rewrite (view_swap_ok _ _ _ x y) by (done || unfold Capacity in *; lia).
  - unfold wf. by rewrite Hc'.
  - unfold elems, q'. cbn.
    rewrite (slot_rotate q rj), (slot_rotate q ri) by (done || lia).
    rewrite <-(length_insert (data q)
                 (rotate_nat_add (Z.to_nat (front q)) (Z.to_nat ri)
                    (List.length (data q))) y) at 1.
    rewrite rotate_insert_l by (rewrite length_insert; unfold Capacity in *; lia).
    rewrite rotate_insert_l by (unfold Capacity in *; lia).
    by rewrite !take_insert_lt by lia.
Qed.

(** [PushBack] through a [back] left at the capacity: the lock-free
    branch writes one slot past the backing array. *)
Lemma PushBack_past_end q v :
  wf q → back q = Capacity q → length q < Capacity q → Capacity q < view_len →
  PushBack zero q v = Err OutsideAllocation.
Proof.
  intros (Hc & Hf & Hl & Hb & Hm & Hic) Hback Hroom Hview. unfold PushBack.
  int32_simpl. destruct (Z.ltb_spec (length q) (Capacity q)); [|lia].
  rewrite rem_nonneg by lia. cbn. unfold view_store.
  destruct (Z.ltb_spec (back q) 0); [lia|].
  destruct (Z.leb_spec view_len (back q)); [lia|]. cbn.
  fold (Capacity q). destruct (Z.leb_spec (Capacity q) (back q)); [done|lia].
Qed.

(** What [ShrinkToFit] to the exact length leaves: [back] at the
    capacity. *)
Lemma ShrinkToFit_exact q :
  wf q → initCap q ≤ length q < Capacity q →
  ∃ q', ShrinkToFit zero q = Ok q' ∧ wf q' ∧ elems q' = elems q ∧
        Capacity q' = length q ∧ length q' = length q ∧
        back q' = Capacity q' ∧ front q' = 0.
Proof.
  intros Hwf Hlen. pose proof Hwf as (Hc & Hf & Hl & Hb & Hm & Hic).
  unfold ShrinkToFit.
  destruct (Z.eqb_spec (length q) 0); [lia|].
  destruct (Z.eqb_spec (length q) (Capacity q)); [lia|].
  destruct (Z.ltb_spec (length q) (initCap q)); [lia|].
  rewrite internalResize_ok by (done || lia).
  rewrite Nat.sub_diag. eexists. split; [done|].
  rewrite Capacity_packed, elems_packed. cbn.
  rewrite elems_length by done. split_and!; try (done || lia).
  apply wf_packed; [|done]. rewrite elems_length by done. cbn. lia.
Qed.

(** Writing the two ends of a segment crosswise. *)
Lemma insert_ends (pre l post : list T) x y :
  <[(List.length pre + S (List.length l))%nat := x]>
    (<[List.length pre := y]> (pre ++ x :: l ++ y :: post))
  = pre ++ y :: l ++ x :: post.
Proof.
  rewrite insert_app_r_alt, Nat.sub_diag by lia. cbn.
  rewrite insert_app_r_alt by lia.
  replace (List.length pre + S (List.length l) - List.length pre)%nat
    with (S (List.length l)) by lia.
  f_equal. change (y :: l ++ y :: post) with ((y :: l) ++ y :: post).
  rewrite insert_app_r_alt by (cbn; lia).
  cbn [List.length]. by rewrite Nat.sub_diag.
Qed.

(** The loop of [Reverse], seen through the storage rotated to start at
    [front]: it reverses the segment between its two cursors, whether
    or not the window wraps. *)
Lemma Reverse_loop_seg (mid : list T) :
  ∀ (pre post mem : list T) (fr len i : Z),
    0 < Z.of_nat (List.length mem) ≤ view_len →
    0 ≤ fr < Z.of_nat (List.length mem) →
    len ≤ Z.of_nat (List.length mem) →
    rotate (Z.to_nat fr) mem = pre ++ mid ++ post →
    Z.of_nat (List.length pre) = i →
    Z.of_nat (List.length pre) + Z.of_nat (List.length mid) = len - i →
    ∃ mem', Reverse_loop fr len (Z.of_nat (List.length mem))
              (Z.to_nat (Z.quot (Z.of_nat (List.length mid)) 2)) i mem
            = Ok mem' ∧
            rotate (Z.to_nat fr) mem' = pre ++ list.reverse mid ++ post ∧
            List.length mem' = List.length mem.
Proof.
  induction mid as [|x|x y l IH] using list_ends_ind;
    intros pre post mem fr len i Hc Hf Hlen HR Hi Hm.
  - exists mem. by cbn.
  - exists mem. by cbn.
  - rewrite reverse_cons, reverse_snoc.
    assert (List.length (x :: l ++ [y]) = S (S (List.length l))) as Hl2
      by (cbn; rewrite length_app; cbn; lia).
    rewrite Hl2 in *.
    assert (Z.to_nat (Z.quot (Z.of_nat (S (S (List.length l)))) 2)
            = S (Z.to_nat (Z.quot (Z.of_nat (List.length l)) 2))) as ->.
    { rewrite !Z.quot_div_nonneg by lia.
      replace (Z.of_nat (S (S (List.length l))))
        with (Z.of_nat (List.length l) + 1 * 2) by lia.
      rewrite Z.div_add by lia.
      pose proof (Z.div_pos (Z.of_nat (List.length l)) 2). lia. }
    assert (rotate (Z.to_nat fr) mem = pre ++ x :: l ++ y :: post) as HR'.
    { rewrite HR. cbn. by rewrite <-app_assoc. }
    set (c := Z.of_nat (List.length mem)) in *.
    assert (∀ k : nat, (k < List.length mem)%nat →
              mem !! Z.to_nat ((fr + Z.of_nat k) `mod` c)
              = rotate (Z.to_nat fr) mem !! k) as Hslot.
    { intros k Hk. rewrite lookup_rotate_r by done. f_equal.
      unfold rotate_nat_add, c. by rewrite Z2Nat.id by lia. }
    assert (List.length (pre ++ x :: l ++ y :: post) = List.length mem) as HlR
      by (rewrite <-HR'; apply length_rotate).
    rewrite length_app in HlR. cbn in HlR. rewrite length_app in HlR.
    cbn in HlR.
    pose proof (Z.mod_pos_bound (fr + i) c) as Hpl.
    pose proof (Z.mod_pos_bound (fr + len - 1 - i) c) as Hpr.
    cbn [Reverse_loop]. int32_simpl.
    rewrite !rem_nonneg by lia. cbn.
    replace (fr + i) with (fr + Z.of_nat (List.length pre)) by lia.
    replace (fr + len - 1 - i)
      with (fr + Z.of_nat (List.length pre + S (List.length l))) by lia.
    rewrite (view_swap_ok _ _ _ x y).
    2,3: apply Z.mod_pos_bound; lia.
    2: lia.
    2: { rewrite Hslot by lia. rewrite HR'. by apply list_lookup_middle. }
    2: { rewrite Hslot by lia. rewrite HR', lookup_app_r by lia.
         replace (List.length pre + S (List.length l) - List.length pre)%nat
           with (S (List.length l)) by lia.
         cbn. by apply list_lookup_middle. }
    cbn.
    set (mem1 := <[_ := x]> (<[_ := y]> mem)).
    assert (List.length mem1 = List.length mem) as Hl1
      by (unfold mem1; by rewrite !length_insert).
    assert (rotate (Z.to_nat fr) mem1 = (pre ++ [y]) ++ l ++ x :: post) as HR1.
    { unfold mem1.
      replace (Z.to_nat ((fr + Z.of_nat (List.length pre + S (List.length l))) `mod` c))
        with (rotate_nat_add (Z.to_nat fr) (List.length pre + S (List.length l))
                (List.length (<[Z.to_nat ((fr + Z.of_nat (List.length pre)) `mod` c) := y]> mem)))
        by (rewrite length_insert; unfold rotate_nat_add, c;
            by rewrite Z2Nat.id by lia).
      rewrite rotate_insert_l by (rewrite length_insert; lia).
      replace (Z.to_nat ((fr + Z.of_nat (List.length pre)) `mod` c))
        with (rotate_nat_add (Z.to_nat fr) (List.length pre) (List.length mem))
        by (unfold rotate_nat_add, c; by rewrite Z2Nat.id by lia).
      rewrite rotate_insert_l by lia.
      rewrite HR', insert_ends. by rewrite <-app_assoc. }
    destruct (IH (pre ++ [y]) (x :: post) mem1 fr len (i + 1))
      as (mem' & Hrun & HR2 & Hl');
      try (rewrite ?Hl1, ?length_app; cbn; (done || lia)).
    exists mem'. unfold c. rewrite <-Hl1. rewrite Hrun.
    split_and!; [done| |congruence].
    rewrite HR2. cbn. by rewrite <-!app_assoc.
Qed.

(** [Reverse] reverses the front-to-back order; unlike [Rotate] it
    takes its modulus from the slice header and works on a wrapped
    window too. *)
Lemma Reverse_elems q :
  wf q →
  ∃ q', Reverse q = Ok q' ∧ wf q' ∧ elems q' = list.reverse (elems q) ∧
        length q' = length q ∧ Capacity q' = Capacity q ∧
        initCap q' = initCap q ∧ front q' = front q ∧ back q' = back q.
Proof.
  intros Hwf. pose proof Hwf as (Hc & Hf & Hl & Hb & Hm & Hic).
  pose proof (elems_length q Hwf) as Hlen.
  unfold Reverse. destruct (Z.leb_spec (length q) 1) as [Hle|Hgt].
  { exists q. split_and!; try done.
    destruct (elems q) as [|x [|y l]]; [done|done|cbn in Hlen; lia]. }
  int32_simpl.
  destruct (Reverse_loop_seg (elems q) []
              (drop (Z.to_nat (length q)) (rotate (Z.to_nat (front q)) (data q)))
              (data q) (front q) (length q) 0)
    as (mem' & Hrun & HR & Hl'); try (unfold Capacity in *; cbn; lia).
  { cbn. unfold elems. by rewrite take_drop. }
  rewrite Hlen, Z2Nat.id in Hrun by lia. fold (Capacity q) in Hrun.
  rewrite Hrun. cbn.
  set (q' := {| data := mem'; front := front q; back := back q;
                length := length q; initCap := initCap q |}).
  assert (Capacity q' = Capacity q) as Hc'.
  { unfold Capacity, q'. cbn. by rewrite Hl'. }
  exists q'. rewrite Hc'. split_and!; try done.
  - unfold wf. by rewrite Hc'.
  - unfold elems at 1, q'. cbn. rewrite HR. cbn.
    apply take_app_length'. rewrite length_reverse. lia.
Qed.

End WithElem.
End DequeOps.

(** ** Further facts about the stack *)

Module StackOps.
Import Stack StackFacts.
Section WithElem.
Context {T : Type} (zero : T).
Implicit Types (s : Stack (T:=T)) (i n : Z) (v x : T).

(** [Pop] returns the most recently pushed element and forgets it. *)
Lemma Pop_last s x rest :
  wf s → elems s = rest ++ [x] →
  ∃ s', Pop zero s = Ok (s', (x, true)) ∧ wf s' ∧ elems s' = rest ∧
        top s' = top s - 1 ∧ Capacity s' = Capacity s ∧
        initCap s' = initCap s.
Proof.
  intros Hwf He. pose proof Hwf as (Ht & Hc & Hic).
  pose proof (stack_elems_length s Hwf) as Hlen.
  rewrite He, length_app in Hlen. cbn in Hlen.
  assert (data s !! Z.to_nat (top s - 1) = Some x) as Hx.
  { rewrite <-(lookup_take_lt (data s) (Z.to_nat (top s))) by lia.
    fold (elems s). rewrite He.
    replace (Z.to_nat (top s - 1)) with (List.length rest) by lia.
    by apply list_lookup_middle. }
  set (s' := {| data := data s; top := top s - 1; initCap := initCap s |}).
  exists s'. split_and!; try done.
  - unfold Pop. destruct (Z.leb_spec (top s) 0); [lia|].
    int32_simpl.
    by rewrite (view_index_ok _ _ x) by (done || unfold Capacity in *; lia).
  - unfold wf, s', Capacity in *. cbn. lia.
  - unfold elems in *. cbn.
    replace (Z.to_nat (top s - 1)) with (List.length rest) by lia.
    transitivity (take (List.length rest) (take (Z.to_nat (top s)) (data s))).
    + rewrite take_take. f_equal. lia.
    + rewrite He. apply take_app_length.
Qed.

Lemma Top_last s x rest :
  wf s → elems s = rest ++ [x] → Top zero s = Ok (x, true).
Proof.
  intros Hwf He. pose proof Hwf as (Ht & Hc & Hic).
  pose proof (stack_elems_length s Hwf) as Hlen.
  rewrite He, length_app in Hlen. cbn in Hlen.
  unfold Top. destruct (Z.leb_spec (top s) 0); [lia|].
  int32_simpl.
  rewrite (view_index_ok _ _ x); [done|unfold Capacity in *; lia|].
  rewrite <-(lookup_take_lt (data s) (Z.to_nat (top s))) by lia.
  fold (elems s). rewrite He.
  replace (Z.to_nat (top s - 1)) with (List.length rest) by lia.
  by apply list_lookup_middle.
Qed.

(** [Set] at an index inside the stack replaces the element that many
    places below the top. *)
Lemma stack_Set_inrange s i v :
  wf s → 0 ≤ resolve i (top s) < top s →
  ∃ s', Set_ s i v = Ok (s', true) ∧ wf s' ∧
        elems s' = <[Z.to_nat (top s - 1 - resolve i (top s)) := v]> (elems s) ∧
        top s' = top s ∧ Capacity s' = Capacity s ∧ initCap s' = initCap s.
Proof.
  intros Hwf Hin. pose proof Hwf as (Ht & Hc & Hic).
  set (r := resolve i (top s)) in *.
  set (s' := {| data := <[Z.to_nat (top s - 1 - r) := v]> (data s);
                top := top s; initCap := initCap s |}).
  assert (Capacity s' = Capacity s) as Hc'.
  { unfold Capacity, s'. cbn. by rewrite length_insert. }
  exists s'. rewrite Hc'. split_and!; try done.
  - unfold Set_. fold r.
    destruct (Z.ltb_spec r 0); [lia|].
    destruct (Z.leb_spec (top s) r); [lia|]. cbn.
    rewrite view_prefix_ok by (unfold Capacity in *; lia). cbn.
    rewrite (take_ge (data s)) by (unfold Capacity; lia).
    rewrite store_ok by (unfold Capacity in *; lia). cbn.
    unfold write_back. rewrite drop_ge, app_nil_r; [done|].
    unfold Capacity. lia.
  - unfold wf. by rewrite Hc'.
  - unfold elems, s'. cbn. by rewrite take_insert_lt by lia.
Qed.

(** The loop of [Reverse] reverses the segment between its cursors. *)
Lemma stack_Reverse_loop_seg (mid : list T) :
  ∀ (pre post : list T) (tp i : Z),
    Z.of_nat (List.length pre) = i →
    Z.of_nat (List.length pre) + Z.of_nat (List.length mid) = tp - i →
    Reverse_loop tp (Z.to_nat (Z.quot (Z.of_nat (List.length mid)) 2)) i
      (pre ++ mid ++ post)
    = Ok (pre ++ list.reverse mid ++ post).
Proof.
  induction mid as [|x|x y l IH] using list_ends_ind;
    intros pre post tp i Hi Hm.
  - done.
  - done.
  - rewrite reverse_cons, reverse_snoc.
    assert (List.length (x :: l ++ [y]) = S (S (List.length l))) as Hl2
      by (cbn; rewrite length_app; cbn; lia).
    rewrite Hl2 in *.
    assert (Z.to_nat (Z.quot (Z.of_nat (S (S (List.length l)))) 2)
            = S (Z.to_nat (Z.quot (Z.of_nat (List.length l)) 2))) as ->.
    { rewrite !Z.quot_div_nonneg by lia.
      replace (Z.of_nat (S (S (List.length l))))
        with (Z.of_nat (List.length l) + 1 * 2) by lia.
      rewrite Z.div_add by lia.
      pose proof (Z.div_pos (Z.of_nat (List.length l)) 2). lia. }
    cbn [Reverse_loop].
    replace i with (Z.of_nat (List.length pre)) by lia.
    replace (tp - 1 - Z.of_nat (List.length pre))
      with (Z.of_nat (List.length pre + S (List.length l))) by lia.
    replace (pre ++ (x :: l ++ [y]) ++ post) with (pre ++ x :: l ++ y :: post)
      by (cbn; by rewrite <-app_assoc).
    rewrite slice_swap_ends. cbn.
    replace (pre ++ y :: l ++ x :: post) with ((pre ++ [y]) ++ l ++ x :: post)
      by (by rewrite <-app_assoc).
    rewrite (IH (pre ++ [y]) (x :: post) tp (Z.of_nat (List.length pre) + 1))
      by (rewrite ?length_app; cbn; lia).
    cbn. by rewrite <-!app_assoc.
Qed.

(** [Reverse] reverses the bottom-to-top order (and so the top-down
    one). *)
Lemma stack_Reverse_elems s :
  wf s →
  ∃ s', Reverse s = Ok s' ∧ wf s' ∧ elems s' = list.reverse (elems s) ∧
        top s' = top s ∧ Capacity s' = Capacity s ∧ initCap s' = initCap s.
Proof.
  intros Hwf. pose proof Hwf as (Ht & Hc & Hic).
  pose proof (stack_elems_length s Hwf) as Hlen.
  set (d' := list.reverse (elems s) ++ drop (Z.to_nat (top s)) (data s)).
  assert (data s = [] ++ elems s ++ drop (Z.to_nat (top s)) (data s)) as Hd.
  { cbn. unfold elems. by rewrite take_drop. }
  assert (Reverse_loop (top s) (Z.to_nat (Z.quot (top s) 2)) 0 (data s)
          = Ok d') as Hloop.
  { rewrite Hd at 1.
    replace (Z.to_nat (Z.quot (top s) 2))
      with (Z.to_nat (Z.quot (Z.of_nat (List.length (elems s))) 2))
      by (rewrite Hlen, Z2Nat.id by lia; done).
    rewrite stack_Reverse_loop_seg by (cbn; lia). done. }
  assert (List.length d' = List.length (data s)) as Hl'.
  { unfold d'. rewrite Hd at 2. cbn. by rewrite !length_app, length_reverse. }
  assert (write_back (data s) (Capacity s) d' = d') as Hwb.
  { unfold write_back. rewrite drop_ge, app_nil_r; [done|]. unfold Capacity. lia. }
  exists {| data := d'; top := top s; initCap := initCap s |}.
  split_and!; try done.
  - unfold Reverse.
    rewrite view_prefix_ok by (unfold Capacity in *; lia). cbn.
    rewrite (take_ge (data s)) by (unfold Capacity; lia).
    rewrite Hloop. cbn. by rewrite Hwb.
  - unfold wf, Capacity in *. cbn. rewrite Hl'. done.
  - unfold elems at 1. cbn. unfold d'. apply take_app_length'.
    rewrite length_reverse. lia.
  - unfold Capacity. cbn. by rewrite Hl'.
Qed.

(** A push onto storage of capacity zero allocates [initCap] slots. *)
Lemma Push_unallocated s v :
  wf s → Capacity s = 0 → initCap s ≤ view_len →
  ∃ s', Push zero s v = Ok s' ∧ wf s' ∧ elems s' = [v] ∧ top s' = 1 ∧
        Capacity s' = initCap s ∧ initCap s' = initCap s.
Proof.
  intros Hwf H0 Hi. pose proof Hwf as (Ht & Hc & Hic).
  assert (top s = 0) as Htop by lia.
  assert (elems s = []) as He by (unfold elems; rewrite Htop; apply take_0).
  set (d1 := replicate (Z.to_nat (initCap s)) zero).
  exists {| data := <[0%nat := v]> d1; top := 1; initCap := initCap s |}.
  assert (List.length d1 = Z.to_nat (initCap s)) as Hl1
    by apply length_replicate.
  split_and!; try done.
  - unfold Push. rewrite H0, Htop. cbn.
    change (0 * 2 =? 0) with true. cbn match.
    rewrite stack_internalResize_ok by (done || lia).
    rewrite He, Htop. cbn. rewrite Nat.sub_0_r. fold d1.
    by rewrite view_store_ok by lia.
  - unfold wf, Capacity. cbn. rewrite length_insert. lia.
  - unfold elems. cbn. destruct d1; [cbn in Hl1; lia|done].
  - unfold Capacity. cbn. rewrite length_insert. lia.
Qed.

(** [Push] puts the value on top, whatever the state of the storage. *)
Lemma Push_any s v :
  wf s →
  top s < Capacity s ∨ (2 * Capacity s ≤ view_len ∧ initCap s ≤ view_len) →
  ∃ s', Push zero s v = Ok s' ∧ wf s' ∧ elems s' = elems s ++ [v] ∧
        top s' = top s + 1 ∧ initCap s' = initCap s ∧
        Capacity s' = (if top s <? Capacity s then Capacity s
                       else if Capacity s =? 0 then initCap s
                       else 2 * Capacity s).
Proof.
  intros Hwf Hroom. pose proof Hwf as (Ht & Hc & Hic).
  destruct (Z.ltb_spec (top s) (Capacity s)) as [Hlt|Hge].
  - exists (pushed s v). rewrite Push_room by done.
    split_and!; try done.
    + by apply stack_wf_pushed.
    + by apply stack_elems_pushed.
    + apply stack_Capacity_pushed.
  - destruct Hroom as [?|[Hb Hi]]; [lia|].
    destruct (Z.eqb_spec (Capacity s) 0) as [H0|Hn0].
    + destruct (Push_unallocated s v Hwf H0 Hi)
        as (s' & Hs' & Hwf' & He' & Ht' & Hc' & Hi').
      exists s'. split_and!; try done; [|lia].
      rewrite He'. unfold elems. replace (top s) with 0 by lia.
      by rewrite take_0.
    + destruct (Push_grow zero s v Hwf) as (s' & Hs' & Hwf' & He' & Ht' & Hc' & Hi');
        [lia..|].
      exists s'. by split_and!.
Qed.

(** A run of pushes appends the values, growing the storage as often
    as it has to. *)
Lemma Push_all_any s vs :
  wf s → 2 * (top s + Z.of_nat (List.length vs)) ≤ view_len →
  initCap s ≤ view_len →
  ∃ s', Push_all zero s vs = Ok s' ∧ wf s' ∧ elems s' = elems s ++ vs ∧
        top s' = top s + Z.of_nat (List.length vs) ∧ initCap s' = initCap s ∧
        Capacity s ≤ Capacity s'.
Proof.
  revert s. induction vs as [|v vs IH]; intros s Hwf Hfit Hi; cbn in *.
  - exists s. rewrite app_nil_r. split_and!; (done || lia).
  - pose proof Hwf as (Ht & Hc & Hic).
    destruct (Push_any s v Hwf) as (s1 & Hs1 & Hwf1 & He1 & Ht1 & Hi1 & Hc1).
    { destruct (Z.ltb_spec (top s) (Capacity s)); [by left|right; lia]. }
    destruct (IH s1 Hwf1) as (s' & Hs' & Hwf' & He' & Ht' & Hi' & Hc'); [lia..|].
    exists s'. rewrite Hs1. cbn. rewrite Hs', He', He1, Ht', Ht1, Hi', Hi1.
    rewrite <-app_assoc. split_and!; try (done || lia).
    revert Hc1. destruct (top s <? Capacity s); [lia|].
    destruct (Z.eqb_spec (Capacity s) 0); lia.
Qed.

(** A run of pops returns the elements from the top down. *)
Lemma Pop_collect_suffix (suf : list T) :
  ∀ s pre, wf s → elems s = pre ++ suf →
  ∃ s', Runs.Pop_collect zero (List.length suf) s
        = Ok (s', Runs.found <$> list.reverse suf) ∧
        wf s' ∧ elems s' = pre ∧
        Capacity s' = Capacity s ∧ initCap s' = initCap s.
Proof.
  induction suf as [|x suf IH] using rev_ind; intros s pre Hwf He.
  - exists s. rewrite app_nil_r in He. by cbn.
  - rewrite app_assoc in He.
    destruct (Pop_last s x (pre ++ suf) Hwf He)
      as (s1 & Hs1 & Hwf1 & He1 & _ & Hc1 & Hi1).
    destruct (IH s1 pre Hwf1 He1) as (s' & Hs' & Hwf' & He' & Hc' & Hi').
    exists s'. rewrite length_app, Nat.add_1_r. cbn.
    rewrite Hs1. cbn. rewrite Hs'. cbn.
    rewrite reverse_snoc. split_and!; (done || congruence).
Qed.

(** [Resize] to a capacity that holds every element keeps them and
    makes the capacity exactly the one asked for, also below the
    initial capacity. *)
Lemma Resize_keep s c :
  wf s → top s ≤ c →
  ∃ s', Resize zero s c = Ok s' ∧ elems s' = elems s ∧ top s' = top s ∧
        Capacity s' = c ∧ initCap s' = initCap s ∧ (c ≤ view_len → wf s').
Proof.
  intros Hwf Hc. pose proof Hwf as (Ht & Hcap & Hic).
  pose proof (stack_elems_length s Hwf) as Hlen.
  unfold Resize. destruct (Z.ltb_spec c (top s)); [lia|].
  rewrite stack_internalResize_ok by done.
  eexists. split; [done|].
  assert (Capacity {| data := elems s ++ replicate (Z.to_nat c - Z.to_nat (top s)) zero;
                      top := top s; initCap := initCap s |} = c) as Hc'.
  { unfold Capacity. cbn. rewrite length_app, length_replicate. lia. }
  split_and!; try done.
  - unfold elems at 1. cbn. apply take_app_length'. lia.
  - intros Hv. unfold wf. rewrite Hc'. cbn. lia.
Qed.

(** A negative capacity makes [Resize] panic in [make]. *)
Lemma Resize_negative s c : c < 0 → Resize zero s c = Err MakeSliceLen.
Proof.
  intros Hc. unfold Resize, internalResize, make.
  by destruct (Z.ltb_spec c 0); [|lia].
Qed.

(** [Clear] forgets the elements and keeps the storage. *)
Lemma stack_Clear_ok s :
  wf s →
  wf (Clear s) ∧ elems (Clear s) = [] ∧ top (Clear s) = 0 ∧
  Capacity (Clear s) = Capacity s ∧ initCap (Clear s) = initCap s.
Proof.
  intros (Ht & Hc & Hic). unfold wf, Clear, Capacity, elems in *. cbn.
  split_and!; (done || lia).
Qed.

End WithElem.
End StackOps.

(** ** Further facts about the queue *)

Module QueueOps.
Import Deque DequeFacts.
Section WithElem.
Context {T : Type} (zero : T).

(** [Clear] forgets the elements, keeps the storage and puts both
    cursors back at slot 0. *)
Lemma Clear_ok (q : Deque (T:=T)) :
  wf q →
  tight (Clear q) ∧ elems (Clear q) = [] ∧ length (Clear q) = 0 ∧
  Capacity (Clear q) = Capacity q ∧ initCap (Clear q) = initCap q.
Proof.
  intros (Hc & Hf & Hl & Hb & Hm & Hic).
  unfold tight, wf, Clear, Capacity, elems in *. cbn.
  split_and!; (done || lia).
Qed.

(** A run of [Queue.Push] is a run of [PushBack] on the deque inside. *)
Lemma Push_all_deque (q : Queue.Queue (T:=T)) vs :
  Queue.Push_all zero q vs
  = d' ← PushBack_all zero (Queue.d q) vs; Ok {| Queue.d := d' |}.
Proof.
  revert q. induction vs as [|v vs IH]; intros [dq]; cbn; [done|].
  unfold Queue.Push. cbn.
  destruct (PushBack zero dq v) as [d1|f]; cbn; [|done].
  by rewrite IH.
Qed.

(** A run of [Queue.Pop] is a run of [PopFront] on the deque inside. *)
Lemma Pop_collect_deque (n : nat) (q : Queue.Queue (T:=T)) :
  Queue.Pop_collect zero n q
  = '(d', rs) ← Runs.PopFront_collect zero n (Queue.d q);
    Ok ({| Queue.d := d' |}, rs).
Proof.
  revert q. induction n as [|n IH]; intros [dq]; cbn; [done|].
  unfold Queue.Pop. cbn.
  destruct (PopFront zero dq) as [[d1 r]|f]; cbn; [|done].
  rewrite IH. cbn.
  by destruct (Runs.PopFront_collect zero n d1) as [[d2 rs]|f].
Qed.

End WithElem.
End QueueOps.

(** ** Further properties of the deque *)



(** X2. On a deque in a consistent state (capacity at most
    [1 << 30]), a run of [PushFront] calls puts the values in front of
    the elements already there, the last one pushed first, through every
    reallocation on the way; twice the final count fits the array type
    behind the unsafe view. *)
Theorem X2_pushfront_prepends {T : Type} (zero : T)
    (q : Deque.Deque (T:=T)) (vs : list T) :
  Deque.wf q →
  2 * (Deque.length q + Z.of_nat (List.length vs)) ≤ view_len →
  ∃ q', Runs.PushFront_all zero q vs = Ok q' ∧ Deque.wf q' ∧
        Deque.elems q' = list.reverse vs ++ Deque.elems q ∧
        Deque.length q' = Deque.length q + Z.of_nat (List.length vs) ∧
        Deque.initCap q' = Deque.initCap q ∧
        Deque.Capacity q ≤ Deque.Capacity q'.
Proof. apply DequeOps.PushFront_all_any. Qed.

Lemma X2_pushfront_prepends_witness :
  Deque.wf wrapped5_state ∧
  ∃ q', Runs.PushFront_all 0 wrapped5_state [6; 7; 8; 9] = Ok q' ∧
        Deque.wf q' ∧
        Deque.elems q' = [9; 8; 7; 6] ++ Deque.elems wrapped5_state ∧
        Deque.length q' = 5 + 4 ∧ Deque.initCap q' = 8 ∧
        Deque.Capacity wrapped5_state ≤ Deque.Capacity q'.
Proof.
  assert (Deque.wf wrapped5_state) as Hq by wf_concrete.
  split; [done|].
  apply (X2_pushfront_prepends 0 wrapped5_state [6; 7; 8; 9] Hq).
  vm_compute. discriminate.
Defined.

(** X3. [PopFront] on a non-empty deque returns the first element with
    [true] and leaves the others in their order; the capacity is kept. *)
Theorem X3_popfront_first {T : Type} (zero : T)
    (q : Deque.Deque (T:=T)) (x : T) (rest : list T) :
  Deque.wf q → Deque.elems q = x :: rest →
  ∃ q', Deque.PopFront zero q = Ok (q', (x, true)) ∧ Deque.wf q' ∧
        Deque.elems q' = rest ∧ Deque.length q' = Deque.length q - 1 ∧
        Deque.Capacity q' = Deque.Capacity q.
Proof.
  intros Hq He.
  destruct (DequeOps.PopFront_head zero q x rest Hq He)
    as (q' & ? & ? & ? & ? & ? & _).
  by exists q'.
Qed.

Lemma X3_popfront_first_witness :
  Deque.wf wrapped5_state ∧ Deque.elems wrapped5_state = [1; 2; 3; 4; 5] ∧
  ∃ q', Deque.PopFront 0 wrapped5_state = Ok (q', (1, true)) ∧ Deque.wf q' ∧
        Deque.elems q' = [2; 3; 4; 5] ∧
        Deque.length q' = Deque.length wrapped5_state - 1 ∧
        Deque.Capacity q' = Deque.Capacity wrapped5_state.
Proof.
  assert (Deque.wf wrapped5_state) as Hq by wf_concrete.
  assert (Deque.elems wrapped5_state = [1; 2; 3; 4; 5]) as He by reflexivity.
  split_and!; [done..|].
  apply (X3_popfront_first 0 wrapped5_state 1 [2; 3; 4; 5] Hq He).
Defined.





(** X6. [Set] at an index that resolves inside the deque (negative
    indices count from the back) returns [true] and replaces exactly
    that element; [At] at the same index then returns the new value.
    Length and capacity are kept. *)
Theorem X6_set_then_at {T : Type} (zero : T)
    (q : Deque.Deque (T:=T)) (i : Z) (v : T) :
  Deque.wf q →
  0 ≤ Deque.resolve i (Deque.length q) < Deque.length q →
  ∃ q', Deque.Set_ q i v = Ok (q', true) ∧
        Deque.elems q'
        = <[Z.to_nat (Deque.resolve i (Deque.length q)) := v]> (Deque.elems q) ∧
        Deque.At zero q' i = Ok (v, true) ∧
        Deque.length q' = Deque.length q ∧
        Deque.Capacity q' = Deque.Capacity q.
Proof.
  intros Hq Hin.
  destruct (DequeOps.Set_inrange q i v Hq Hin)
    as (q' & Hset & Hq' & He & Hl & Hc & _).
  exists q'. split_and!; try done.
  set (r := Deque.resolve i (Deque.length q)) in *.
  destruct (DequeFacts.At_inrange zero q' r Hq') as (x & Hx & Hat); [lia|].
  rewrite (DequeFacts.At_resolve zero q' i r).
  - rewrite Hat. rewrite He, list_lookup_insert_eq in Hx; [by injection Hx as ->|].
    rewrite DequeFacts.elems_length by done. lia.
  - rewrite Hl. fold r. by rewrite DequeFacts.resolve_nonneg by lia.
Qed.

Lemma X6_set_then_at_witness :
  Deque.wf wrapped5_state ∧
  0 ≤ Deque.resolve (-2) (Deque.length wrapped5_state)
  < Deque.length wrapped5_state ∧
  ∃ q', Deque.Set_ wrapped5_state (-2) 40 = Ok (q', true) ∧
        Deque.elems q'
        = <[Z.to_nat (Deque.resolve (-2) (Deque.length wrapped5_state)) := 40]>
            (Deque.elems wrapped5_state) ∧
        Deque.At 0 q' (-2) = Ok (40, true) ∧
        Deque.length q' = Deque.length wrapped5_state ∧
        Deque.Capacity q' = Deque.Capacity wrapped5_state.
Proof.
  assert (Deque.wf wrapped5_state) as Hq by wf_concrete.
  assert (0 ≤ Deque.resolve (-2) (Deque.length wrapped5_state)
          < Deque.length wrapped5_state) as Hin by wf_concrete.
  split_and!; [done..|].
  apply (X6_set_then_at 0 wrapped5_state (-2) 40 Hq Hin).
Defined.

(** X7. [Swap] of two different indices that resolve inside the deque
    returns [true] and exchanges the two elements, leaving every other
    element, the length and the capacity as they were. *)
Theorem X7_swap_exchanges {T : Type}
    (q : Deque.Deque (T:=T)) (i j : Z) (x y : T) :
  Deque.wf q → i ≠ j →
  0 ≤ Deque.resolve i (Deque.length q) < Deque.length q →
  0 ≤ Deque.resolve j (Deque.length q) < Deque.length q →
  Deque.elems q !! Z.to_nat (Deque.resolve i (Deque.length q)) = Some x →
  Deque.elems q !! Z.to_nat (Deque.resolve j (Deque.length q)) = Some y →
  ∃ q', Deque.Swap q i j = Ok (q', true) ∧ Deque.wf q' ∧
        Deque.elems q'
        = <[Z.to_nat (Deque.resolve j (Deque.length q)) := x]>
            (<[Z.to_nat (Deque.resolve i (Deque.length q)) := y]>
               (Deque.elems q)) ∧
        Deque.length q' = Deque.length q ∧
        Deque.Capacity q' = Deque.Capacity q.
Proof.
  intros Hq Hij Hi Hj Hx Hy.
  destruct (DequeOps.Swap_inrange q i j x y Hq Hij Hi Hj Hx Hy)
    as (q' & ? & ? & ? & ? & ? & _).
  by exists q'.
Qed.

Lemma X7_swap_exchanges_witness :
  Deque.wf wrapped5_state ∧ 1 ≠ -1 ∧
  0 ≤ Deque.resolve 1 (Deque.length wrapped5_state)
  < Deque.length wrapped5_state ∧
  0 ≤ Deque.resolve (-1) (Deque.length wrapped5_state)
  < Deque.length wrapped5_state ∧
  ∃ q', Deque.Swap wrapped5_state 1 (-1) = Ok (q', true) ∧ Deque.wf q' ∧
        Deque.elems q'
        = <[Z.to_nat (Deque.resolve (-1) (Deque.length wrapped5_state)) := 2]>
            (<[Z.to_nat (Deque.resolve 1 (Deque.length wrapped5_state)) := 5]>
               (Deque.elems wrapped5_state)) ∧
        Deque.length q' = Deque.length wrapped5_state ∧
        Deque.Capacity q' = Deque.Capacity wrapped5_state.
Proof.
  assert (Deque.wf wrapped5_state) as Hq by wf_concrete.
  assert (1 ≠ -1) as Hij by discriminate.
  assert (0 ≤ Deque.resolve 1 (Deque.length wrapped5_state)
          < Deque.length wrapped5_state) as Hi by wf_concrete.
  assert (0 ≤ Deque.resolve (-1) (Deque.length wrapped5_state)
          < Deque.length wrapped5_state) as Hj by wf_concrete.
  split_and!; [done..|].
  apply (X7_swap_exchanges wrapped5_state 1 (-1) 2 5 Hq Hij Hi Hj);
    reflexivity.
Defined.

(** X8. [Reverse] reverses the order of the elements of every deque,
    also one whose window wraps past the end of the storage; length,
    capacity and cursors are kept, and a second [Reverse] puts the
    elements back. *)
Theorem X8_reverse_reverses {T : Type} (q : Deque.Deque (T:=T)) :
  Deque.wf q →
  ∃ q1 q2, Deque.Reverse q = Ok q1 ∧ Deque.wf q1 ∧
           Deque.elems q1 = list.reverse (Deque.elems q) ∧
           Deque.length q1 = Deque.length q ∧
           Deque.Capacity q1 = Deque.Capacity q ∧
           Deque.front q1 = Deque.front q ∧ Deque.back q1 = Deque.back q ∧
           Deque.Reverse q1 = Ok q2 ∧ Deque.elems q2 = Deque.elems q.
Proof.
  intros Hq.
  destruct (DequeOps.Reverse_elems q Hq)
    as (q1 & Hr1 & Hq1 & He1 & Hl1 & Hc1 & _ & Hf1 & Hb1).
  destruct (DequeOps.Reverse_elems q1 Hq1) as (q2 & Hr2 & _ & He2 & _).
  exists q1, q2. split_and!; try done.
  by rewrite He2, He1, reverse_involutive.
Qed.

Lemma X8_reverse_reverses_witness :
  Deque.wf wrapped5_state ∧
  ∃ q1 q2, Deque.Reverse wrapped5_state = Ok q1 ∧ Deque.wf q1 ∧
           Deque.elems q1 = list.reverse (Deque.elems wrapped5_state) ∧
           Deque.length q1 = Deque.length wrapped5_state ∧
           Deque.Capacity q1 = Deque.Capacity wrapped5_state ∧
           Deque.front q1 = Deque.front wrapped5_state ∧
           Deque.back q1 = Deque.back wrapped5_state ∧
           Deque.Reverse q1 = Ok q2 ∧
           Deque.elems q2 = Deque.elems wrapped5_state.
Proof.
  assert (Deque.wf wrapped5_state) as Hq by wf_concrete.
  split; [done|]. apply (X8_reverse_reverses wrapped5_state Hq).
Defined.

(** X9. On a deque in a consistent state (capacity at most
    [1 << 30]) whose window does not wrap, [Rotate(n)] moves every
    element [n] places towards the back, cyclically (for negative [n],
    towards the front), and [Rotate(-n)] afterwards puts the elements
    back. *)
Theorem X9_rotate_unwrapped {T : Type} (q : Deque.Deque (T:=T)) (n : Z) :
  Deque.wf q → Deque.unwrapped q →
  ∃ q1 q2, Deque.Rotate q n = Ok q1 ∧
           Deque.elems q1
           = rotate (Z.to_nat ((- n) `mod` Deque.length q)) (Deque.elems q) ∧
           Deque.length q1 = Deque.length q ∧
           Deque.Capacity q1 = Deque.Capacity q ∧
           Deque.Rotate q1 (- n) = Ok q2 ∧ Deque.elems q2 = Deque.elems q.
Proof.
  intros Hq Hu.
  destruct (DequeFacts.Rotate_unwrapped_elems q n Hq Hu)
    as (q' & Hr & He & Hl & _ & _ & Hc & _).
  destruct (DequeFacts.Rotate_there_and_back q n Hq Hu)
    as (q1 & q2 & Hr1 & Hr2 & He2).
  assert (q' = q1) as -> by congruence.
  exists q1, q2. by split_and!.
Qed.

Lemma X9_rotate_unwrapped_witness :
  Deque.wf deque5_state ∧ Deque.unwrapped deque5_state ∧
  ∃ q1 q2, Deque.Rotate deque5_state 2 = Ok q1 ∧
           Deque.elems q1
           = rotate (Z.to_nat ((- 2) `mod` Deque.length deque5_state))
               (Deque.elems deque5_state) ∧
           Deque.length q1 = Deque.length deque5_state ∧
           Deque.Capacity q1 = Deque.Capacity deque5_state ∧
           Deque.Rotate q1 (- 2) = Ok q2 ∧
           Deque.elems q2 = Deque.elems deque5_state.
Proof.
  assert (Deque.wf deque5_state) as Hq by wf_concrete.
  assert (Deque.unwrapped deque5_state) as Hu by (vm_compute; discriminate).
  split_and!; [done..|].
  apply (X9_rotate_unwrapped deque5_state 2 Hq Hu).
Defined.

(** X10. [Rotate] depends on [n] only through its residue: rotating the
    deque or the stack by its count gives back the state as it was, and
    [Rotate(n)] is [Rotate] by [n mod count] and by Go's [n % count]. *)
Theorem X10_rotate_residue {T : Type}
    (q : Deque.Deque (T:=T)) (s : Stack.Stack (T:=T)) (n : Z) :
  Deque.Rotate q (Deque.length q) = Ok q ∧
  Deque.Rotate q (n `mod` Deque.length q) = Deque.Rotate q n ∧
  Deque.Rotate q (Z.rem n (Deque.length q)) = Deque.Rotate q n ∧
  Stack.Rotate s (Stack.top s) = Ok s ∧
  Stack.Rotate s (n `mod` Stack.top s) = Stack.Rotate s n ∧
  Stack.Rotate s (Z.rem n (Stack.top s)) = Stack.Rotate s n.
Proof.
  destruct (DequeFacts.Rotate_residue q n).
  destruct (StackFacts.stack_Rotate_residue s n).
  split_and!; try done.
  - apply DequeFacts.Rotate_count.
  - apply StackFacts.stack_Rotate_count.
Qed.

(** X11. [ShrinkToFit] on a deque that holds at least [initCap]
    elements in larger storage makes the capacity the count and leaves
    [back] equal to it.  After one [PopFront] the deque is no longer
    full, and the next [PushBack] stores at slot [back], one past the
    end of the backing array. *)
Theorem X11_push_after_shrink {T : Type} (zero : T)
    (q : Deque.Deque (T:=T)) (v : T) :
  Deque.wf q →
  Deque.initCap q ≤ Deque.length q < Deque.Capacity q →
  ∃ q1 q2 r, Deque.ShrinkToFit zero q = Ok q1 ∧
             Deque.Capacity q1 = Deque.length q ∧
             Deque.back q1 = Deque.Capacity q1 ∧
             Deque.PopFront zero q1 = Ok (q2, r) ∧
             Deque.PushBack zero q2 v = Err OutsideAllocation.
Proof.
  intros Hq Hfit. pose proof Hq as (Hc & _ & _ & _ & _ & Hic).
  destruct (DequeOps.ShrinkToFit_exact zero q Hq Hfit)
    as (q1 & Hs & Hq1 & He1 & Hc1 & Hl1 & Hb1 & _).
  pose proof (DequeFacts.elems_length q1 Hq1) as Hlen.
  destruct (Deque.elems q1) as [|x rest] eqn:Hx; [cbn in Hlen; lia|].
  destruct (DequeOps.PopFront_head zero q1 x rest Hq1 Hx)
    as (q2 & Hp & Hq2 & _ & Hl2 & Hc2 & _ & Hb2).
  exists q1, q2, (x, true). split_and!; try done.
  apply DequeOps.PushBack_past_end; (done || lia).
Qed.

Lemma X11_push_after_shrink_witness :
  Deque.wf MoreSamples.long9_state ∧
  Deque.initCap MoreSamples.long9_state ≤ Deque.length MoreSamples.long9_state
  < Deque.Capacity MoreSamples.long9_state ∧
  ∃ q1 q2 r, Deque.ShrinkToFit 0 MoreSamples.long9_state = Ok q1 ∧
             Deque.Capacity q1 = Deque.length MoreSamples.long9_state ∧
             Deque.back q1 = Deque.Capacity q1 ∧
             Deque.PopFront 0 q1 = Ok (q2, r) ∧
             Deque.PushBack 0 q2 10 = Err OutsideAllocation.
Proof.
  assert (Deque.wf MoreSamples.long9_state) as Hq by wf_concrete.
  assert (Deque.initCap MoreSamples.long9_state
          ≤ Deque.length MoreSamples.long9_state
          < Deque.Capacity MoreSamples.long9_state) as Hfit by wf_concrete.
  split_and!; [done..|].
  apply (X11_push_after_shrink 0 MoreSamples.long9_state 10 Hq Hfit).
Defined.

(** X12. On a deque in a consistent state (capacity at most
    [1 << 30]), [Clear] empties the deque and keeps its storage and
    [initCap]; the cleared deque takes pushes like a fresh one: after a
    run of [PushBack] calls it holds exactly the values pushed (twice
    their number fits the array type behind the unsafe view). *)
Theorem X12_clear_and_reuse {T : Type} (zero : T)
    (q : Deque.Deque (T:=T)) (vs : list T) :
  Deque.wf q → 2 * Z.of_nat (List.length vs) ≤ view_len →
  Deque.length (Deque.Clear q) = 0 ∧ Deque.elems (Deque.Clear q) = [] ∧
  Deque.Capacity (Deque.Clear q) = Deque.Capacity q ∧
  ∃ q', Deque.PushBack_all zero (Deque.Clear q) vs = Ok q' ∧
        Deque.tight q' ∧ Deque.elems q' = vs ∧
        Deque.length q' = Z.of_nat (List.length vs) ∧
        Deque.initCap q' = Deque.initCap q ∧
        Deque.Capacity q ≤ Deque.Capacity q'.
Proof.
  intros Hq Hfit.
  destruct (QueueOps.Clear_ok q Hq) as (Ht & He & Hl & Hc & Hi).
  split_and!; try done.
  destruct (DequeOps.PushBack_all_any zero (Deque.Clear q) vs Ht)
    as (q' & Hp & Ht' & He' & Hl' & Hi' & Hc'); [rewrite Hl; lia|].
  exists q'. rewrite He in He'. rewrite Hl in Hl'. rewrite Hc in Hc'.
  split_and!; (done || lia || congruence).
Qed.

Lemma X12_clear_and_reuse_witness :
  Deque.wf wrapped5_state ∧
  Deque.length (Deque.Clear wrapped5_state) = 0 ∧
  Deque.elems (Deque.Clear wrapped5_state) = [] ∧
  Deque.Capacity (Deque.Clear wrapped5_state) = Deque.Capacity wrapped5_state ∧
  ∃ q', Deque.PushBack_all 0 (Deque.Clear wrapped5_state) [7; 8] = Ok q' ∧
        Deque.tight q' ∧ Deque.elems q' = [7; 8] ∧
        Deque.length q' = 2 ∧
        Deque.initCap q' = Deque.initCap wrapped5_state ∧
        Deque.Capacity wrapped5_state ≤ Deque.Capacity q'.
Proof.
  assert (Deque.wf wrapped5_state) as Hq by wf_concrete.
  split; [done|].
  apply (X12_clear_and_reuse 0 wrapped5_state [7; 8] Hq).
  vm_compute. discriminate.
Defined.

(** X13. A queue whose deque is in a consistent state with [back]
    below the capacity (which excludes the state [ShrinkToFit] to the
    exact count and [Copy] leave, where [back] equals the capacity) is
    first in, first out: after a run of [Push] calls, as many [Pop]
    calls as the queue holds elements return the elements it held
    before, oldest first, followed by the values pushed in the order of
    the pushes, each with [true]; the queue is then empty.  Twice the
    final count fits the array type behind the unsafe view. *)
Theorem X13_queue_fifo {T : Type} (zero : T)
    (q : Queue.Queue (T:=T)) (vs : list T) :
  Deque.tight (Queue.d q) →
  2 * (Queue.Len q + Z.of_nat (List.length vs)) ≤ view_len →
  ∃ q1 q2, Queue.Push_all zero q vs = Ok q1 ∧
           Queue.Len q1 = Queue.Len q + Z.of_nat (List.length vs) ∧
           Queue.Pop_collect zero (Z.to_nat (Queue.Len q1)) q1
           = Ok (q2, Runs.found <$> (Deque.elems (Queue.d q) ++ vs)) ∧
           Queue.Empty q2 = true.
Proof.
  intros Ht Hfit. unfold Queue.Len, Deque.Len in *.
  destruct (DequeOps.PushBack_all_any zero (Queue.d q) vs Ht Hfit)
    as (d1 & Hp & [Hd1 _] & He1 & Hl1 & _).
  pose proof (DequeFacts.elems_length d1 Hd1) as Hlen1.
  destruct (DequeOps.PopFront_collect_take zero (Z.to_nat (Deque.length d1)) d1 Hd1)
    as (d2 & Hc & Hd2 & He2 & _); [lia|].
  exists {| Queue.d := d1 |}, {| Queue.d := d2 |}.
  rewrite QueueOps.Push_all_deque, Hp, QueueOps.Pop_collect_deque. cbn.
  rewrite Hc. cbn. split_and!; try done.
  - by rewrite <-Hlen1, firstn_all, He1.
  - unfold Queue.Empty, Deque.Empty. cbn.
    pose proof (DequeFacts.elems_length d2 Hd2) as Hlen2.
    rewrite He2, <-Hlen1, drop_all in Hlen2. cbn in Hlen2.
    destruct Hd2 as (_ & _ & Hl2 & _). apply Z.eqb_eq. lia.
Qed.

Lemma X13_queue_fifo_witness :
  Deque.tight (Queue.d MoreSamples.queue5_state) ∧
  ∃ q1 q2, Queue.Push_all 0 MoreSamples.queue5_state [6; 7; 8; 9] = Ok q1 ∧
           Queue.Len q1 = Queue.Len MoreSamples.queue5_state + 4 ∧
           Queue.Pop_collect 0 (Z.to_nat (Queue.Len q1)) q1
           = Ok (q2, Runs.found <$>
                       (Deque.elems (Queue.d MoreSamples.queue5_state)
                        ++ [6; 7; 8; 9])) ∧
           Queue.Empty q2 = true.
Proof.
  assert (Deque.tight (Queue.d MoreSamples.queue5_state)) as Ht by wf_concrete.
  split; [done|].
  apply (X13_queue_fifo 0 MoreSamples.queue5_state [6; 7; 8; 9] Ht).
  vm_compute. discriminate.
Defined.

(** X14. Used at its back end, a deque in a consistent state with
    [back] below the capacity (which excludes the state [ShrinkToFit]
    to the exact count and [Copy] leave, where [back] equals the
    capacity) is last in, first out: after a run of [PushBack] calls, as
    many [PopBack] calls return the values pushed, the last one first,
    each with [true], and leave the elements the deque held before.
    Twice the final count fits the array type behind the unsafe
    view. *)
Theorem X14_back_lifo {T : Type} (zero : T)
    (q : Deque.Deque (T:=T)) (vs : list T) :
  Deque.tight q →
  2 * (Deque.length q + Z.of_nat (List.length vs)) ≤ view_len →
  ∃ q1 q2, Deque.PushBack_all zero q vs = Ok q1 ∧
           Runs.PopBack_collect zero (List.length vs) q1
           = Ok (q2, Runs.found <$> list.reverse vs) ∧
           Deque.elems q2 = Deque.elems q ∧
           Deque.Capacity q2 = Deque.Capacity q1.
Proof.
  intros Ht Hfit.
  destruct (DequeOps.PushBack_all_any zero q vs Ht Hfit)
    as (q1 & Hp & [Hq1 _] & He1 & _).
  destruct (DequeOps.PopBack_collect_suffix zero vs q1 (Deque.elems q) Hq1 He1)
    as (q2 & Hc & _ & He2 & Hc2 & _).
  by exists q1, q2.
Qed.

Lemma X14_back_lifo_witness :
  Deque.tight MoreSamples.full8_state ∧
  ∃ q1 q2, Deque.PushBack_all 0 MoreSamples.full8_state [9; 10; 11] = Ok q1 ∧
           Runs.PopBack_collect 0 3 q1
           = Ok (q2, Runs.found <$> list.reverse [9; 10; 11]) ∧
           Deque.elems q2 = Deque.elems MoreSamples.full8_state ∧
           Deque.Capacity q2 = Deque.Capacity q1.
Proof.
  assert (Deque.tight MoreSamples.full8_state) as Ht by wf_concrete.
  split; [done|].
  apply (X14_back_lifo 0 MoreSamples.full8_state [9; 10; 11] Ht).
  vm_compute. discriminate.
Defined.

(** X15. Values pushed at the front come out at the back in the order
    of the pushes: on an empty deque in a consistent state (capacity at
    most [1 << 30]), a run of [PushFront] calls followed by as many
    [PopBack] calls returns the values first pushed first; followed by
    as many [PopFront] calls instead, last pushed first.  Either way the
    deque ends empty.  Twice the number of values fits the array type
    behind the unsafe view. *)
Theorem X15_front_to_back {T : Type} (zero : T)
    (q : Deque.Deque (T:=T)) (vs : list T) :
  Deque.wf q → Deque.length q = 0 →
  2 * Z.of_nat (List.length vs) ≤ view_len →
  ∃ q1 q2 q3, Runs.PushFront_all zero q vs = Ok q1 ∧
              Runs.PopBack_collect zero (List.length vs) q1
              = Ok (q2, Runs.found <$> vs) ∧
              Deque.elems q2 = [] ∧
              Runs.PopFront_collect zero (List.length vs) q1
              = Ok (q3, Runs.found <$> list.reverse vs) ∧
              Deque.elems q3 = [].
Proof.
  intros Hq H0 Hfit.
  assert (Deque.elems q = []) as He0.
  { unfold Deque.elems. rewrite H0. apply take_0. }
  destruct (DequeOps.PushFront_all_any zero q vs Hq)
    as (q1 & Hp & Hq1 & He1 & _); [lia|].
  rewrite He0, app_nil_r in He1.
  destruct (DequeOps.PopBack_collect_suffix zero (list.reverse vs) q1 []
              Hq1 He1) as (q2 & Hc2 & _ & He2 & _).
  rewrite length_reverse, reverse_involutive in Hc2.
  destruct (DequeOps.PopFront_collect_take zero (List.length vs) q1 Hq1)
    as (q3 & Hc3 & _ & He3 & _); [by rewrite He1, length_reverse|].
  rewrite He1 in Hc3, He3.
  rewrite <-(length_reverse vs), firstn_all in Hc3.
  rewrite <-(length_reverse vs), drop_all in He3.
  rewrite length_reverse in Hc3.
  by exists q1, q2, q3.
Qed.

Lemma X15_front_to_back_witness :
  Deque.wf deque0_state ∧ Deque.length deque0_state = 0 ∧
  ∃ q1 q2 q3, Runs.PushFront_all 0 deque0_state [1; 2; 3] = Ok q1 ∧
              Runs.PopBack_collect 0 3 q1 = Ok (q2, Runs.found <$> [1; 2; 3]) ∧
              Deque.elems q2 = [] ∧
              Runs.PopFront_collect 0 3 q1
              = Ok (q3, Runs.found <$> list.reverse [1; 2; 3]) ∧
              Deque.elems q3 = [].
Proof.
  assert (Deque.wf deque0_state) as Hq by wf_concrete.
  assert (Deque.length deque0_state = 0) as H0 by reflexivity.
  split_and!; [done..|].
  apply (X15_front_to_back 0 deque0_state [1; 2; 3] Hq H0).
  vm_compute. discriminate.
Defined.

(** ** Further properties of the stack *)

(** X16. On a stack in a consistent state (capacity at most
    [1 << 30]), a run of [Push] calls puts the values on the stack in
    order, above the elements already there, through every reallocation
    on the way: storage of capacity zero is replaced by [initCap] slots,
    full storage is doubled.  The capacity never shrinks.  Twice the
    final count, and [initCap], fit the array type behind the unsafe
    view. *)
Theorem X16_push_appends {T : Type} (zero : T)
    (s : Stack.Stack (T:=T)) (vs : list T) :
  Stack.wf s →
  2 * (Stack.top s + Z.of_nat (List.length vs)) ≤ view_len →
  Stack.initCap s ≤ view_len →
  ∃ s', Stack.Push_all zero s vs = Ok s' ∧ Stack.wf s' ∧
        Stack.elems s' = Stack.elems s ++ vs ∧
        Stack.Length s' = Stack.Length s + Z.of_nat (List.length vs) ∧
        Stack.initCap s' = Stack.initCap s ∧
        Stack.Capacity s ≤ Stack.Capacity s'.
Proof. apply StackOps.Push_all_any. Qed.

Lemma X16_push_appends_witness :
  Stack.wf stack5_state ∧
  ∃ s', Stack.Push_all 0 stack5_state [5; 6; 7; 8] = Ok s' ∧ Stack.wf s' ∧
        Stack.elems s' = Stack.elems stack5_state ++ [5; 6; 7; 8] ∧
        Stack.Length s' = Stack.Length stack5_state + 4 ∧
        Stack.initCap s' = Stack.initCap stack5_state ∧
        Stack.Capacity stack5_state ≤ Stack.Capacity s'.
Proof.
  assert (Stack.wf stack5_state) as Hs by wf_concrete.
  split; [done|].
  apply (X16_push_appends 0 stack5_state [5; 6; 7; 8] Hs);
    vm_compute; discriminate.
Defined.

(** X17. On a non-empty stack [Top] returns the element pushed last
    with [true] and changes nothing; [Pop] returns the same element and
    leaves the elements below it, in storage of the same capacity. *)
Theorem X17_pop_top {T : Type} (zero : T)
    (s : Stack.Stack (T:=T)) (x : T) (rest : list T) :
  Stack.wf s → Stack.elems s = rest ++ [x] →
  Stack.Top zero s = Ok (x, true) ∧
  ∃ s', Stack.Pop zero s = Ok (s', (x, true)) ∧ Stack.wf s' ∧
        Stack.elems s' = rest ∧ Stack.Length s' = Stack.Length s - 1 ∧
        Stack.Capacity s' = Stack.Capacity s.
Proof.
  intros Hs He. split.
  - by apply (StackOps.Top_last zero s x rest).
  - destruct (StackOps.Pop_last zero s x rest Hs He)
      as (s' & ? & ? & ? & ? & ? & _).
    by exists s'.
Qed.

Lemma X17_pop_top_witness :
  Stack.wf stack5_state ∧ Stack.elems stack5_state = [0; 1; 2; 3] ++ [4] ∧
  Stack.Top 0 stack5_state = Ok (4, true) ∧
  ∃ s', Stack.Pop 0 stack5_state = Ok (s', (4, true)) ∧ Stack.wf s' ∧
        Stack.elems s' = [0; 1; 2; 3] ∧
        Stack.Length s' = Stack.Length stack5_state - 1 ∧
        Stack.Capacity s' = Stack.Capacity stack5_state.
Proof.
  assert (Stack.wf stack5_state) as Hs by wf_concrete.
  assert (Stack.elems stack5_state = [0; 1; 2; 3] ++ [4]) as He by reflexivity.
  split; [done|]. split; [done|].
  apply (X17_pop_top 0 stack5_state 4 [0; 1; 2; 3] Hs He).
Defined.

(** X18. A stack in a consistent state (capacity at most [1 << 30])
    is last in, first out: after a run of [Push] calls, as many [Pop]
    calls return the values pushed, the last one first, each with
    [true], and leave the elements the stack held before.  Twice the
    final count, and [initCap], fit the array type behind the unsafe
    view. *)
Theorem X18_stack_lifo {T : Type} (zero : T)
    (s : Stack.Stack (T:=T)) (vs : list T) :
  Stack.wf s →
  2 * (Stack.top s + Z.of_nat (List.length vs)) ≤ view_len →
  Stack.initCap s ≤ view_len →
  ∃ s1 s2, Stack.Push_all zero s vs = Ok s1 ∧
           Runs.Pop_collect zero (List.length vs) s1
           = Ok (s2, Runs.found <$> list.reverse vs) ∧
           Stack.elems s2 = Stack.elems s ∧
           Stack.Capacity s2 = Stack.Capacity s1.
Proof.
  intros Hs Hfit Hi.
  destruct (StackOps.Push_all_any zero s vs Hs Hfit Hi)
    as (s1 & Hp & Hs1 & He1 & _).
  destruct (StackOps.Pop_collect_suffix zero vs s1 (Stack.elems s) Hs1 He1)
    as (s2 & Hc & _ & He2 & Hc2 & _).
  by exists s1, s2.
Qed.

Lemma X18_stack_lifo_witness :
  Stack.wf stack5_state ∧
  ∃ s1 s2, Stack.Push_all 0 stack5_state [5; 6; 7; 8] = Ok s1 ∧
           Runs.Pop_collect 0 4 s1
           = Ok (s2, Runs.found <$> list.reverse [5; 6; 7; 8]) ∧
           Stack.elems s2 = Stack.elems stack5_state ∧
           Stack.Capacity s2 = Stack.Capacity s1.
Proof.
  assert (Stack.wf stack5_state) as Hs by wf_concrete.
  split; [done|].
  apply (X18_stack_lifo 0 stack5_state [5; 6; 7; 8] Hs);
    vm_compute; discriminate.
Defined.

(** X19. On a stack in a consistent state (capacity at most
    [1 << 30]), [Set] at an index that resolves inside it (index 0 is
    the top, negative indices count from the bottom) returns [true] and
    replaces exactly the element that many places below the top; [At]
    at the same index then returns the new value. *)
Theorem X19_stack_set_then_at {T : Type} (zero : T)
    (s : Stack.Stack (T:=T)) (i : Z) (v : T) :
  Stack.wf s →
  0 ≤ Stack.resolve i (Stack.top s) < Stack.top s →
  ∃ s', Stack.Set_ s i v = Ok (s', true) ∧
        Stack.elems s'
        = <[Z.to_nat (Stack.top s - 1 - Stack.resolve i (Stack.top s)) := v]>
            (Stack.elems s) ∧
        Stack.At zero s' i = Ok (v, true) ∧
        Stack.Length s' = Stack.Length s ∧
        Stack.Capacity s' = Stack.Capacity s.
Proof.
  intros Hs Hin.
  destruct (StackOps.stack_Set_inrange s i v Hs Hin)
    as (s' & Hset & Hs' & He & Ht & Hc & _).
  exists s'. split_and!; try done.
  set (r := Stack.resolve i (Stack.top s)) in *.
  destruct (StackFacts.stack_At_inrange zero s' r Hs') as (x & Hx & Hat);
    [lia|].
  rewrite (StackFacts.stack_At_resolve zero s' i r).
  - rewrite Hat. rewrite He, Ht, list_lookup_insert_eq in Hx;
      [by injection Hx as ->|].
    rewrite StackFacts.stack_elems_length by done. lia.
  - rewrite Ht. fold r. by rewrite StackFacts.stack_resolve_nonneg by lia.
Qed.

Lemma X19_stack_set_then_at_witness :
  Stack.wf stack5_state ∧
  0 ≤ Stack.resolve (-1) (Stack.top stack5_state) < Stack.top stack5_state ∧
  ∃ s', Stack.Set_ stack5_state (-1) 40 = Ok (s', true) ∧
        Stack.elems s'
        = <[Z.to_nat (Stack.top stack5_state - 1
                      - Stack.resolve (-1) (Stack.top stack5_state)) := 40]>
            (Stack.elems stack5_state) ∧
        Stack.At 0 s' (-1) = Ok (40, true) ∧
        Stack.Length s' = Stack.Length stack5_state ∧
        Stack.Capacity s' = Stack.Capacity stack5_state.
Proof.
  assert (Stack.wf stack5_state) as Hs by wf_concrete.
  assert (0 ≤ Stack.resolve (-1) (Stack.top stack5_state)
          < Stack.top stack5_state) as Hin by wf_concrete.
  split_and!; [done..|].
  apply (X19_stack_set_then_at 0 stack5_state (-1) 40 Hs Hin).
Defined.

(** X20. On a stack in a consistent state (capacity at most
    [1 << 30]), [Reverse] reverses the order of the elements, so that
    the bottom element becomes the top; length and capacity are kept,
    and a second [Reverse] puts the elements back. *)
Theorem X20_stack_reverse {T : Type} (s : Stack.Stack (T:=T)) :
  Stack.wf s →
  ∃ s1 s2, Stack.Reverse s = Ok s1 ∧ Stack.wf s1 ∧
           Stack.elems s1 = list.reverse (Stack.elems s) ∧
           Stack.Length s1 = Stack.Length s ∧
           Stack.Capacity s1 = Stack.Capacity s ∧
           Stack.Reverse s1 = Ok s2 ∧ Stack.elems s2 = Stack.elems s.
Proof.
  intros Hs.
  destruct (StackOps.stack_Reverse_elems s Hs)
    as (s1 & Hr1 & Hs1 & He1 & Ht1 & Hc1 & _).
  destruct (StackOps.stack_Reverse_elems s1 Hs1) as (s2 & Hr2 & _ & He2 & _).
  exists s1, s2. split_and!; try done.
  by rewrite He2, He1, reverse_involutive.
Qed.

Lemma X20_stack_reverse_witness :
  Stack.wf stack5_state ∧
  ∃ s1 s2, Stack.Reverse stack5_state = Ok s1 ∧ Stack.wf s1 ∧
           Stack.elems s1 = list.reverse (Stack.elems stack5_state) ∧
           Stack.Length s1 = Stack.Length stack5_state ∧
           Stack.Capacity s1 = Stack.Capacity stack5_state ∧
           Stack.Reverse s1 = Ok s2 ∧
           Stack.elems s2 = Stack.elems stack5_state.
Proof.
  assert (Stack.wf stack5_state) as Hs by wf_concrete.
  split; [done|]. apply (X20_stack_reverse stack5_state Hs).
Defined.

(** X21. [Rotate(n)] on the stack always returns: it moves every
    element [n] places towards the top, cyclically (for negative [n],
    towards the bottom), keeps length and capacity, and [Rotate(-n)]
    afterwards puts the elements back. *)
Theorem X21_stack_rotate {T : Type} (s : Stack.Stack (T:=T)) (n : Z) :
  Stack.wf s →
  ∃ s1 s2, Stack.Rotate s n = Ok s1 ∧
           Stack.elems s1
           = rotate (Z.to_nat ((- n) `mod` Stack.top s)) (Stack.elems s) ∧
           Stack.Length s1 = Stack.Length s ∧
           Stack.Capacity s1 = Stack.Capacity s ∧
           Stack.Rotate s1 (- n) = Ok s2 ∧ Stack.elems s2 = Stack.elems s.
Proof.
  intros Hs.
  destruct (StackFacts.stack_Rotate_elems s n Hs)
    as (s' & Hr & He & Ht & Hc & _).
  destruct (StackFacts.stack_Rotate_there_and_back s n Hs)
    as (s1 & s2 & Hr1 & Hr2 & He2).
  assert (s' = s1) as -> by congruence.
  exists s1, s2. by split_and!.
Qed.

Lemma X21_stack_rotate_witness :
  Stack.wf stack5_state ∧
  ∃ s1 s2, Stack.Rotate stack5_state 7 = Ok s1 ∧
           Stack.elems s1
           = rotate (Z.to_nat ((- 7) `mod` Stack.top stack5_state))
               (Stack.elems stack5_state) ∧
           Stack.Length s1 = Stack.Length stack5_state ∧
           Stack.Capacity s1 = Stack.Capacity stack5_state ∧
           Stack.Rotate s1 (- 7) = Ok s2 ∧
           Stack.elems s2 = Stack.elems stack5_state.
Proof.
  assert (Stack.wf stack5_state) as Hs by wf_concrete.
  split; [done|]. apply (X21_stack_rotate stack5_state 7 Hs).
Defined.

(** X22. [Resize(c)] with [c] at least the count (and within the
    array type behind the unsafe view) keeps every element and makes the
    capacity exactly [c], whether that grows or shrinks the storage and
    also below [initCap], which stays as it was. *)
Theorem X22_resize_keeps {T : Type} (zero : T)
    (s : Stack.Stack (T:=T)) (c : Z) :
  Stack.wf s → Stack.top s ≤ c ≤ view_len →
  ∃ s', Stack.Resize zero s c = Ok s' ∧ Stack.wf s' ∧
        Stack.elems s' = Stack.elems s ∧ Stack.Length s' = Stack.Length s ∧
        Stack.Capacity s' = c ∧ Stack.initCap s' = Stack.initCap s.
Proof.
  intros Hs [Hc Hv].
  destruct (StackOps.Resize_keep zero s c Hs Hc)
    as (s' & ? & ? & ? & ? & ? & Hwf).
  exists s'. split_and!; try done. by apply Hwf.
Qed.

Lemma X22_resize_keeps_witness :
  Stack.wf stack5_state ∧ Stack.top stack5_state ≤ 6 ≤ view_len ∧
  ∃ s', Stack.Resize 0 stack5_state 6 = Ok s' ∧ Stack.wf s' ∧
        Stack.elems s' = Stack.elems stack5_state ∧
        Stack.Length s' = Stack.Length stack5_state ∧
        Stack.Capacity s' = 6 ∧
        Stack.initCap s' = Stack.initCap stack5_state.
Proof.
  assert (Stack.wf stack5_state) as Hs by wf_concrete.
  assert (Stack.top stack5_state ≤ 6 ≤ view_len) as Hc
    by (vm_compute; split; discriminate).
  split_and!; [done..|].
  apply (X22_resize_keeps 0 stack5_state 6 Hs Hc).
Defined.

(** X23. [Resize] with a negative capacity ends in the panic of
    [make] with a negative length, whatever the stack holds. *)
Theorem X23_resize_negative {T : Type} (zero : T)
    (s : Stack.Stack (T:=T)) (c : Z) :
  c < 0 → Stack.Resize zero s c = Err MakeSliceLen.
Proof. apply StackOps.Resize_negative. Qed.

Lemma X23_resize_negative_witness :
  -1 < 0 ∧ Stack.Resize 0 stack5_state (-1) = Err MakeSliceLen.
Proof.
  assert (-1 < 0) as Hc by reflexivity.
  split; [done|]. apply (X23_resize_negative 0 stack5_state (-1) Hc).
Defined.

(** X24. [Resize(0)] on an empty stack leaves storage of capacity
    zero; the next [Push] allocates [initCap] slots and puts its value
    there. *)
Theorem X24_push_after_resize_zero {T : Type} (zero : T)
    (s : Stack.Stack (T:=T)) (v : T) :
  Stack.wf s → Stack.top s = 0 → Stack.initCap s ≤ view_len →
  ∃ s0 s', Stack.Resize zero s 0 = Ok s0 ∧ Stack.Capacity s0 = 0 ∧
           Stack.Push zero s0 v = Ok s' ∧ Stack.elems s' = [v] ∧
           Stack.Length s' = 1 ∧ Stack.Capacity s' = Stack.initCap s.
Proof.
  intros Hs H0 Hi.
  destruct (StackOps.Resize_keep zero s 0 Hs)
    as (s0 & Hr & _ & _ & Hc0 & Hi0 & Hwf0); [lia|].
  destruct (StackOps.Push_unallocated zero s0 v)
    as (s' & Hp & _ & He & Ht & Hc & _);
    [apply Hwf0; unfold view_len; lia|done|by rewrite Hi0|].
  exists s0, s'. rewrite Hi0 in Hc. by split_and!.
Qed.

Lemma X24_push_after_resize_zero_witness :
  Stack.wf stack0_state ∧ Stack.top stack0_state = 0 ∧
  ∃ s0 s', Stack.Resize 0 stack0_state 0 = Ok s0 ∧ Stack.Capacity s0 = 0 ∧
           Stack.Push 0 s0 7 = Ok s' ∧ Stack.elems s' = [7] ∧
           Stack.Length s' = 1 ∧
           Stack.Capacity s' = Stack.initCap stack0_state.
Proof.
  assert (Stack.wf stack0_state) as Hs by wf_concrete.
  assert (Stack.top stack0_state = 0) as H0 by reflexivity.
  split_and!; [done..|].
  apply (X24_push_after_resize_zero 0 stack0_state 7 Hs H0).
  vm_compute. discriminate.
Defined.

(** X25. On a stack in a consistent state (capacity at most
    [1 << 30]), [Clear] empties the stack and keeps its storage; after a
    run of [Push] calls the cleared stack holds exactly the values
    pushed.  Twice their number, and [initCap], fit the array type
    behind the unsafe view. *)
Theorem X25_stack_clear_and_reuse {T : Type} (zero : T)
    (s : Stack.Stack (T:=T)) (vs : list T) :
  Stack.wf s → 2 * Z.of_nat (List.length vs) ≤ view_len →
  Stack.initCap s ≤ view_len →
  Stack.Length (Stack.Clear s) = 0 ∧ Stack.elems (Stack.Clear s) = [] ∧
  Stack.Capacity (Stack.Clear s) = Stack.Capacity s ∧
  ∃ s', Stack.Push_all zero (Stack.Clear s) vs = Ok s' ∧ Stack.wf s' ∧
        Stack.elems s' = vs ∧
        Stack.Length s' = Z.of_nat (List.length vs) ∧
        Stack.Capacity s ≤ Stack.Capacity s'.
Proof.
  intros Hs Hfit Hi.
  destruct (StackOps.stack_Clear_ok s Hs) as (Hs0 & He & Ht & Hc & Hi0).
  split_and!; try done.
  destruct (StackOps.Push_all_any zero (Stack.Clear s) vs Hs0)
    as (s' & Hp & Hs' & He' & Ht' & _ & Hc'); [rewrite Ht; lia|by rewrite Hi0|].
  exists s'. rewrite He in He'. rewrite Ht in Ht'. rewrite Hc in Hc'.
  unfold Stack.Length. split_and!; (done || lia).
Qed.

Lemma X25_stack_clear_and_reuse_witness :
  Stack.wf stack5_state ∧
  Stack.Length (Stack.Clear stack5_state) = 0 ∧
  Stack.elems (Stack.Clear stack5_state) = [] ∧
  Stack.Capacity (Stack.Clear stack5_state) = Stack.Capacity stack5_state ∧
  ∃ s', Stack.Push_all 0 (Stack.Clear stack5_state) [7; 8] = Ok s' ∧
        Stack.wf s' ∧ Stack.elems s' = [7; 8] ∧ Stack.Length s' = 2 ∧
        Stack.Capacity stack5_state ≤ Stack.Capacity s'.
Proof.
  assert (Stack.wf stack5_state) as Hs by wf_concrete.
  split; [done|].
  apply (X25_stack_clear_and_reuse 0 stack5_state [7; 8] Hs);
    vm_compute; discriminate.
Defined.

(** X26. On a non-empty stack in a consistent state, twice whose
    count fits the array type behind the unsafe view ([1 << 30]
    elements): after [TrimToSize] the stack is full, and the next [Push]
    doubles the storage again: the value lands on top of the elements
    kept, in storage of twice the count. *)
Theorem X26_push_after_trim {T : Type} (zero : T)
    (s : Stack.Stack (T:=T)) (v : T) :
  Stack.wf s → 0 < Stack.top s → 2 * Stack.top s ≤ view_len →
  ∃ s1 s2, Stack.TrimToSize zero s = Ok s1 ∧
           Stack.Capacity s1 = Stack.Length s1 ∧
           Stack.Push zero s1 v = Ok s2 ∧
           Stack.elems s2 = Stack.elems s ++ [v] ∧
           Stack.Capacity s2 = 2 * Stack.Length s.
Proof.
  intros Hs Hpos Hfit. pose proof Hs as (Ht & Hc & Hic).
  destruct (StackFacts.TrimToSize_nonempty zero s Hs Hpos)
    as (s1 & Htr & Hc1 & Ht1 & He1 & Hi1).
  assert (Stack.wf s1) as Hs1.
  { unfold Stack.wf. rewrite Hc1, Ht1, Hi1. unfold view_len in *. lia. }
  destruct (StackFacts.Push_grow zero s1 v Hs1)
    as (s2 & Hp & _ & He2 & _ & Hc2 & _); [lia..|].
  exists s1, s2. unfold Stack.Length. rewrite He1 in He2.
  split_and!; (done || lia).
Qed.

Lemma X26_push_after_trim_witness :
  Stack.wf stack5_state ∧ 0 < Stack.top stack5_state ∧
  ∃ s1 s2, Stack.TrimToSize 0 stack5_state = Ok s1 ∧
           Stack.Capacity s1 = Stack.Length s1 ∧
           Stack.Push 0 s1 9 = Ok s2 ∧
           Stack.elems s2 = Stack.elems stack5_state ++ [9] ∧
           Stack.Capacity s2 = 2 * Stack.Length stack5_state.
Proof.
  assert (Stack.wf stack5_state) as Hs by wf_concrete.
  assert (0 < Stack.top stack5_state) as Hpos by reflexivity.
  split_and!; [done..|].
  apply (X26_push_after_trim 0 stack5_state 9 Hs Hpos).
  vm_compute. discriminate.
Defined.

(** X27. [Init(n)] resets a deque or a stack whatever state it is in:
    the result is empty, its capacity and its [initCap] are both
    [max(8, n)], and a deque has both cursors at slot 0, inside the new
    storage. *)
Theorem X27_init_resets {T : Type} (zero : T)
    (q : Deque.Deque (T:=T)) (s : Stack.Stack (T:=T)) (n : Z) :
  n ≤ view_len →
  (∃ q', Deque.Init zero q n = Ok q' ∧ Deque.tight q' ∧
         Deque.elems q' = [] ∧ Deque.length q' = 0 ∧
         Deque.front q' = 0 ∧ Deque.back q' = 0 ∧
         Deque.Capacity q' = Z.max 8 n ∧ Deque.initCap q' = Z.max 8 n) ∧
  (∃ s', Stack.Init zero s n = Ok s' ∧ Stack.wf s' ∧
         Stack.elems s' = [] ∧ Stack.Length s' = 0 ∧
         Stack.Capacity s' = Z.max 8 n ∧ Stack.initCap s' = Z.max 8 n).
Proof.
  intros Hn. split.
  - rewrite DequeFacts.Init_ok. eexists. split; [done|].
    unfold Deque.tight, Deque.wf, Deque.Capacity, Deque.elems. cbn.
    rewrite length_replicate. unfold view_len in *.
    split_and!; (done || lia).
  - rewrite StackFacts.stack_Init_ok. eexists. split; [done|].
    unfold Stack.wf, Stack.Capacity, Stack.elems, Stack.Length. cbn.
    rewrite length_replicate. unfold view_len in *.
    split_and!; (done || lia).
Qed.

Lemma X27_init_resets_witness :
  20 ≤ view_len ∧
  (∃ q', Deque.Init 0 wrapped5_state 20 = Ok q' ∧ Deque.tight q' ∧
         Deque.elems q' = [] ∧ Deque.length q' = 0 ∧
         Deque.front q' = 0 ∧ Deque.back q' = 0 ∧
         Deque.Capacity q' = Z.max 8 20 ∧ Deque.initCap q' = Z.max 8 20) ∧
  (∃ s', Stack.Init 0 stack5_state 20 = Ok s' ∧ Stack.wf s' ∧
         Stack.elems s' = [] ∧ Stack.Length s' = 0 ∧
         Stack.Capacity s' = Z.max 8 20 ∧ Stack.initCap s' = Z.max 8 20).
Proof.
  assert (20 ≤ view_len) as Hn by (vm_compute; discriminate).
  split; [done|].
  apply (X27_init_resets 0 wrapped5_state stack5_state 20 Hn).
Defined.
